(** * JP-CABIN mod translator: a shallow embedding of the translation pipeline

    The development follows the JavaScript sources:
    - [indexModTranslator.js] (the coordinator: [.local] parsing and
      reconstruction, the cache helpers, the per-batch error handler),
    - [openaiTranslator.js] (the [OpenAITranslator] class: batch dispatch with
      bisection, [translateTextsBatch], [execJSON], [execLOCAL],
      [translatePatchouliBookObject]),
    - [langTranslator.js] (the DeepL based [LangTranslate] class),
    - [fileSearcher.js] (the recursive search for lang files).

    JavaScript strings are sequences of UTF-16 code units; they are modelled
    as lists of code units.  Arrays are lists, a [Map] is an association list
    in insertion order, objects are association lists in property order.
    Asynchronous functions are functions of a [world] (the number of remote
    calls issued, the console, the objects that are passed by reference)
    that return a value or throw.  The remote services, the file system,
    [md5] and [toLowerCase] are parameters.

    The first part holds the definitions, module by source file; the second
    part, "Properties", the lemmas and the theorems about them. *)

From Stdlib Require Import String Ascii DecimalNat.
From stdpp Require Import base list gmap.
From Equations Require Import Equations.

Set Warnings "-register-all,-clear-no-such-hyp".

Open Scope Z_scope.
Open Scope nat_scope.

(** ** JavaScript strings *)

Module JsString.

Definition char := N.
Definition jsstring := list char.

(** String literals of the sources (all of them ASCII). *)
Definition js (s : string) : jsstring :=
  map N_of_ascii (list_ascii_of_string s).

Definition LF : char := 10%N.
Definition CR : char := 13%N.
Definition HASH : char := 35%N.
Definition EQUALS : char := 61%N.
Definition BACKSLASH : char := 92%N.

(** [WhiteSpace] and [LineTerminator] of ECMAScript, the code units that
    [String.prototype.trim] and [trimEnd] remove. *)
Definition isWhiteSpace (c : char) : bool :=
  ((9 <=? c) && (c <=? 13) || (c =? 32) || (c =? 160) || (c =? 5760)
   || (8192 <=? c) && (c <=? 8202) || (c =? 8232) || (c =? 8233)
   || (c =? 8239) || (c =? 8287) || (c =? 12288) || (c =? 65279))%N.

Fixpoint trimStart (s : jsstring) : jsstring :=
  match s with
  | c :: rest => if isWhiteSpace c then trimStart rest else s
  | [] => []
  end.

Definition trimEnd (s : jsstring) : jsstring := rev (trimStart (rev s)).

Definition trim (s : jsstring) : jsstring := trimEnd (trimStart s).

(** Nothing but white space. *)
Definition blank (s : jsstring) : Prop :=
  Forall (fun c => isWhiteSpace c = true) s.

Definition isEmpty (s : jsstring) : bool :=
  match s with [] => true | _ => false end.

(** [s.startsWith(p)] *)
Fixpoint startsWith (p s : jsstring) : bool :=
  match p, s with
  | [], _ => true
  | a :: p', b :: s' => (a =? b)%N && startsWith p' s'
  | _ :: _, [] => false
  end.

(** [s.includes(p)] *)
Fixpoint includes (p s : jsstring) : bool :=
  startsWith p s || match s with [] => false | _ :: s' => includes p s' end.

(** [s.indexOf(c)] for a one-character needle; [-1] when there is none. *)
Fixpoint indexOf (c : char) (s : jsstring) : Z :=
  match s with
  | [] => (-1)%Z
  | d :: rest =>
      if (d =? c)%N then 0%Z
      else let i := indexOf c rest in if (i <? 0)%Z then (-1)%Z else (i + 1)%Z
  end.

(** [s.substring(a, b)] and [s.substring(a)] for non-negative arguments
    with [a <= b]. *)
Definition substring (a b : Z) (s : jsstring) : jsstring :=
  take (Z.to_nat b - Z.to_nat a) (drop (Z.to_nat a) s).
Definition substringFrom (a : Z) (s : jsstring) : jsstring :=
  drop (Z.to_nat a) s.

(** [parts.join(sep)] *)
Fixpoint join (sep : jsstring) (parts : list jsstring) : jsstring :=
  match parts with
  | [] => []
  | [p] => p
  | p :: rest => p ++ sep ++ join sep rest
  end.

Definition push_char (c : char) (parts : list jsstring) : list jsstring :=
  match parts with
  | [] => [[c]]
  | p :: rest => (c :: p) :: rest
  end.

(** [s.split(/\r?\n/)]: scanning from the left, a separator is matched at
    the first position holding CR LF or LF; the pieces between separators
    are returned, the last one included (so the result is never empty). *)
Fixpoint split_lines (s : jsstring) : list jsstring :=
  match s with
  | [] => [[]]
  | c :: rest =>
      match rest with
      | c' :: rest' =>
          if (c =? CR)%N && (c' =? LF)%N then [] :: split_lines rest'
          else if (c =? LF)%N then [] :: split_lines rest
          else push_char c (split_lines rest)
      | [] => if (c =? LF)%N then [[]; []] else [[c]]
      end
  end.

(** Template literals print an absent value as [undefined]. *)
Definition tmpl (o : option jsstring) : jsstring :=
  default (js "undefined") o.

End JsString.
Import JsString.

(** ** [.local] files: [parseLocalContent] and [reconstructLocal]
    (indexModTranslator.js; [LangTranslate._parseLocal] and
    [_reconstructLocal] are the same code) *)

Module LocalFormat.

(** The [type] tag: ['empty'], ['comment'], ['kv'], ['other']. *)
Inductive line_type := t_empty | t_comment | t_kv | t_other.

#[global] Instance line_type_eq_dec : EqDecision line_type.
Proof. solve_decision. Defined.

(** One element of the parsed array.  [key], [value] and [translatedValue]
    are [None] where the object has no such property. *)
Record parsed_line := mk_line {
  type : line_type;
  key : option jsstring;
  value : option jsstring;
  originalLine : jsstring;
  lineNumber : nat;
  translatedValue : option jsstring
}.

(** The body of the [forEach] callback of [parseLocalContent]. *)
Definition parse_line (line : jsstring) (index : nat) : parsed_line :=
  let trimmedLine := trim line in
  let lineNumber := index + 1 in
  if isEmpty trimmedLine then mk_line t_empty None None line lineNumber None
  else if startsWith (js "#") trimmedLine
       then mk_line t_comment None None line lineNumber None
  else
    let separatorIndex := indexOf EQUALS line in
    if (0 <? separatorIndex)%Z then
      let key := trimEnd (substring 0 separatorIndex line) in
      let value := substringFrom (separatorIndex + 1) line in
      if negb (isEmpty (trim key))
      then mk_line t_kv (Some key) (Some value) line lineNumber None
      else mk_line t_other None None line lineNumber None
    else mk_line t_other None None line lineNumber None.

(** What [parse_line] makes of a line, case by case. *)
Definition line_kind (line : jsstring) (p : parsed_line) : Prop :=
  (trim line = [] /\ type p = t_empty /\ key p = None /\ value p = None)
  \/ (trim line <> [] /\ head (trim line) = Some HASH
      /\ type p = t_comment /\ key p = None /\ value p = None)
  \/ (trim line <> [] /\ head (trim line) <> Some HASH
      /\ exists pre post,
           line = pre ++ EQUALS :: post /\ (EQUALS ∉ pre)
           /\ pre <> [] /\ trim pre <> []
           /\ type p = t_kv /\ key p = Some (trimEnd pre) /\ value p = Some post)
  \/ (trim line <> [] /\ head (trim line) <> Some HASH
      /\ (forall pre post,
            line = pre ++ EQUALS :: post -> (EQUALS ∉ pre) -> trim pre = [])
      /\ type p = t_other /\ key p = None /\ value p = None).

Definition parseLocalContent (localContent : jsstring) : list parsed_line :=
  imap (fun index line => parse_line line index) (split_lines localContent).

Definition reconstruct_item (item : parsed_line) : jsstring :=
  if decide (type item = t_kv) then
    let valueToUse :=
      match translatedValue item with
      | Some t => Some t
      | None => value item
      end in
    tmpl (key item) ++ js "=" ++ tmpl valueToUse
  else originalLine item.

Definition reconstructLocal (parsedData : list parsed_line) : jsstring :=
  join [LF] (map reconstruct_item parsedData).

(** The test that picks the lines to translate, in the coordinator and in
    [execLOCAL] of the DeepL translator alike:
    [item.type === 'kv' && typeof item.value === 'string' && item.value.trim() !== ''] *)
Definition is_text_line (item : parsed_line) : bool :=
  match type item, value item with
  | t_kv, Some value => negb (isEmpty (trim value))
  | _, _ => false
  end.

(** [item.translatedValue = t] *)
Definition set_translatedValue (t : jsstring) (item : parsed_line) : parsed_line :=
  mk_line (type item) (key item) (value item) (originalLine item) (lineNumber item)
    (Some t).

(** The number of lines to translate among the first [i] lines: the
    position of the text of line [i] among the texts of its file. *)
Definition line_rank (parsedData : list parsed_line) (i : nat) : nat :=
  length (filter (fun item => is_text_line item) (take i parsedData)).


End LocalFormat.

(** ** JavaScript values, objects and [Map]s *)

Module JsValue.

(** A JavaScript number, an IEEE double, as far as the sources tell them
    apart.  No function below computes with a number; the one that
    distinguishes numbers is [JSON.stringify], which prints [-0] as [0]
    and an infinity or [NaN] as [null].  A double that is finite and not
    [-0] is carried by an opaque code (the integer itself for an integral
    value); [JSON.parse] gives [-0] for the literal [-0] and an infinity
    for a literal that overflows, such as [1e999]. *)
Inductive number :=
| Finite (code : Z)
| NegativeZero
| PositiveInfinity
| NegativeInfinity
| NaN.

(** A JavaScript value as the sources meet them: what [JSON.parse] returns,
    plus [undefined] and [NaN]. *)
Inductive jsval :=
| VUndef
| VNull
| VBool (b : bool)
| VNum (n : number)
| VStr (s : jsstring)
| VArr (items : list jsval)
| VObj (props : list (jsstring * jsval)).

Fixpoint uint_chars (u : Decimal.uint) : jsstring :=
  match u with
  | Decimal.Nil => []
  | Decimal.D0 u => 48%N :: uint_chars u
  | Decimal.D1 u => 49%N :: uint_chars u
  | Decimal.D2 u => 50%N :: uint_chars u
  | Decimal.D3 u => 51%N :: uint_chars u
  | Decimal.D4 u => 52%N :: uint_chars u
  | Decimal.D5 u => 53%N :: uint_chars u
  | Decimal.D6 u => 54%N :: uint_chars u
  | Decimal.D7 u => 55%N :: uint_chars u
  | Decimal.D8 u => 56%N :: uint_chars u
  | Decimal.D9 u => 57%N :: uint_chars u
  end.

(** [n.toString()] for an array index or a prompt index. *)
Definition toString (n : nat) : jsstring := uint_chars (Nat.to_uint n).

(** [typeof v === 'string'] and [typeof v === 'object'] *)
Definition typeof_string (v : jsval) : bool :=
  match v with VStr _ => true | _ => false end.
Definition typeof_object (v : jsval) : bool :=
  match v with VNull | VArr _ | VObj _ => true | _ => false end.
Definition isArray (v : jsval) : bool :=
  match v with VArr _ => true | _ => false end.
Definition isNull (v : jsval) : bool :=
  match v with VNull => true | _ => false end.

(** [typeof v === 'string' && v.trim() !== ''] *)
Definition translatable (v : jsval) : bool :=
  match v with
  | VStr s => negb (isEmpty (trim s))
  | _ => false
  end.

Definition string_of (v : jsval) : jsstring :=
  match v with VStr s => s | _ => [] end.

(** The own enumerable properties, in enumeration order: those of an
    object, the indices of an array, the indices of a string. *)
Definition own_props (v : jsval) : list (jsstring * jsval) :=
  match v with
  | VObj props => props
  | VArr items => imap (fun i x => (toString i, x)) items
  | VStr s => imap (fun i c => (toString i, VStr [c])) s
  | _ => []
  end.

Fixpoint assoc (k : jsstring) (props : list (jsstring * jsval)) : option jsval :=
  match props with
  | [] => None
  | (k', v) :: rest => if decide (k = k') then Some v else assoc k rest
  end.

(** [v[k]] for an own, enumerable property; [VUndef] when there is none
    (every key read by the sources is either a decimal index or a key
    obtained from the object itself). *)
Definition get (v : jsval) (k : jsstring) : jsval :=
  default VUndef (assoc k (own_props v)).

Definition has_own (v : jsval) (k : jsstring) : bool :=
  bool_decide (is_Some (assoc k (own_props v))).

(** [Object.keys(v)] *)
Definition keys (v : jsval) : list jsstring := (own_props v).*1.

(** [obj[k] = x] on a property list that has [k]: the value is replaced in
    place and the enumeration order is kept. *)
Fixpoint set_existing (k : jsstring) (x : jsval) (props : list (jsstring * jsval))
  : list (jsstring * jsval) :=
  match props with
  | [] => []
  | (k', v) :: rest =>
      if decide (k = k') then (k', x) :: rest else (k', v) :: set_existing k x rest
  end.

(** [obj[k] = x] on a plain object.  A property the object has is replaced
    in place.  A new one is added at the end, except that [__proto__] on an
    object without such a property of its own names the inherited accessor:
    the assignment then adds no property. *)
Definition set_prop (k : jsstring) (x : jsval) (props : list (jsstring * jsval))
  : list (jsstring * jsval) :=
  if bool_decide (is_Some (assoc k props)) then set_existing k x props
  else if decide (k = js "__proto__") then props
  else props ++ [(k, x)].

(** A [Map<number, _>]: entries in insertion order, one per key. *)
Definition jsmap := list (nat * jsval).

Fixpoint map_set (k : nat) (x : jsval) (m : jsmap) : jsmap :=
  match m with
  | [] => [(k, x)]
  | (k', v) :: rest =>
      if decide (k = k') then (k', x) :: rest else (k', v) :: map_set k x rest
  end.

Fixpoint map_get (k : nat) (m : jsmap) : option jsval :=
  match m with
  | [] => None
  | (k', v) :: rest => if decide (k = k') then Some v else map_get k rest
  end.

(** [new Map(entries)] *)
Definition map_of_entries (entries : list (nat * jsval)) : jsmap :=
  foldl (fun m e => map_set e.1 e.2 m) [] entries.

Definition map_keys (m : jsmap) : gset nat := list_to_set m.*1.

(** The number of strings to translate among the first [i] values: the
    position of value [i] among the texts taken from the list. *)
Definition rank (values : list jsval) (i : nat) : nat :=
  length (filter (fun x => translatable x) (take i values)).


End JsValue.
Import JsValue.

(** ** Effects: exceptions, the console and the remote service *)

Module Effects.

(** What the sources throw and catch.  [APIError] is an instance of
    [OpenAI.APIError] with its [status] ([None]: no status, as for a
    connection error). *)
Inductive exn :=
| Error (message : jsstring)
| TypeError (message : jsstring)
| APIError (status : option nat) (message : jsstring).

Definition message (e : exn) : jsstring :=
  match e with Error m | TypeError m | APIError _ m => m end.

Inductive result (A : Type) :=
| Return (a : A)
| Throw (e : exn).
Arguments Return {A} a.
Arguments Throw {A} e.

(** One remote call: what [chat.completions.create] and the [JSON.parse]
    of the reply body come to. *)
Inductive api_outcome :=
| Rejected (error : exn)
    (* the call rejects: with an [OpenAI.APIError], or with anything else *)
| NoContent
    (* [choices[0]?.message?.content] is missing or empty *)
| Malformed (parseErrorMessage : jsstring)
    (* [JSON.parse(responseContent)] throws *)
| Parsed (translatedJson : jsval).
    (* [JSON.parse(responseContent)] returns *)

(** Console output and remote requests, in program order.  The batch and
    depth recorded with an event are those of the invocation that emits
    it. *)
Inductive event :=
| EvRequest (depth : nat) (promptIndices : list nat) (texts : list jsstring)
    (* [chat.completions.create] *)
| EvWarnSplit (size depth : nat)
    (* warn: "JSON parsing failed (likely truncated). Splitting batch" *)
| EvErrorParse (size depth : nat)
    (* error: "Failed to parse OpenAI JSON response ... cannot split further" *)
| EvErrorApi (size depth : nat) (msg : jsstring)
    (* error: "Error during OpenAI API call" *)
| EvWarnFallback (promptIndices : list nat) (texts : list jsstring)
    (* warn: "API error occurred, returning original texts for this batch attempt." *)
| EvWarnMissing (promptIndex : nat)
    (* warn: "Missing or invalid translation for prompt index" *)
| EvLog (msg : jsstring).
    (* any other console line *)

(** [heap] holds the objects that are passed by reference, by address. *)
Record world := mk_world {
  calls : nat;           (* remote calls issued so far *)
  console : list event;  (* what was printed and requested, oldest first *)
  heap : list jsval
}.

Definition emit (e : event) (w : world) : world :=
  mk_world (calls w) (console w ++ [e]) (heap w).

(** The remote call itself: one more call, and its request on record. *)
Definition request (e : event) (w : world) : world :=
  mk_world (S (calls w)) (console w ++ [e]) (heap w).

Definition M (A : Type) : Type := world -> result A * world.

Definition ret {A} (a : A) : M A := fun w => (Return a, w).
Definition throw {A} (e : exn) : M A := fun w => (Throw e, w).
Definition bind {A B} (m : M A) (f : A -> M B) : M B :=
  fun w => match m w with
           | (Return a, w') => f a w'
           | (Throw e, w') => (Throw e, w')
           end.
(** [try { body } catch (error) { handler }] *)
Definition try_catch {A} (body : M A) (handler : exn -> M A) : M A :=
  fun w => match body w with
           | (Return a, w') => (Return a, w')
           | (Throw e, w') => handler e w'
           end.
Definition say (e : event) : M unit := fun w => (Return tt, emit e w).
(** [const x = <a fresh object>], [x] read, [x] updated in place *)
Definition alloc (v : jsval) : M nat :=
  fun w => (Return (length (heap w)),
            mk_world (calls w) (console w) (heap w ++ [v])).
Definition read (ref : nat) : M jsval :=
  fun w => (Return (default VUndef (heap w !! ref)), w).
Definition modify (ref : nat) (f : jsval -> jsval) : M unit :=
  fun w => (Return tt,
            mk_world (calls w) (console w) (alter f ref (heap w))).

End Effects.
Import Effects.

Notation "'do' x <- c1 ; c2" := (bind c1 (fun x => c2))
  (at level 10, x name, c1 at level 100, c2 at level 200, only parsing).
Notation "'run' c1 ; c2" := (bind c1 (fun _ => c2))
  (at level 10, c1 at level 100, c2 at level 200, only parsing).

(** ** [OpenAITranslator] (openaiTranslator.js) *)

Module OpenAITranslator.

Section Translator.

(** The remote service: the outcome of the n-th call issued. *)
Variable remote : nat -> api_outcome.
(** [String.prototype.toLowerCase] of the runtime. *)
Variable toLowerCase : jsstring -> jsstring.

Definition MAX_SPLIT_DEPTH : nat := 2.

(** [promptIndices.forEach((promptIndex, i) => ... texts[i] ...)]: the
    pairs the callback sees; [texts[i]] is [undefined] past the end. *)
Definition batch_entries (promptIndices : list nat) (texts : list jsstring)
  : list (nat * jsval) :=
  imap (fun i promptIndex =>
          (promptIndex, from_option VStr VUndef (texts !! i))) promptIndices.

(** The fallback loop of the outer [catch]:
    [promptIndices.forEach((promptIndex, i) => resultsMap.set(promptIndex, texts[i]))]. *)
Definition set_originals (entries : list (nat * jsval)) (resultsMap : jsmap) : jsmap :=
  foldl (fun m e => map_set e.1 e.2 m) resultsMap entries.

(** [translatedJson.hasOwnProperty(key)]: the method is looked up on the
    value itself first, so [null] and [undefined] have none, and a reply
    that carries a property named [hasOwnProperty] hides the inherited
    method behind a value that cannot be called. *)
Definition call_hasOwnProperty (v : jsval) (key : jsstring) : result bool :=
  match v with
  | VNull | VUndef =>
      Throw (TypeError (js "Cannot read properties of null (reading 'hasOwnProperty')"))
  | _ =>
      if has_own v (js "hasOwnProperty")
      then Throw (TypeError (js "translatedJson.hasOwnProperty is not a function"))
      else Return (has_own v key)
  end.

(** The [forEach] over the parsed reply.  It returns the map as filled so
    far, the warnings printed, and the exception that stopped it, if any. *)
Fixpoint fill_results (translatedJson : jsval) (entries : list (nat * jsval))
  (resultsMap : jsmap) (warnings : list event) : jsmap * list event * option exn :=
  match entries with
  | [] => (resultsMap, warnings, None)
  | (promptIndex, originalText) :: rest =>
      let key := toString promptIndex in
      match call_hasOwnProperty translatedJson key with
      | Throw e => (resultsMap, warnings, Some e)
      | Return present =>
          if present && typeof_string (get translatedJson key) then
            fill_results translatedJson rest
              (map_set promptIndex (get translatedJson key) resultsMap) warnings
          else
            match originalText with
            | VStr _ =>
                fill_results translatedJson rest
                  (map_set promptIndex originalText resultsMap)
                  (warnings ++ [EvWarnMissing promptIndex])
            | _ =>
                (resultsMap, warnings,
                 Some (TypeError (js "Cannot read properties of undefined (reading 'length')")))
            end
      end
  end.

(** The condition under which a parse failure is retried on halves. *)
Definition looks_truncated (parseErrorMessage : jsstring) : bool :=
  includes (js "Unterminated string") parseErrorMessage
  || includes (js "Unexpected end of JSON input") parseErrorMessage
  || includes (js "unexpected token") (toLowerCase parseErrorMessage).

Definition can_split (texts : list jsstring) (currentSplitDepth : nat)
  (parseErrorMessage : jsstring) : bool :=
  (1 <? length texts) && (currentSplitDepth <? MAX_SPLIT_DEPTH)
  && looks_truncated parseErrorMessage.

(** [Math.ceil(texts.length / 2)] *)
Definition midPoint (texts : list jsstring) : nat := (length texts + 1) / 2.

(** [error instanceof OpenAI.APIError && error.status === status] *)
Definition has_status (error : exn) (status : nat) : bool :=
  match error with
  | APIError (Some s) _ => s =? status
  | _ => false
  end.

(** The outer [catch (error)] block, entered with the [resultsMap] as the
    [try] block left it. *)
Definition on_error (texts : list jsstring) (promptIndices : list nat)
  (currentSplitDepth : nat) (resultsMap : jsmap) (error : exn) (w : world)
  : result jsmap * world :=
  let w := emit (EvErrorApi (length texts) currentSplitDepth (message error)) w in
  if has_status error 401
  then (Throw (Error (js "OpenAI Authorization Failed. Check API Key.")), w)
  else if has_status error 429
  then (Throw (Error (js "OpenAI Rate Limit or Quota Exceeded.")), w)
  else
    let w := emit (EvWarnFallback promptIndices texts) w in
    (Return (set_originals (batch_entries promptIndices texts) resultsMap), w).

Definition parse_failure_message (currentSplitDepth : nat) (parseErrorMessage : jsstring)
  : jsstring :=
  js "Failed to parse OpenAI JSON response after " ++ toString currentSplitDepth
  ++ js " splits: " ++ parseErrorMessage.

Definition inspect {A} (a : A) : {b : A | a = b} := exist _ a eq_refl.

(** [translateBatchInternal(textsForThisAPICall, promptIndicesForThisAPICall,
    currentSplitDepth)].  The delay before a call is not modelled. *)
Equations? translateBatchInternal (texts : list jsstring) (promptIndices : list nat)
  (currentSplitDepth : nat) (w : world) : result jsmap * world
  by wf (MAX_SPLIT_DEPTH - currentSplitDepth) lt :=
translateBatchInternal [] _ _ w := (Return [], w);
translateBatchInternal texts promptIndices currentSplitDepth w
  with remote (calls w) := {
  | Rejected error =>
      on_error texts promptIndices currentSplitDepth [] error
        (request (EvRequest currentSplitDepth promptIndices texts) w)
  | NoContent =>
      on_error texts promptIndices currentSplitDepth []
        (Error (js "OpenAI response content is empty."))
        (request (EvRequest currentSplitDepth promptIndices texts) w)
  | Parsed translatedJson
      with fill_results translatedJson (batch_entries promptIndices texts) [] [] := {
      | (resultsMap, warnings, None) =>
          (Return resultsMap,
           fold_left (fun w e => emit e w) warnings
             (request (EvRequest currentSplitDepth promptIndices texts) w))
      | (resultsMap, warnings, Some e) =>
          on_error texts promptIndices currentSplitDepth resultsMap e
            (fold_left (fun w e => emit e w) warnings
               (request (EvRequest currentSplitDepth promptIndices texts) w)) }
  | Malformed parseErrorMessage
      with inspect (can_split texts currentSplitDepth parseErrorMessage) := {
      | exist _ true Hsplit
          with translateBatchInternal
                 (take (midPoint texts) texts) (take (midPoint texts) promptIndices)
                 (currentSplitDepth + 1)
                 (emit (EvWarnSplit (length texts) (currentSplitDepth + 1))
                    (request (EvRequest currentSplitDepth promptIndices texts) w)) := {
          | (Throw e, w1) =>
              on_error texts promptIndices currentSplitDepth [] e w1
          | (Return firstHalfResults, w1)
              with translateBatchInternal
                     (drop (midPoint texts) texts) (drop (midPoint texts) promptIndices)
                     (currentSplitDepth + 1) w1 := {
              | (Throw e, w2) =>
                  on_error texts promptIndices currentSplitDepth [] e w2
              | (Return secondHalfResults, w2) =>
                  (Return (map_of_entries (firstHalfResults ++ secondHalfResults)), w2) } }
      | exist _ false _ =>
          on_error texts promptIndices currentSplitDepth []
            (Error (parse_failure_message currentSplitDepth parseErrorMessage))
            (emit (EvErrorParse (length texts) currentSplitDepth)
               (request (EvRequest currentSplitDepth promptIndices texts) w)) } }.
Proof.
  all: unfold can_split in Hsplit;
    apply andb_prop in Hsplit as [Hsplit _];
    apply andb_prop in Hsplit as [_ Hsplit];
    apply Nat.ltb_lt in Hsplit; lia.
Qed.


(** The body of [translatedMapFromApi.forEach]:
    [finalResults[originalIndices[promptIndexFromApi]] = translatedText].
    An index found in [originalIndices] lies inside [finalResults]; for a
    [promptIndexFromApi] outside [originalIndices] the assignment names the
    property [undefined] and no element changes. *)
Definition place_result (originalIndices : list nat) (finalResults : list jsval)
  (entry : nat * jsval) : list jsval :=
  match originalIndices !! entry.1 with
  | Some originalIndexInFullArray => <[originalIndexInFullArray := entry.2]> finalResults
  | None => finalResults
  end.

(** [translateTextsBatch(texts)] *)
Definition translateTextsBatch (texts : list jsval) : M (list jsval) :=
  match texts with
  | [] => ret []
  | _ =>
      let selected := filter (fun p => translatable p.2) (imap pair texts) in
      let originalIndices := selected.*1 in
      let textsToTranslate := string_of <$> selected.*2 in
      let finalResults := texts in
      match textsToTranslate with
      | [] => ret finalResults
      | _ =>
          let promptIndicesForApi := seq 0 (length textsToTranslate) in
          do translatedMapFromApi <-
            translateBatchInternal textsToTranslate promptIndicesForApi 0;
          ret (foldl (place_result originalIndices) finalResults translatedMapFromApi)
      end
  end.

(** *** [execJSON] *)

(** The body of [translatedTexts.forEach] in [execJSON]. *)
Definition assign_translated (keysToTranslate : list jsstring)
  (translatedData : list (jsstring * jsval)) (index : nat) (translatedText : jsval)
  : list (jsstring * jsval) :=
  match keysToTranslate !! index with
  | Some originalJsonKey => set_prop originalJsonKey translatedText translatedData
  | None => translatedData
  end.

Definition foldl_i {A B} (f : A -> nat -> B -> A) (a : A) (l : list B) : A :=
  foldl (fun acc p => f acc p.1 p.2) a (imap pair l).

(** [execJSON(jsonData)] *)
Definition execJSON (jsonData : jsval) : M jsval :=
  if negb (typeof_object jsonData) || isNull jsonData then ret jsonData
  else
    let keysToTranslate :=
      filter (fun key => translatable (get jsonData key)) (keys jsonData) in
    let textsToTranslate := get jsonData <$> keysToTranslate in
    match textsToTranslate with
    | [] => ret (VObj (own_props jsonData))
    | _ =>
        do translatedTexts <- translateTextsBatch textsToTranslate;
        let translatedData := own_props jsonData in
        ret (VObj (foldl_i (assign_translated keysToTranslate)
                     translatedData translatedTexts))
    end.

(** *** [translatePatchouliBookObject] *)

Definition translatableKeys : list jsstring :=
  [js "name"; js "title"; js "header"; js "text"; js "advancement_title";
   js "subtitle"; js "description"].

Record extracted := mk_extracted {
  path : list jsstring;
  originalText : jsstring
}.

(** Running two parts of a loop one after the other, the second only if
    the first did not throw. *)
Definition and_then {A} (r1 r2 : result (list A)) : result (list A) :=
  match r1 with
  | Throw e => Throw e
  | Return l1 => match r2 with
                 | Throw e => Throw e
                 | Return l2 => Return (l1 ++ l2)
                 end
  end.

(** A loop over an array or over the properties of an object: the items
    pushed by the bodies, in order; a body that throws ends the loop. *)
Fixpoint for_each {A} (body : nat -> A -> result (list extracted)) (index : nat)
  (items : list A) {struct items} : result (list extracted) :=
  match items with
  | [] => Return []
  | item :: rest => and_then (body index item) (for_each body (S index) rest)
  end.

(** The body of the [for (const key in obj)] loop of [extractStrings],
    with [extract] for the function itself. *)
Definition visit (extract : jsval -> list jsstring -> result (list extracted))
  (currentPath : list jsstring) (key : jsstring) (value : jsval)
  : result (list extracted) :=
  let newPath := currentPath ++ [key] in
  if bool_decide (key ∈ translatableKeys) && translatable value
  then Return [mk_extracted newPath (string_of value)]
  else
    match value with
    | VArr items =>
        for_each (fun index item => extract item (newPath ++ [toString index]))
          0 items
    | VObj _ | VNull => extract value newPath
    | _ => Return []
    end.

(** [extractStrings(obj, currentPath)]: the items it pushes, in order, or
    the exception that ends the walk.  [obj.hasOwnProperty(key)] is a call
    of whatever [obj.hasOwnProperty] is: on an object that has a property
    of that name it is a [TypeError]. *)
Fixpoint extractStrings (obj : jsval) (currentPath : list jsstring) {struct obj}
  : result (list extracted) :=
  match obj with
  | VObj props =>
      if has_own obj (js "hasOwnProperty")
      then Throw (TypeError (js "obj.hasOwnProperty is not a function"))
      else for_each (fun _ '(key, value) =>
                       visit extractStrings currentPath key value) 0 props
  | VArr elements =>
      for_each (fun index value =>
                  visit extractStrings currentPath (toString index) value)
        0 elements
  | _ => Return []
  end.

(** [JSON.parse(JSON.stringify(v))]: a fresh structure; [undefined]
    becomes [null] inside an array and the property is dropped inside an
    object; a number that is not finite is printed as [null], and [-0] as
    [0]. *)
Fixpoint json_clone (v : jsval) : jsval :=
  match v with
  | VArr items =>
      VArr (map (fun x => match x with
                          | VUndef => VNull
                          | _ => json_clone x
                          end) items)
  | VObj props =>
      VObj (omap (fun '(k, x) => match x with
                                 | VUndef => None
                                 | _ => Some (k, json_clone x)
                                 end) props)
  | VNum (Finite _) => v
  | VNum NegativeZero => VNum (Finite 0)
  | VNum _ => VNull
  | _ => v
  end.

(** [current[k] = x] where [current] is an object or an array.  On an
    array the element whose index prints as [k] is replaced (every key that
    [setValueByPath] assigns was read from the structure by the walk). *)
Definition assign (current : jsval) (k : jsstring) (x : jsval) : jsval :=
  match current with
  | VObj props => VObj (set_prop k x props)
  | VArr items => VArr (imap (fun i y => if decide (toString i = k) then x else y) items)
  | _ => current
  end.

(** [setValueByPath(obj, pathArray, value)], as the tree [obj] has become
    once the assignment is done.  The loop leaves early, changing nothing,
    when it meets a value that is not an object. *)
Fixpoint setValueByPath (obj : jsval) (pathArray : list jsstring) (value : jsval)
  : jsval :=
  match pathArray with
  | [] => assign obj (js "undefined") value
  | [last] => assign obj last value
  | k :: rest =>
      let current := get obj k in
      if negb (typeof_object current) || isNull current then obj
      else assign obj k (setValueByPath current rest value)
  end.

(** The body of [extractedItems.forEach] at the end of
    [translatePatchouliBookObject]. *)
Definition write_back (translatedTextsArray : list jsval)
  (translatedBookJson : jsval) (index : nat) (item : extracted) : jsval :=
  setValueByPath translatedBookJson (path item)
    (default VUndef (translatedTextsArray !! index)).

(** [translatePatchouliBookObject(bookJsonData)], on the address of the
    object passed in; the result is the address of the object returned. *)
Definition translatePatchouliBookObject (bookJsonData : nat) : M nat :=
  do input <- read bookJsonData;
  if negb (typeof_object input) || isNull input then
    run say (EvLog (js "[Translator] translatePatchouliBookObject: Input is not a valid object."));
    ret bookJsonData
  else
    match extractStrings input [] with
    | Throw e => throw e
    | Return [] => alloc (json_clone input)
    | Return extractedItems =>
        let originalTextsArray := (fun item => VStr (originalText item)) <$> extractedItems in
        run say (EvLog (js "[Translator] translatePatchouliBookObject: Translating strings..."));
        do translatedTextsArray <- translateTextsBatch originalTextsArray;
        do translatedBookJson <- alloc (json_clone input);
        run modify translatedBookJson
              (fun copy => foldl_i (write_back translatedTextsArray) copy extractedItems);
        ret translatedBookJson
    end.

(** *** [execLOCAL] and its private helpers *)

(** The [type] tag of [#parseLocal]: ['e'], ['c'], ['kv'], ['o']. *)
Inductive short_type := t_e | t_c | t_kv | t_o.

(** An element of the array built by [#parseLocal], with every property
    that the class reads or writes on it; [None] where the object has no
    such property. *)
Record short_line := mk_short {
  type : short_type;
  k : option jsstring;
  v : option jsstring;
  o : jsstring;
  l : nat;
  tV : option jsstring;              (* read by [#reconstructLocal] *)
  value : option jsstring;           (* read by [execLOCAL] *)
  translatedValue : option jsval     (* written by [execLOCAL] *)
}.

(** The [forEach] callback of [#parseLocal]. *)
Definition parseLocal_line (l : jsstring) (i : nat) : short_line :=
  let t := trim l in
  let n := i + 1 in
  if isEmpty t then mk_short t_e None None l n None None None
  else if startsWith (js "#") t then mk_short t_c None None l n None None None
  else
    let s := indexOf EQUALS l in
    if (0 <? s)%Z then
      let k := trimEnd (substring 0 s l) in
      let v := substringFrom (s + 1) l in
      if negb (isEmpty (trim k))
      then mk_short t_kv (Some k) (Some v) l n None None None
      else mk_short t_o None None l n None None None
    else mk_short t_o None None l n None None None.

Definition parseLocal (localContent : jsstring) : list short_line :=
  imap (fun i l => parseLocal_line l i) (split_lines localContent).

Definition reconstructLocal (parsedData : list short_line) : jsstring :=
  join [LF]
    (map (fun i =>
            match type i with
            | t_kv => tmpl (k i) ++ js "=" ++ tmpl (match tV i with
                                                    | Some t => Some t
                                                    | None => v i
                                                    end)
            | _ => o i
            end) parsedData).

(** The filter of [execLOCAL]:
    [item.type === 'kv' && typeof item.value === 'string' && item.value.trim() !== ''] *)
Definition wanted (item : short_line) : bool :=
  match type item, value item with
  | t_kv, Some s => negb (isEmpty (trim s))
  | _, _ => false
  end.

Definition set_translatedValue (x : jsval) (item : short_line) : short_line :=
  mk_short (type item) (k item) (v item) (o item) (l item) (tV item)
    (value item) (Some x).

(** The body of [translatedTexts.forEach] in [execLOCAL]. *)
Definition update_line (indicesToUpdate : list nat) (parsedData : list short_line)
  (batchIndex : nat) (translatedText : jsval) : list short_line :=
  match indicesToUpdate !! batchIndex with
  | Some originalParsedIndex => alter (set_translatedValue translatedText)
                                  originalParsedIndex parsedData
  | None => parsedData
  end.

(** [execLOCAL(localContent)] on a string. *)
Definition execLOCAL (localContent : jsstring) : M jsstring :=
  let parsedData := parseLocal localContent in
  let selected := filter (fun p => wanted p.2) (imap pair parsedData) in
  let textsToTranslate := (fun p => VStr (default [] (value p.2))) <$> selected in
  let indicesToUpdate := selected.*1 in
  match textsToTranslate with
  | [] => ret localContent
  | _ =>
      do translatedTexts <- translateTextsBatch textsToTranslate;
      ret (reconstructLocal
             (foldl_i (update_line indicesToUpdate) parsedData translatedTexts))
  end.

End Translator.

End OpenAITranslator.

(** ** [LangTranslate] (langTranslator.js), the DeepL based translator *)

Module LangTranslate.

(** One call of [translateText] of the DeepL client: the text it returns,
    or the class of the error it rejects with, among the classes of
    deepl-node that [_translateText] names.  The source names one more,
    [deepl.RateLimitExceededError]; deepl-node exports no class of that
    name (a reply with status 429 is a [TooManyRequestsError]), so no error
    is an instance of it and the expression itself is [undefined]. *)
Inductive deepl_outcome :=
| Translated (text : jsstring)
| QuotaExceededError
| AuthorizationError
| TooManyRequestsError
| ConnectionError
| DeepLError          (* any other error of the client *)
| UnexpectedError.    (* an error that is not a [DeepLError] *)

Section Translator.

Variable remote : nat -> deepl_outcome.

Definition quota_message : jsstring := js "DeepL Quota Exceeded".
Definition authorization_message : jsstring :=
  js "DeepL Authorization Failed. Check API Key.".

(** What [error instanceof deepl.RateLimitExceededError] throws: the
    right-hand side is [undefined]. *)
Definition instanceof_undefined : exn :=
  TypeError (js "Right-hand side of 'instanceof' is not an object").

(** [_translateText(text)].  In the [catch], the tests for a quota and for
    an authorization error come first; for any other error the next test
    is [error instanceof deepl.RateLimitExceededError], which throws, so
    the branches that print a warning and return the text are never
    reached. *)
Definition _translateText (text : jsval) : M jsval :=
  if negb (translatable text) then ret text
  else fun w =>
    let w1 := mk_world (S (calls w)) (console w) (heap w) in
    match remote (calls w) with
    | Translated t => (Return (VStr t), w1)
    | QuotaExceededError =>
        (Throw (Error quota_message),
         emit (EvLog (js "DeepL API quota exceeded. Translation stopped.")) w1)
    | AuthorizationError =>
        (Throw (Error authorization_message),
         emit (EvLog (js "DeepL Authorization Error. Check your API Key.")) w1)
    | TooManyRequestsError | ConnectionError | DeepLError | UnexpectedError =>
        (Throw instanceof_undefined, w1)
    end.

(** The body of the [for (const key of keys)] loop of [execJSON]. *)
Definition translate_key (jsonData : jsval) (translatedData : list (jsstring * jsval))
  (key : jsstring) : M (list (jsstring * jsval)) :=
  let originalValue := get jsonData key in
  if translatable originalValue then
    try_catch
      (do t <- _translateText originalValue;
       ret (set_prop key t translatedData))
      (fun error =>
         if decide (message error = quota_message)
         then throw error
         else if decide (message error = authorization_message)
         then throw error
         else ret (set_prop key originalValue translatedData))
  else ret (set_prop key originalValue translatedData).

Fixpoint for_of {A B} (f : A -> B -> M A) (a : A) (items : list B) : M A :=
  match items with
  | [] => ret a
  | x :: rest => do a' <- f a x; for_of f a' rest
  end.

(** [execJSON(jsonData)]: the object it builds, the requests it sends and
    what it throws.  The progress lines that it prints and the delay
    between requests are not modelled. *)
Definition execJSON (jsonData : jsval) : M jsval :=
  if negb (typeof_object jsonData) || isNull jsonData
  then throw (Error (js "Input jsonData must be a non-null object for execJSON()."))
  else
    do translatedData <- for_of (translate_key jsonData) [] (keys jsonData);
    ret (VObj translatedData).

(** *** [execLOCAL] and its helpers *)

(** [this.targetLang] *)
Variable targetLang : jsstring.

Definition QUOTE : char := 34%N.

(** The warning that [_parseLocal] prints for a line it keeps as
    ['other']: one text when there is a separator after a blank key,
    another when there is no separator past the first column. *)
Definition skipped_line_warning (item : LocalFormat.parsed_line) : event :=
  let line := LocalFormat.originalLine item in
  if (0 <? indexOf EQUALS line)%Z
  then EvLog (js "Skipping line " ++ toString (LocalFormat.lineNumber item)
              ++ js " with empty key: " ++ [QUOTE] ++ line ++ [QUOTE])
  else EvLog (js "Skipping line " ++ toString (LocalFormat.lineNumber item)
              ++ js " without valid 'key=value' format: " ++ [QUOTE] ++ line ++ [QUOTE]).

(** [_parseLocal(localContent)]: the code of [parseLocalContent], with a
    warning for every line that is kept as ['other']. *)
Definition _parseLocal (localContent : jsstring) : M (list LocalFormat.parsed_line) :=
  fun w =>
    let parsed := LocalFormat.parseLocalContent localContent in
    (Return parsed,
     fold_left (fun w item =>
                  if decide (LocalFormat.type item = LocalFormat.t_other)
                  then emit (skipped_line_warning item) w
                  else w) parsed w).

(** [_reconstructLocal(parsedData)]: the code of [reconstructLocal]. *)
Definition _reconstructLocal (parsedData : list LocalFormat.parsed_line) : jsstring :=
  LocalFormat.reconstructLocal parsedData.

(** The body of the [for (const item of parsedData)] loop of [execLOCAL].
    The state is the items seen so far, as the loop leaves them, and the
    counter [processedItems].  [_translateText] is given a string and,
    when it returns, returns one.  The delay between requests is not
    modelled. *)
Definition translate_item (totalItems : nat)
  (acc : list LocalFormat.parsed_line * nat) (item : LocalFormat.parsed_line)
  : M (list LocalFormat.parsed_line * nat) :=
  let '(items, processedItems) := acc in
  if LocalFormat.is_text_line item then
    try_catch
      (do t <- _translateText (VStr (default [] (LocalFormat.value item)));
       let processedItems := processedItems + 1 in
       run (if (processedItems mod 50 =? 0) || (processedItems =? totalItems)
            then say (EvLog (js "Processed " ++ toString processedItems ++ js "/"
                             ++ toString totalItems ++ js " .local items..."))
            else ret tt);
       ret (items ++ [LocalFormat.set_translatedValue (string_of t) item], processedItems))
      (fun error =>
         if decide (message error = quota_message)
         then throw error
         else if decide (message error = authorization_message)
         then throw error
         else
           run say (EvLog (js "Skipping translation for key " ++ [QUOTE]
                           ++ tmpl (LocalFormat.key item) ++ [QUOTE] ++ js " on line "
                           ++ toString (LocalFormat.lineNumber item)
                           ++ js " due to error."));
           ret (items ++ [item], processedItems))
  else ret (items ++ [item], processedItems).

(** [execLOCAL(localContent)] *)
Definition execLOCAL (localContent : jsval) : M jsstring :=
  match localContent with
  | VStr localContent =>
      run say (EvLog (js "Parsing .local content..."));
      do parsedData <- _parseLocal localContent;
      let totalItems := length (filter (fun item => LocalFormat.is_text_line item) parsedData) in
      run say (EvLog (js "Starting translation of " ++ toString totalItems
                      ++ js " key-value pairs from .local content to "
                      ++ targetLang ++ js "..."));
      do done <- for_of (translate_item totalItems) ([], 0) parsedData;
      run say (EvLog (js "Reconstructing translated .local content..."));
      let translatedLocalContent := _reconstructLocal done.1 in
      run say (EvLog (js ".local content translation finished."));
      ret translatedLocalContent
  | _ => throw (Error (js "Input localContent must be a string for execLOCAL()."))
  end.

(** *** What a run of [execLOCAL] and [execJSON] comes to *)

(** The outcomes on which [_translateText] throws one of its two own
    errors, which [execJSON] and [execLOCAL] throw again. *)
Definition fatal (o : deepl_outcome) : bool :=
  match o with
  | QuotaExceededError | AuthorizationError => true
  | _ => false
  end.

(** The error that [_translateText] throws on a fatal outcome. *)
Definition fatal_error (o : deepl_outcome) : exn :=
  match o with
  | AuthorizationError => Error authorization_message
  | _ => Error quota_message
  end.

(** The text that a unit has in the result after a call that is not
    fatal: what the service returned, or [original] when the call failed
    (the callers of [_translateText] catch what it throws then and keep
    the value). *)
Definition text_of (o : deepl_outcome) (original : jsstring) : jsstring :=
  match o with
  | Translated t => t
  | _ => original
  end.

(** The first of the calls numbered [c], ..., [c + k - 1] with a fatal
    outcome, counted from [c]. *)
Fixpoint first_fatal (c k : nat) : option nat :=
  match k with
  | 0 => None
  | S k' => if fatal (remote c) then Some 0 else S <$> first_fatal (S c) k'
  end.

(** The lines as the loop of [execLOCAL] leaves them when no call is
    fatal, the calls being numbered in the order of the lines from [c] on:
    a line whose call returned a text has it as [translatedValue]; a line
    whose call failed, and any line that is not to translate, is as
    parsed. *)
Definition lines_after_loop (c : nat) (parsedData : list LocalFormat.parsed_line)
  : list LocalFormat.parsed_line :=
  imap (fun i item =>
          if LocalFormat.is_text_line item
          then match remote (c + LocalFormat.line_rank parsedData i) with
               | Translated t => LocalFormat.set_translatedValue t item
               | _ => item
               end
          else item) parsedData.

(** The lines with the text that each has in the file which [execLOCAL]
    returns when no call is fatal: a line to translate has the text of its
    call, the calls being numbered in the order of the lines from [c] on;
    any other line is as parsed. *)
Definition translated_from (c : nat) (parsedData : list LocalFormat.parsed_line)
  : list LocalFormat.parsed_line :=
  imap (fun i item =>
          if LocalFormat.is_text_line item
          then LocalFormat.set_translatedValue
                 (text_of (remote (c + LocalFormat.line_rank parsedData i))
                    (default [] (LocalFormat.value item))) item
          else item) parsedData.

(** The properties as [execJSON] builds them when no call is fatal. *)
Definition translated_props (c : nat) (props : list (jsstring * jsval))
  : list (jsstring * jsval) :=
  imap (fun i p =>
          if translatable p.2
          then (p.1, VStr (text_of (remote (c + rank props.*2 i)) (string_of p.2)))
          else p) props.


End Translator.

End LangTranslate.

(** ** The coordinator (indexModTranslator.js) *)

Module Main.

(** An entry of [individualLangTextsToTranslate] that comes from a
    [.local] file. *)
Record local_text := mk_local_text {
  text : jsstring;
  originalLineNumber : nat
}.

(** The [parsedLines.forEach] of the coordinator: one entry per line with
    [lineData.type === 'kv' && typeof lineData.value === 'string' &&
     lineData.value.trim() !== '']. *)
Definition extract_local_texts (parsedLines : list LocalFormat.parsed_line)
  : list local_text :=
  omap (fun lineData =>
          match LocalFormat.type lineData, LocalFormat.value lineData with
          | LocalFormat.t_kv, Some value =>
              if negb (isEmpty (trim value))
              then Some (mk_local_text value (LocalFormat.lineNumber lineData))
              else None
          | _, _ => None
          end) parsedLines.

Section Coordinator.

Variable remote : nat -> api_outcome.
Variable toLowerCase : jsstring -> jsstring.

(** An element of [langTextBatches]. *)
Record lang_batch := mk_batch {
  texts : list jsstring;
  indices : list nat
}.

(** The variables shared by the tasks of [langTranslationPromises]. *)
Record shared := mk_shared {
  fatalApiError : bool;
  translatedLangTextMap : jsmap
}.

(** [internalResultMap.forEach((txt, pIdx) =>
       translatedLangTextMap.set(batch.indices[pIdx], txt))] *)
Definition record_results (batch : lang_batch) (translated : jsmap) (m : jsmap) : jsmap :=
  foldl (fun m e => match indices batch !! e.1 with
                    | Some i => map_set i e.2 m
                    | None => m
                    end) m translated.

Definition is_fatal_message (m : jsstring) : bool :=
  includes (js "Quota Exceeded") m || includes (js "Authorization Failed") m.

(** One task of [langTranslationPromises].  [Throw] is the rejection that
    makes [Promise.all] reject and the coordinator call [process.exit(1)];
    the second component is the shared state the task leaves. *)
Definition lang_batch_task (batch : lang_batch) (st : shared) (w : world)
  : result unit * shared * world :=
  if fatalApiError st then (Return tt, st, w)
  else
    let promptIndices := seq 0 (length (texts batch)) in
    match OpenAITranslator.translateBatchInternal remote toLowerCase
            (texts batch) promptIndices 0 w with
    | (Return internalResultMap, w') =>
        (Return tt,
         mk_shared (fatalApiError st)
           (record_results batch internalResultMap (translatedLangTextMap st)),
         w')
    | (Throw e, w') =>
        let w' := emit (EvLog (js "[Main] Lang batch failed: " ++ message e)) w' in
        if is_fatal_message (message e)
        then (Throw e, mk_shared true (translatedLangTextMap st), w')
        else (Return tt, st, w')
    end.

(** [translatedLangTextMap.get(index) ?? textInfo.text] *)
Definition resolved_text (st : shared) (index : nat) (text : jsstring) : jsval :=
  match map_get index (translatedLangTextMap st) with
  | Some VUndef | Some VNull | None => VStr text
  | Some t => t
  end.

End Coordinator.

End Main.

(** ** The cache helpers (indexModTranslator.js) *)

Module Cache.

(** The fields of a [fileInfo] record reported by a worker. *)
Record fileInfo := mk_fileInfo {
  originalJar : jsstring;
  originalPathInJar : jsstring;
  namespace : jsstring;
  content : jsstring;
  isJson : bool
}.

Definition PROMPT_VERSION : jsstring := js "1.1".

(** An error of [fs]: its [code] (such as [ENOENT]) and its message. *)
Record fs_error := mk_fs_error {
  code : option jsstring;
  fs_message : jsstring
}.

Inductive fs_result (A : Type) :=
| Ok (a : A)
| Failed (e : fs_error).
Arguments Ok {A} a.
Arguments Failed {A} e.

Section Helpers.

(** [crypto.createHash('md5').update(s).digest('hex')] *)
Variable md5_hex : jsstring -> jsstring.
(** The environment: [CACHE_ENABLED], [CACHE_DIRECTORY], and the behaviour
    of [fs.readFile], [fs.mkdir], [fs.writeFile], [JSON.parse] and
    [JSON.stringify(_, null, 2)]. *)
Variable CACHE_ENABLED : bool.
Variable CACHE_DIRECTORY : jsstring.
Variable readFile : jsstring -> fs_result jsstring.
Variable mkdir : jsstring -> fs_result unit.
Variable writeFile : jsstring -> jsstring -> fs_result unit.
Variable JSON_parse : jsstring -> result jsval.
Variable JSON_stringify : jsval -> result jsstring.

(** [getCacheKey(fileInfo, targetLangCode, promptVer = PROMPT_VERSION)] *)
Definition getCacheKey (fileInfo : fileInfo) (targetLangCode : jsstring)
  (promptVer : option jsstring) : jsstring :=
  let promptVer := default PROMPT_VERSION promptVer in
  let keyString := originalJar fileInfo ++ js "-" ++ originalPathInJar fileInfo
                   ++ js "-" ++ targetLangCode ++ js "-" ++ promptVer in
  md5_hex keyString.

(** [path.join(CACHE_DIRECTORY, `${cacheKey}.json`)] *)
Definition cacheFilePath (cacheKey : jsstring) : jsstring :=
  CACHE_DIRECTORY ++ js "/" ++ cacheKey ++ js ".json".

Definition of_fs {A} (r : fs_result A) : M A :=
  match r with
  | Ok a => ret a
  | Failed e => throw (Error (fs_message e))
  end.

(** The line that [console.warn(`[Cache] Error ${doing} cache for key
    ${cacheKey}:`, error.message)] prints. *)
Definition cache_warning (doing cacheKey errorMessage : jsstring) : event :=
  EvLog (js "[Cache] Error " ++ doing ++ js " cache for key " ++ cacheKey
         ++ js ": " ++ errorMessage).

(** [readFromCache(cacheKey)]; the result [VNull] is JavaScript's [null]. *)
Definition readFromCache (cacheKey : jsstring) : M jsval :=
  if negb CACHE_ENABLED then ret VNull
  else
    match readFile (cacheFilePath cacheKey) with
    | Ok cachedData =>
        match JSON_parse cachedData with
        | Return v => ret v
        | Throw error =>
            run say (cache_warning (js "reading") cacheKey (message error));
            ret VNull
        end
    | Failed error =>
        if decide (code error = Some (js "ENOENT")) then ret VNull
        else
          run say (cache_warning (js "reading") cacheKey (fs_message error));
          ret VNull
    end.

(** [writeToCache(cacheKey, dataToCache)] *)
Definition writeToCache (cacheKey : jsstring) (dataToCache : jsval) : M unit :=
  if negb CACHE_ENABLED then ret tt
  else
    try_catch
      (run of_fs (mkdir CACHE_DIRECTORY);
       do text <- (fun w => (JSON_stringify dataToCache, w));
       of_fs (writeFile (cacheFilePath cacheKey) text))
      (fun error => say (cache_warning (js "writing") cacheKey (message error))).

End Helpers.

End Cache.

(** ** The specification's wording, where it is compared with the code *)

Module SpecReading.

(** "Normalized line endings": every CR LF pair becomes LF. *)
Fixpoint normalize_line_endings (s : jsstring) : jsstring :=
  match s with
  | [] => []
  | c :: rest =>
      match rest with
      | c' :: rest' =>
          if (c =? CR)%N && (c' =? LF)%N then LF :: normalize_line_endings rest'
          else c :: normalize_line_endings rest
      | [] => [c]
      end
  end.

(** "The first unescaped [=]": the position of the first [=] that is not
    preceded by an escaping backslash, [-1] when there is none. *)
Fixpoint first_unescaped_from (escaped : bool) (s : jsstring) : Z :=
  match s with
  | [] => (-1)%Z
  | c :: rest =>
      if escaped then
        let i := first_unescaped_from false rest in
        if (i <? 0)%Z then (-1)%Z else (i + 1)%Z
      else if (c =? EQUALS)%N then 0%Z
      else
        let i := first_unescaped_from (c =? BACKSLASH)%N rest in
        if (i <? 0)%Z then (-1)%Z else (i + 1)%Z
  end.
Definition first_unescaped_equals (line : jsstring) : Z :=
  first_unescaped_from false line.

(** The classification of a line as the specification words it, with the
    separator at the first unescaped [=]. *)
Definition classify_line (line : jsstring) (index : nat) : LocalFormat.parsed_line :=
  let trimmed := trim line in
  if isEmpty trimmed
  then LocalFormat.mk_line LocalFormat.t_empty None None line (index + 1) None
  else if startsWith (js "#") trimmed
  then LocalFormat.mk_line LocalFormat.t_comment None None line (index + 1) None
  else
    let sep := first_unescaped_equals line in
    if (0 <? sep)%Z && negb (isEmpty (trim (substring 0 sep line)))
    then LocalFormat.mk_line LocalFormat.t_kv
           (Some (trimEnd (substring 0 sep line)))
           (Some (substringFrom (sep + 1) line)) line (index + 1) None
    else LocalFormat.mk_line LocalFormat.t_other None None line (index + 1) None.

(** The kinds of remote failure the specification tells apart. *)
Inductive remote_failure :=
| AuthorizationFailure
| QuotaExhaustion
| SoftRateLimiting
| TransientConnectionError
| GenericServiceError.

(** Fatal, in the specification's taxonomy. *)
Definition fatal (f : remote_failure) : bool :=
  match f with
  | AuthorizationFailure | QuotaExhaustion => true
  | _ => false
  end.


End SpecReading.

(** ** Observations on a run and on JSON trees *)

Module Observe.

(** The depths at which requests were sent. *)
Definition request_depths (evs : list event) : list nat :=
  omap (fun e => match e with EvRequest d _ _ => Some d | _ => None end) evs.

(** The batches that ended in a fallback, in order: their texts and their
    prompt indices. *)
Definition fallback_texts (evs : list event) : list jsstring :=
  mjoin (omap (fun e => match e with EvWarnFallback _ t => Some t | _ => None end) evs).
Definition fallback_indices (evs : list event) : list nat :=
  mjoin (omap (fun e => match e with EvWarnFallback p _ => Some p | _ => None end) evs).

(** The value the reply [v] gives to a unit [(promptIndex, originalText)]:
    the reply's own string under the index, the original text otherwise. *)
Definition chosen (v : jsval) (e : nat * jsval) : jsval :=
  if has_own v (toString e.1) && typeof_string (get v (toString e.1))
  then get v (toString e.1) else e.2.

(** Same key, and the same value unless the value is a string to
    translate. *)
Definition kept (p p' : jsstring * jsval) : Prop :=
  p.1 = p'.1 /\ (translatable p.2 = false -> p'.2 = p.2).

(** What [JSON.parse] returns: no [undefined] and no [NaN] anywhere, and no
    object with two properties of the same name. *)
Fixpoint is_json (v : jsval) : bool :=
  match v with
  | VUndef | VNum NaN => false
  | VArr items => forallb is_json items
  | VObj props =>
      bool_decide (NoDup props.*1) && forallb (fun '(_, x) => is_json x) props
  | _ => true
  end.

(** Every number of the tree is finite and is not [-0]: the numbers that
    [JSON.stringify] prints so that [JSON.parse] reads them back. *)
Fixpoint plain_numbers (v : jsval) : bool :=
  match v with
  | VNum (Finite _) => true
  | VNum _ => false
  | VArr items => forallb plain_numbers items
  | VObj props => forallb (fun '(_, x) => plain_numbers x) props
  | _ => true
  end.

(** No object of the tree has a property named [hasOwnProperty]. *)
Fixpoint unshadowed (v : jsval) : bool :=
  match v with
  | VArr items => forallb unshadowed items
  | VObj props =>
      negb (has_own v (js "hasOwnProperty"))
      && forallb (fun '(_, x) => unshadowed x) props
  | _ => true
  end.

(** [text_at v p s]: following the keys and indices of [p] from [v] through
    objects and arrays leads to a property whose name is on the allow-list
    and whose value is the string [s], not blank. *)
Inductive text_at : jsval -> list jsstring -> jsstring -> Prop :=
| text_here v k s :
    typeof_object v = true ->
    assoc k (own_props v) = Some (VStr s) ->
    k ∈ OpenAITranslator.translatableKeys ->
    s <> [] -> trim s <> [] ->
    text_at v [k] s
| text_below v k child p s :
    typeof_object v = true ->
    assoc k (own_props v) = Some child ->
    text_at child p s ->
    text_at v (k :: p) s.

(** [same_but_texts v v']: [v'] is [v] except, possibly, at properties
    whose name is on the allow-list and whose value in [v] is a string that
    is not empty (and not blank). *)
Inductive same_but_texts : jsval -> jsval -> Prop :=
| sbt_same v : same_but_texts v v
| sbt_obj props props' :
    Forall2 (fun p p' =>
               p.1 = p'.1 /\
               (same_but_texts p.2 p'.2 \/
                (p.1 ∈ OpenAITranslator.translatableKeys /\
                 exists s, p.2 = VStr s /\ s <> [] /\ trim s <> [])))
            props props' ->
    same_but_texts (VObj props) (VObj props')
| sbt_arr items items' :
    Forall2 same_but_texts items items' ->
    same_but_texts (VArr items) (VArr items').

(** The relation between a property and what it has become, as
    [same_but_texts] has it for the properties of an object. *)
Definition same_but_text (p p' : jsstring * jsval) : Prop :=
  p.1 = p'.1 /\
  (same_but_texts p.2 p'.2 \/
   (p.1 ∈ OpenAITranslator.translatableKeys /\
    exists s, p.2 = VStr s /\ s <> [] /\ trim s <> [])).

End Observe.

(** ** Concrete inputs used in examples *)

Module Samples.

(** A [.local] file with CR LF and LF line ends, a comment, an empty line,
    a key-value line and a line that starts with [=]. *)
Definition crlf_sample : jsstring :=
  js "# note" ++ [CR; LF] ++ [LF] ++ js "greeting=Hello %s!" ++ [CR; LF] ++ js "=x".

(** [toLowerCase] on the ASCII range. *)
Definition ascii_lower (s : jsstring) : jsstring :=
  map (fun c => if (65 <=? c)%N && (c <=? 90)%N then (c + 32)%N else c) s.

Definition fresh_world : world := mk_world 0 [] [].

(** A reply that parses and carries a property named [hasOwnProperty]. *)
Definition shadowing_reply : jsval :=
  VObj [(js "hasOwnProperty", VStr (js "x")); (js "0", VStr (js "Bonjour"))].

(** A service whose first reply is cut short and whose later replies
    translate the indices 0 and 1. *)
Definition truncated_once (n : nat) : api_outcome :=
  match n with
  | 0 => Malformed (js "Unexpected end of JSON input")
  | _ => Parsed (VObj [(js "0", VStr (js "A")); (js "1", VStr (js "B"))])
  end.

(** A service whose replies never parse, with an error that does not read
    like a truncation. *)
Definition garbled (n : nat) : api_outcome :=
  Malformed (js "Expected ',' or '}' after property value in JSON at position 9").

(** A service whose replies are always cut short. *)
Definition always_truncated (n : nat) : api_outcome :=
  Malformed (js "Unterminated string in JSON at position 4096").

(** A service whose first reply is cut short and that then rejects the
    key. *)
Definition truncated_then_unauthorized (n : nat) : api_outcome :=
  match n with
  | 0 => Malformed (js "Unexpected end of JSON input")
  | _ => Rejected (APIError (Some 401) (js "Incorrect API key provided"))
  end.

(** A flat map with a key named [__proto__], as [JSON.parse] builds it. *)
Definition proto_map : jsval :=
  VObj [(js "__proto__", VStr (js "x")); (js "a", VStr (js "Hello"))].

(** A book page: allow-listed texts at the top, inside an array of pages
    and inside a nested array, and properties that are not texts. *)
Definition book : jsval :=
  VObj [(js "name", VStr (js "Book"));
        (js "icon", VStr (js "minecraft:book"));
        (js "pages",
         VArr [VObj [(js "type", VStr (js "text")); (js "text", VStr (js "Hi"))];
               VArr [VObj [(js "title", VStr (js "Deep"))]];
               VNull]);
        (js "sortnum", VNum (Finite 3));
        (js "text", VStr (js " "))].

(** What [JSON.parse] gives for [{"name":"Book","sortnum":1e999}]: the
    literal overflows to [Infinity]. *)
Definition overflowing_book : jsval :=
  VObj [(js "name", VStr (js "Book")); (js "sortnum", VNum PositiveInfinity)].

Definition book_reply : jsval :=
  VObj [(js "0", VStr (js "Livre")); (js "1", VStr (js "Salut"));
        (js "2", VStr (js "Profond"))].

(** A reply that translates index 0 and gives a number for index 1. *)
Definition partial_reply : jsval :=
  VObj [(js "0", VStr (js "Bonjour")); (js "1", VNum (Finite 3))].

End Samples.

(** ** The coordinator's steps on lang files (indexModTranslator.js, [main]) *)

Module Pipeline.

Import LocalFormat.

Definition MAX_TEXTS_PER_BATCH : nat := 100.

(** An element of [individualLangTextsToTranslate]: [originalKey] is set
    for a text of a JSON file, [originalLineNumber] for a text of a
    [.local] file. *)
Record textInfo := mk_textInfo {
  text : jsstring;
  originalFileIndex : nat;
  originalKey : option jsstring;
  originalLineNumber : option nat
}.

(** A value of [langFileReconstructionData], by its [type]: ['cached'],
    ['error'], ['json'] and ['local'], the last two with their [data],
    [namespace] and [originalPathInJar]. *)
Inductive reconData :=
| recon_cached
| recon_error
| recon_json (data : jsval) (namespace originalPathInJar : jsstring)
| recon_local (data : list parsed_line) (namespace originalPathInJar : jsstring).

(** [Object.entries(v)]; it throws on [null] and [undefined]. *)
Definition Object_entries (v : jsval) : result (list (jsstring * jsval)) :=
  match v with
  | VNull | VUndef =>
      Throw (TypeError (js "Cannot convert undefined or null to object"))
  | _ => Return (own_props v)
  end.

(** The texts pushed by [Object.entries(jsonData).forEach(...)]. *)
Definition json_texts (fileIndex : nat) (entries : list (jsstring * jsval))
  : list textInfo :=
  omap (fun '(key, value) =>
          if translatable value
          then Some (mk_textInfo (string_of value) fileIndex (Some key) None)
          else None) entries.

(** The texts pushed by [parsedLines.forEach(...)]. *)
Definition local_texts (fileIndex : nat) (parsedLines : list parsed_line)
  : list textInfo :=
  omap (fun lineData =>
          if is_text_line lineData
          then Some (mk_textInfo (default [] (value lineData)) fileIndex None
                       (Some (lineNumber lineData)))
          else None) parsedLines.

Section ReadFiles.

Variable JSON_parse : jsstring -> result jsval.

(** The [Cache MISS] branch of the loop over [langFileInfos], for the file
    at [fileIndex]: the value it stores in [langFileReconstructionData] and
    the texts it pushes.  Whatever is thrown inside the [try] leaves the
    file marked ['error'], with no text pushed. *)
Definition read_lang_file (fileInfo : Cache.fileInfo) (fileIndex : nat)
  : reconData * list textInfo :=
  if isEmpty (Cache.content fileInfo) then (recon_error, [])
  else if Cache.isJson fileInfo then
    match JSON_parse (Cache.content fileInfo) with
    | Throw _ => (recon_error, [])
    | Return jsonData =>
        match Object_entries jsonData with
        | Throw _ => (recon_error, [])
        | Return entries =>
            (recon_json jsonData (Cache.namespace fileInfo)
               (Cache.originalPathInJar fileInfo),
             json_texts fileIndex entries)
        end
    end
  else
    let parsedLines := parseLocalContent (Cache.content fileInfo) in
    (recon_local parsedLines (Cache.namespace fileInfo)
       (Cache.originalPathInJar fileInfo),
     local_texts fileIndex parsedLines).

End ReadFiles.

(** *** Batches *)

(** The variables of the loop that cuts the texts into batches. *)
Record batching := mk_batching {
  langTextBatches : list Main.lang_batch;
  currentBatchTexts : list jsstring;
  currentBatchIndices : list nat
}.

(** The body of [individualLangTextsToTranslate.forEach((textInfo, index) => ...)]. *)
Definition push_text (st : batching) (index : nat) (textInfo : textInfo) : batching :=
  let currentBatchTexts := currentBatchTexts st ++ [text textInfo] in
  let currentBatchIndices := currentBatchIndices st ++ [index] in
  if MAX_TEXTS_PER_BATCH <=? length currentBatchTexts
  then mk_batching
         (langTextBatches st ++ [Main.mk_batch currentBatchTexts currentBatchIndices])
         [] []
  else mk_batching (langTextBatches st) currentBatchTexts currentBatchIndices.

(** [langTextBatches] once the loop is over and the batch in progress, if
    it has a text, is pushed. *)
Definition make_batches (individualLangTextsToTranslate : list textInfo)
  : list Main.lang_batch :=
  let st := OpenAITranslator.foldl_i push_text (mk_batching [] [] [])
              individualLangTextsToTranslate in
  if 0 <? length (currentBatchTexts st)
  then langTextBatches st
       ++ [Main.mk_batch (currentBatchTexts st) (currentBatchIndices st)]
  else langTextBatches st.

(** *** Putting the translations back *)

Section WriteBack.

(** [translatedLangTextMap], a [Map] from the index of a text to its
    translation.  It is only read here; the strings in it are those that
    the batch tasks stored. *)
Variable translatedLangTextMap : gmap nat jsstring.

(** [translatedLangTextMap.get(index) ?? textInfo.text] *)
Definition translatedText (index : nat) (textInfo : textInfo) : jsstring :=
  default (text textInfo) (translatedLangTextMap !! index).

(** [l => l.lineNumber === textInfo.originalLineNumber && l.type === 'kv'] *)
Definition is_line (originalLineNumber : option nat) (l : parsed_line) : bool :=
  bool_decide (Some (lineNumber l) = originalLineNumber)
  && bool_decide (type l = t_kv).

(** [data.find(...)] followed by the assignment to the line found: the
    first line that satisfies the test is the one updated. *)
Fixpoint update_found (test : parsed_line -> bool) (t : jsstring)
  (data : list parsed_line) : list parsed_line :=
  match data with
  | [] => []
  | l :: rest =>
      if test l then set_translatedValue t l :: rest
      else l :: update_found test t rest
  end.

(** The body of the [forEach] that maps the translations back to their
    files, on [entry], the value of [langFileReconstructionData] for the
    file of the text ([reconData] in the source); [None] stands for a file
    index that the map does not have.  An empty [originalKey] is falsy: the text is then dropped. *)
Definition put_back (index : nat) (textInfo : textInfo) (entry : option reconData)
  : option reconData :=
  let translatedText := translatedText index textInfo in
  match entry with
  | Some (recon_json data namespace originalPathInJar) =>
      match originalKey textInfo with
      | Some originalKey =>
          if isEmpty originalKey then entry
          else Some (recon_json
                       (OpenAITranslator.assign data originalKey (VStr translatedText))
                       namespace originalPathInJar)
      | None => entry
      end
  | Some (recon_local data namespace originalPathInJar) =>
      Some (recon_local
              (update_found (is_line (originalLineNumber textInfo)) translatedText data)
              namespace originalPathInJar)
  | _ => entry
  end.

(** The loop over [individualLangTextsToTranslate], on
    [langFileReconstructionData] as the list of its values by file index. *)
Definition put_back_all (individualLangTextsToTranslate : list textInfo)
  (langFileReconstructionData : list reconData) : list reconData :=
  OpenAITranslator.foldl_i
    (fun recon index textInfo =>
       match put_back index textInfo (recon !! originalFileIndex textInfo) with
       | Some reconData => <[originalFileIndex textInfo := reconData]> recon
       | None => recon
       end)
    langFileReconstructionData individualLangTextsToTranslate.

(** *** What the loop comes to for one file *)

(** The lines of a [.local] file whose texts start at index [base]: every
    text line has the translation stored under the index of its text, or
    its own value when none is stored. *)
Definition translated_lines (base : nat) (data : list parsed_line) : list parsed_line :=
  imap (fun i line =>
          if is_text_line line
          then set_translatedValue
                 (default (default [] (value line))
                    (translatedLangTextMap !! (base + line_rank data i))) line
          else line) data.

(** The properties of a JSON file whose texts start at index [base]:
    every string to translate, unless its key is empty, is replaced by the
    translation stored under the index of its text, or kept when none is
    stored. *)
Definition translated_entries (base : nat) (entries : list (jsstring * jsval))
  : list (jsstring * jsval) :=
  imap (fun i p =>
          if translatable p.2 && negb (isEmpty p.1)
          then (p.1, VStr (default (string_of p.2)
                             (translatedLangTextMap !! (base + rank entries.*2 i))))
          else p) entries.

End WriteBack.

End Pipeline.

(** ** [FileSearcher.search] (fileSearcher.js) *)

Module FileSearcher.

(** The directory tree as a search finds it.  For an entry of a directory,
    [RegularFile] is a [Dirent] with [isFile()], [Directory] and
    [Unreadable] are [Dirent]s with [isDirectory()], [OtherEntry] is any
    other kind (a symbolic link, a socket).  For the path a search starts
    from, the node is what [fs.stat] reports.  [Unreadable] is a path on
    which [fs.stat] or [fs.readdir] rejects, with the message of the
    error. *)
Inductive fs_node :=
| RegularFile
| OtherEntry
| Directory (entries : list (jsstring * fs_node))
| Unreadable (message : jsstring).

Definition isFile (node : fs_node) : bool :=
  match node with RegularFile => true | _ => false end.
Definition isDirectory (node : fs_node) : bool :=
  match node with Directory _ | Unreadable _ => true | _ => false end.

(** The lines that the search prints, one constructor for each call of
    [console] in the source. *)
Inductive line :=
| LogStart (folderPath : jsstring)
| LogSearching (currentPath : jsstring)
| WarnNotDirectory (currentPath : jsstring)
| ErrorUnreadable (currentPath message : jsstring)
| LogJsonFound (entryPath : jsstring)
| LogJsonCallbackDone (currentFileName : jsstring)
| ErrorJsonCallback (entryPath : jsstring) (callbackError : exn)
| LogLocalFound (entryPath : jsstring)
| LogLocalCallbackDone (currentFileName : jsstring)
| ErrorLocalCallback (entryPath : jsstring) (callbackError : exn)
| LogFinished (folderPath : jsstring)
| ErrorUnexpected (error : exn).

(** The messages of the argument errors. *)
Definition argument_error : jsstring :=
  [24341; 25968; 12456; 12521; 12540; 58; 32]%N.
Definition must_be_nonempty_string : jsstring :=
  [12399; 31354; 12391; 12394; 12356; 25991; 23383; 21015; 12391; 12354; 12427;
   24517; 35201; 12364; 12354; 12426; 12414; 12377; 12290]%N.
Definition must_be_string : jsstring :=
  [12399; 25991; 23383; 21015; 12391; 12354; 12427; 24517; 35201; 12364; 12354;
   12426; 12414; 12377; 12290]%N.
Definition must_be_function : jsstring :=
  [12399; 38306; 25968; 12391; 12354; 12427; 24517; 35201; 12364; 12354; 12426;
   12414; 12377; 12290]%N.

Section Search.

(** What the callbacks work on: everything but the lines above. *)
Variable S : Type.
(** [path.join] *)
Variable path_join : jsstring -> jsstring -> jsstring.

(** An argument passed for a callback: a function, or any other value. *)
Inductive callback_arg :=
| Function (f : jsstring -> S -> result unit * S)
| NotAFunction (v : jsval).

Record state := mk_state {
  user_state : S;
  printed : list line
}.

Definition print (l : line) (st : state) : state :=
  mk_state (user_state st) (printed st ++ [l]).

(** [try { await callback(entryPath); console.log(...) }
     catch (callbackError) { console.error(...) }] *)
Definition call_guarded (callback : jsstring -> S -> result unit * S)
  (entryPath : jsstring) (done : line) (failed : exn -> line) (st : state)
  : result unit * state :=
  match callback entryPath (user_state st) with
  | (Return _, s) => (Return tt, print done (mk_state s (printed st)))
  | (Throw callbackError, s) =>
      (Return tt, print (failed callbackError) (mk_state s (printed st)))
  end.

(** [for (const dirent of entries) { ... }]: the bodies in order, up to
    the first one that throws. *)
Fixpoint for_entries (body : jsstring -> fs_node -> state -> result unit * state)
  (entries : list (jsstring * fs_node)) (st : state) {struct entries}
  : result unit * state :=
  match entries with
  | [] => (Return tt, st)
  | (name, node) :: rest =>
      match body name node st with
      | (Return _, st') => for_entries body rest st'
      | (Throw e, st') => (Throw e, st')
      end
  end.

Section Names.

Variable jsonFileName localFileName : jsstring.
Variable jsonCallback localCallback : jsstring -> S -> result unit * S.

(** The body of the loop over the entries of [currentPath], with [search]
    for [_recursiveSearch]. *)
Definition visit_entry (search : fs_node -> jsstring -> state -> result unit * state)
  (currentPath : jsstring) (name : jsstring) (dirent : fs_node) (st : state)
  : result unit * state :=
  let entryPath := path_join currentPath name in
  if isFile dirent then
    let currentFileName := name in
    if decide (currentFileName = jsonFileName) then
      call_guarded jsonCallback entryPath (LogJsonCallbackDone currentFileName)
        (ErrorJsonCallback entryPath) (print (LogJsonFound entryPath) st)
    else if decide (currentFileName = localFileName) then
      call_guarded localCallback entryPath (LogLocalCallbackDone currentFileName)
        (ErrorLocalCallback entryPath) (print (LogLocalFound entryPath) st)
    else (Return tt, st)
  else if isDirectory dirent then search dirent entryPath st
  else (Return tt, st).

(** [_recursiveSearch(currentPath)], with the tree found at [currentPath]. *)
Fixpoint _recursiveSearch (node : fs_node) (currentPath : jsstring) (st : state)
  {struct node} : result unit * state :=
  let st := print (LogSearching currentPath) st in
  match node with
  | RegularFile | OtherEntry => (Return tt, print (WarnNotDirectory currentPath) st)
  | Unreadable message => (Return tt, print (ErrorUnreadable currentPath message) st)
  | Directory entries =>
      for_entries (visit_entry _recursiveSearch currentPath) entries st
  end.

End Names.

(** [FileSearcher.search(folderPath, jsonFileName, localFileName,
    jsonCallback, localCallback)], with the tree found at [folderPath]. *)
Definition search (root : fs_node) (folderPath jsonFileName localFileName : jsval)
  (jsonCallback localCallback : callback_arg) (st : state) : result unit * state :=
  match folderPath with
  | VStr folderPath =>
      if isEmpty folderPath
      then (Throw (Error (argument_error ++ js "folderPath" ++ must_be_nonempty_string)),
            st)
      else
  match jsonFileName with
  | VStr jsonFileName =>
  match localFileName with
  | VStr localFileName =>
  match jsonCallback with
  | Function jsonCallback =>
  match localCallback with
  | Function localCallback =>
      let st := print (LogStart folderPath) st in
      match _recursiveSearch jsonFileName localFileName jsonCallback localCallback
              root folderPath st with
      | (Return _, st) => (Return tt, print (LogFinished folderPath) st)
      | (Throw error, st) => (Throw error, print (ErrorUnexpected error) st)
      end
  | NotAFunction _ =>
      (Throw (Error (argument_error ++ js "localCallback" ++ must_be_function)), st)
  end
  | NotAFunction _ =>
      (Throw (Error (argument_error ++ js "jsonCallback" ++ must_be_function)), st)
  end
  | _ => (Throw (Error (argument_error ++ js "localFileName" ++ must_be_string)), st)
  end
  | _ => (Throw (Error (argument_error ++ js "jsonFileName" ++ must_be_string)), st)
  end
  | _ => (Throw (Error (argument_error ++ js "folderPath" ++ must_be_nonempty_string)),
          st)
  end.

(** The files that a search is about, in the order in which it meets
    them: [true] with the path of a file named [jsonFileName], [false]
    with the path of a file named [localFileName] and not [jsonFileName].
    [matching_entry] gives those found at or below one entry of a
    directory, with [below] for the function itself. *)
Definition matching_entry (jsonFileName localFileName : jsstring)
  (below : fs_node -> jsstring -> list (bool * jsstring))
  (currentPath : jsstring) (name : jsstring) (dirent : fs_node)
  : list (bool * jsstring) :=
  match dirent with
  | RegularFile =>
      if decide (name = jsonFileName) then [(true, path_join currentPath name)]
      else if decide (name = localFileName) then [(false, path_join currentPath name)]
      else []
  | Directory _ => below dirent (path_join currentPath name)
  | _ => []
  end.

Fixpoint matching (jsonFileName localFileName : jsstring) (node : fs_node)
  (currentPath : jsstring) {struct node} : list (bool * jsstring) :=
  match node with
  | Directory entries =>
      mjoin (map (fun '(name, dirent) =>
                    matching_entry jsonFileName localFileName
                      (matching jsonFileName localFileName) currentPath name dirent)
               entries)
  | _ => []
  end.

(** The files that the printed lines report as found. *)
Definition found_files (lines : list line) : list (bool * jsstring) :=
  omap (fun l => match l with
                 | LogJsonFound entryPath => Some (true, entryPath)
                 | LogLocalFound entryPath => Some (false, entryPath)
                 | _ => None
                 end) lines.

(** A callback run on a file, its exception dropped. *)
Definition run_callback (jsonCallback localCallback : jsstring -> S -> result unit * S)
  (s : S) (file : bool * jsstring) : S :=
  ((if file.1 then jsonCallback else localCallback) file.2 s).2.

End Search.

Arguments Function {S} f.
Arguments NotAFunction {S} v.
Arguments mk_state {S} user_state printed.
Arguments user_state {S} s.
Arguments printed {S} s.
Arguments print {S} l st.
Arguments call_guarded {S} callback entryPath done failed st.
Arguments for_entries {S} body entries st.
Arguments visit_entry {S} path_join jsonFileName localFileName jsonCallback
  localCallback search currentPath name dirent st.
Arguments _recursiveSearch {S} path_join jsonFileName localFileName jsonCallback
  localCallback node currentPath st.
Arguments search {S} path_join root folderPath jsonFileName localFileName
  jsonCallback localCallback st.
Arguments run_callback {S} jsonCallback localCallback s file.

End FileSearcher.

(** ** Where the texts of a result come from *)

Module Provenance.

(** The service sent the string [s] under the index [p] in its reply to
    one of the calls numbered [first], ..., [last - 1]. *)
Definition replied (remote : nat -> api_outcome) (first last : nat) (p : nat)
  (s : jsstring) : Prop :=
  exists n v, first <= n < last /\ remote n = Parsed v
              /\ has_own v (toString p) = true /\ get v (toString p) = VStr s.

(** The value found by following the keys and indices of [p] from [v]. *)
Fixpoint lookup_path (v : jsval) (p : list jsstring) : option jsval :=
  match p with
  | [] => Some v
  | k :: rest =>
      match assoc k (own_props v) with
      | Some child => lookup_path child rest
      | None => None
      end
  end.

End Provenance.

(** ** More concrete inputs used in examples *)

Module Examples.

Import FileSearcher.

(** [path.join] on a directory path without a trailing separator and a
    file name. *)
Definition join_paths (a b : jsstring) : jsstring := a ++ js "/" ++ b.

(** A tree with lang files at two depths, a directory that cannot be
    read, a symbolic link and a file of another name. *)
Definition mods_tree : fs_node :=
  Directory
    [(js "a", Directory [(js "en_us.json", RegularFile); (js "notes.txt", RegularFile)]);
     (js "locked", Unreadable (js "EACCES: permission denied"));
     (js "en_us.local", RegularFile);
     (js "link", OtherEntry);
     (js "b", Directory [(js "c", Directory [(js "en_us.json", RegularFile)])])].

(** A callback that records the path it is given; on a path that ends in
    [/a/en_us.json] it throws after recording it. *)
Definition recording (tag : jsstring) (entryPath : jsstring) (seen : list jsstring)
  : result unit * list jsstring :=
  if bool_decide (entryPath = js "/mods/a/en_us.json")
  then (Throw (Error (js "DeepL Quota Exceeded")), seen ++ [tag ++ entryPath])
  else (Return tt, seen ++ [tag ++ entryPath]).

End Examples.

(** * Properties *)

(** ** Strings and lines *)

Section StringFacts.

Implicit Types (s p : jsstring) (c : char).

Lemma push_char_not_nil c parts : push_char c parts <> [].
Proof. by destruct parts. Qed.

Lemma split_lines_not_nil s : split_lines s <> [].
Proof.
  destruct s as [|c [|c' rest]]; simpl; try done.
  - by destruct (c =? LF)%N.
  - destruct ((c =? CR)%N && (c' =? LF)%N); [done|].
    destruct (c =? LF)%N; [done|].
    apply push_char_not_nil.
Qed.

Lemma join_push_char sep c parts :
  parts <> [] -> join sep (push_char c parts) = c :: join sep parts.
Proof. destruct parts as [|p [|q rest]]; [done|done|done]. Qed.

Lemma join_cons sep p parts :
  parts <> [] -> join sep (p :: parts) = p ++ sep ++ join sep parts.
Proof. by destruct parts. Qed.

Lemma split_lines_step c c' rest :
  split_lines (c :: c' :: rest) =
  if (c =? CR)%N && (c' =? LF)%N then [] :: split_lines rest
  else if (c =? LF)%N then [] :: split_lines (c' :: rest)
  else push_char c (split_lines (c' :: rest)).
Proof. reflexivity. Qed.

Lemma normalize_step c c' rest :
  SpecReading.normalize_line_endings (c :: c' :: rest) =
  if (c =? CR)%N && (c' =? LF)%N
  then LF :: SpecReading.normalize_line_endings rest
  else c :: SpecReading.normalize_line_endings (c' :: rest).
Proof. reflexivity. Qed.

(** Splitting on line ends and joining with LF normalizes the line ends. *)
Lemma join_split_lines s :
  join [LF] (split_lines s) = SpecReading.normalize_line_endings s.
Proof.
  remember (length s) as n eqn:Hn.
  revert s Hn. induction (lt_wf n) as [n _ IH]. intros s ->.
  destruct s as [|c [|c' rest]]; [done| |].
  - simpl. destruct (c =? LF)%N eqn:E; [|done].
    apply N.eqb_eq in E. by subst.
  - rewrite split_lines_step, normalize_step.
    destruct ((c =? CR)%N && (c' =? LF)%N) eqn:E1.
    + rewrite join_cons by apply split_lines_not_nil.
      simpl. f_equal. eapply IH; [|done]. simpl; lia.
    + destruct (c =? LF)%N eqn:E2.
      * rewrite join_cons by apply split_lines_not_nil.
        apply N.eqb_eq in E2. subst c. cbn [app]. f_equal.
        eapply IH; [|done]. simpl; lia.
      * rewrite join_push_char by apply split_lines_not_nil.
        f_equal. eapply IH; [|done]. simpl; lia.
Qed.

End StringFacts.

Section TrimFacts.

Implicit Types (s p : jsstring) (c : char).

Lemma trimStart_nil_iff s : trimStart s = [] <-> blank s.
Proof.
  induction s as [|c s IH]; simpl.
  - split; [constructor|done].
  - destruct (isWhiteSpace c) eqn:E.
    + rewrite IH. split; [by constructor|by inversion 1].
    + split; [done|]. inversion 1; congruence.
Qed.

Lemma blank_trimStart s : blank (trimStart s) <-> blank s.
Proof.
  induction s as [|c s IH]; simpl; [done|].
  destruct (isWhiteSpace c) eqn:E; [|done].
  rewrite IH. split; [by constructor|by inversion 1].
Qed.

Lemma blank_rev s : blank (rev s) <-> blank s.
Proof.
  split; intros H.
  - rewrite <- (rev_involutive s). by apply Forall_rev.
  - by apply Forall_rev.
Qed.

Lemma trimEnd_nil_iff s : trimEnd s = [] <-> blank s.
Proof.
  unfold trimEnd. rewrite <- blank_rev, <- trimStart_nil_iff.
  split; intros H.
  - apply (f_equal (@rev _)) in H. by rewrite rev_involutive in H.
  - by rewrite H.
Qed.

Lemma blank_trimEnd s : blank (trimEnd s) <-> blank s.
Proof. unfold trimEnd. by rewrite blank_rev, blank_trimStart, blank_rev. Qed.

Lemma trim_nil_iff s : trim s = [] <-> blank s.
Proof. unfold trim. by rewrite trimEnd_nil_iff, blank_trimStart. Qed.

Lemma isEmpty_true s : isEmpty s = true <-> s = [].
Proof. by destruct s. Qed.

Lemma isEmpty_false s : isEmpty s = false <-> s <> [].
Proof. by destruct s. Qed.

Lemma trim_trimEnd_nil_iff s : trim (trimEnd s) = [] <-> trim s = [].
Proof. by rewrite !trim_nil_iff, blank_trimEnd. Qed.

(** [trimStart] keeps a suffix and [trimEnd] a prefix. *)
Lemma trimStart_suffix s : exists ws, s = ws ++ trimStart s /\ blank ws.
Proof.
  induction s as [|c s [ws [IH Hb]]]; simpl.
  - exists []. split; [done|constructor].
  - destruct (isWhiteSpace c) eqn:E.
    + exists (c :: ws). split; [simpl; congruence|by constructor].
    + exists []. split; [done|constructor].
Qed.

Lemma trimEnd_prefix s : exists ws, s = trimEnd s ++ ws /\ blank ws.
Proof.
  unfold trimEnd. destruct (trimStart_suffix (rev s)) as [ws [H Hb]].
  exists (rev ws). split; [|by apply blank_rev].
  rewrite <- rev_app_distr, <- H. by rewrite rev_involutive.
Qed.

Lemma trimStart_fixed c s :
  isWhiteSpace c = false -> trimStart (c :: s) = c :: s.
Proof. simpl. by intros ->. Qed.

Lemma trimEnd_fixed_iff s :
  trimEnd s = s <-> (forall c, last s = Some c -> isWhiteSpace c = false).
Proof.
  unfold trimEnd. destruct (rev s) as [|c r] eqn:E.
  - apply (f_equal (@rev _)) in E. rewrite rev_involutive in E. subst s.
    simpl. split; [done|done].
  - apply (f_equal (@rev _)) in E. rewrite rev_involutive in E. subst s.
    simpl rev at 2 3. rewrite last_snoc. simpl trimStart.
    destruct (isWhiteSpace c) eqn:Ec.
    + split.
      * intros H. exfalso.
        destruct (trimStart_suffix r) as [ws [Hr _]].
        apply (f_equal (@length _)) in H.
        rewrite length_app, !length_rev in H. simpl in H.
        apply (f_equal (@length _)) in Hr. rewrite length_app in Hr. lia.
      * intros H. specialize (H c eq_refl). congruence.
    + split; [|done]. intros _ c' [= <-]. done.
Qed.

End TrimFacts.

Section IndexOfFacts.

Implicit Types (s p : jsstring) (c : char).

Lemma indexOf_ge c s : (-1 <= indexOf c s)%Z.
Proof.
  induction s as [|d s IH]; simpl; [lia|].
  destruct (d =? c)%N; [lia|].
  destruct (indexOf c s <? 0)%Z eqn:E; [lia|]. apply Z.ltb_ge in E. lia.
Qed.

(** [indexOf] finds the first occurrence. *)
Lemma indexOf_found c s i :
  (0 <= i)%Z -> indexOf c s = i ->
  exists pre post, s = pre ++ c :: post /\ (c ∉ pre) /\ length pre = Z.to_nat i.
Proof.
  revert i. induction s as [|d s IH]; simpl; intros i Hi H; [lia|].
  destruct (d =? c)%N eqn:E.
  - apply N.eqb_eq in E. subst. exists [], s. split; [done|].
    split; [apply not_elem_of_nil|done].
  - destruct (indexOf c s <? 0)%Z eqn:E'; [lia|].
    apply Z.ltb_ge in E'.
    destruct (IH (indexOf c s) E' eq_refl) as (pre & post & -> & Hn & Hl).
    exists (d :: pre), post. split; [done|]. split.
    + apply not_elem_of_cons. split; [|done].
      apply N.eqb_neq in E. congruence.
    + simpl. rewrite Hl. lia.
Qed.

Lemma indexOf_first c pre post :
  c ∉ pre -> indexOf c (pre ++ c :: post) = Z.of_nat (length pre).
Proof.
  induction pre as [|d pre IH]; simpl; intros H.
  - by rewrite N.eqb_refl.
  - apply not_elem_of_cons in H as [Hd H].
    destruct (d =? c)%N eqn:E; [apply N.eqb_eq in E; congruence|].
    rewrite IH by done.
    destruct (Z.of_nat (length pre) <? 0)%Z eqn:E'; [apply Z.ltb_lt in E'; lia|lia].
Qed.

Lemma indexOf_none c s : c ∉ s -> indexOf c s = (-1)%Z.
Proof.
  induction s as [|d s IH]; simpl; intros H; [done|].
  apply not_elem_of_cons in H as [Hd H].
  destruct (d =? c)%N eqn:E; [apply N.eqb_eq in E; congruence|].
  by rewrite IH.
Qed.

Lemma first_occurrence_unique c pre post pre' post' :
  pre ++ c :: post = pre' ++ c :: post' -> c ∉ pre -> c ∉ pre' ->
  pre = pre' /\ post = post'.
Proof.
  revert pre'. induction pre as [|d pre IH]; intros [|d' pre']; simpl; intros H H1 H2.
  - by inversion H.
  - inversion H; subst. exfalso. apply H2. by left.
  - inversion H; subst. exfalso. apply H1. by left.
  - inversion H; subst.
    apply not_elem_of_cons in H1 as [_ H1]. apply not_elem_of_cons in H2 as [_ H2].
    destruct (IH pre' H4 H1 H2) as [-> ->]. done.
Qed.

Lemma substring_prefix pre c post :
  substring 0 (Z.of_nat (length pre)) (pre ++ c :: post) = pre.
Proof.
  unfold substring. change (Z.to_nat 0) with 0.
  rewrite Nat2Z.id, Nat.sub_0_r, drop_0. apply take_app_length.
Qed.

Lemma substringFrom_suffix pre c post :
  substringFrom (Z.of_nat (length pre) + 1) (pre ++ c :: post) = post.
Proof.
  unfold substringFrom.
  replace (Z.to_nat (Z.of_nat (length pre) + 1)) with (length pre + 1) by lia.
  rewrite <- drop_drop, drop_app_length. done.
Qed.

End IndexOfFacts.

(** ** [.local] files *)

Section LocalFacts.

Import LocalFormat.

Implicit Types (line s : jsstring) (p : parsed_line).

Lemma startsWith_hash s : startsWith (js "#") s = true <-> head s = Some HASH.
Proof.
  change (js "#") with [HASH].
  destruct s as [|c s]; cbn [startsWith head]; [done|].
  rewrite andb_true_r, N.eqb_eq.
  split; [by intros <-|by intros [= ->]].
Qed.

Lemma parse_line_kind line i :
  let p := parse_line line i in
  originalLine p = line /\ lineNumber p = i + 1 /\ translatedValue p = None
  /\ line_kind line p.
Proof.
  unfold parse_line, line_kind.
  destruct (isEmpty (trim line)) eqn:Ee.
  { apply isEmpty_true in Ee. simpl. repeat split; auto. }
  apply isEmpty_false in Ee.
  destruct (startsWith (js "#") (trim line)) eqn:Eh.
  { apply startsWith_hash in Eh. simpl. repeat split; auto 10. }
  assert (head (trim line) <> Some HASH) as Hh.
  { intros H. apply startsWith_hash in H. congruence. }
  destruct (0 <? indexOf EQUALS line)%Z eqn:Es.
  - apply Z.ltb_lt in Es.
    destruct (indexOf_found EQUALS line (indexOf EQUALS line))
      as (pre & post & Hl & Hn & Hlen); [lia|done|].
    assert (indexOf EQUALS line = Z.of_nat (length pre)) as Hi by lia.
    clear Hlen. subst line. rewrite Hi in *.
    rewrite substring_prefix, substringFrom_suffix.
    destruct (isEmpty (trim (trimEnd pre))) eqn:Ek; simpl.
    + rewrite isEmpty_true, trim_trimEnd_nil_iff in Ek.
      repeat split; auto. right; right; right. repeat split; auto.
      intros pre' post' Hl' Hn'.
      by destruct (first_occurrence_unique _ _ _ _ _ Hl' Hn Hn') as [<- _].
    + rewrite isEmpty_false, trim_trimEnd_nil_iff in Ek.
      repeat split; auto. right; right; left. repeat split; auto.
      exists pre, post. repeat split; auto.
      intros ->. simpl in Es. lia.
  - apply Z.ltb_ge in Es. simpl. repeat split; auto.
    right; right; right. repeat split; auto.
    intros pre post Hl Hn.
    rewrite Hl, indexOf_first in Es by done.
    destruct pre; [done|simpl in Es; lia].
Qed.

Lemma parseLocalContent_lookup s i line :
  split_lines s !! i = Some line ->
  parseLocalContent s !! i = Some (parse_line line i).
Proof.
  intros H. unfold parseLocalContent. by rewrite list_lookup_imap, H.
Qed.

Lemma elem_of_parseLocalContent s p :
  p ∈ parseLocalContent s ->
  exists i line, split_lines s !! i = Some line /\ p = parse_line line i.
Proof.
  intros H. apply list_elem_of_lookup in H as [i H].
  unfold parseLocalContent in H. rewrite list_lookup_imap in H.
  destruct (split_lines s !! i) as [line|] eqn:E; [|done].
  simpl in H. injection H as <-. eauto.
Qed.

(** Writing a parsed line back gives the line again, except that the white
    space between a key and its [=] is gone. *)
Lemma reconstruct_parse_line line i :
  reconstruct_item (parse_line line i) = line
  \/ exists pre post,
       line = pre ++ EQUALS :: post /\ (EQUALS ∉ pre)
       /\ type (parse_line line i) = t_kv
       /\ key (parse_line line i) = Some (trimEnd pre)
       /\ reconstruct_item (parse_line line i) = trimEnd pre ++ EQUALS :: post.
Proof.
  destruct (parse_line_kind line i) as (Ho & _ & Ht & Hk).
  unfold reconstruct_item.
  destruct Hk as [(_ & -> & _)|[(_ & _ & -> & _)|[Hkv|(_ & _ & _ & -> & _)]]];
    try (left; by destruct (decide _)).
  destruct Hkv as (_ & _ & pre & post & Hl & Hn & _ & _ & Hty & Hkey & Hval).
  right. exists pre, post. rewrite Hty, Hkey, Hval, Ht.
  destruct (decide _); [|done]. done.
Qed.

End LocalFacts.

Section LocalClaims.

Import LocalFormat.

Lemma elem_of_extract_local_texts (parsed : list parsed_line) (t : Main.local_text) :
  t ∈ Main.extract_local_texts parsed <->
  exists p, p ∈ parsed /\ type p = t_kv /\ value p = Some (Main.text t)
            /\ trim (Main.text t) <> []
            /\ lineNumber p = Main.originalLineNumber t.
Proof.
  unfold Main.extract_local_texts. rewrite list_elem_of_omap.
  split.
  - intros (p & Hp & H). exists p. split; [done|].
    destruct (type p); try done.
    destruct (value p) as [v|]; [|done].
    destruct (isEmpty (trim v)) eqn:E; [done|].
    apply isEmpty_false in E. simpl in H. injection H as <-. done.
  - intros (p & Hp & Ht & Hv & Hn & Hl). exists p. split; [done|].
    rewrite Ht, Hv. apply isEmpty_false in Hn. rewrite Hn. simpl.
    rewrite Hl. by destruct t.
Qed.

(** C7, as the code has it: [parseLocalContent] turns every line of its
    input, split at CR LF and at LF, into exactly one entry that keeps the
    line and its 1-based number, and that is blank if the line trims to
    nothing, a comment if the trimmed line starts with [#], key-value if
    the first [=] of the line (escapes are not interpreted) comes after a
    prefix that is not blank, with the key that prefix without its trailing
    white space and the value all that follows the [=], and passthrough
    otherwise; the coordinator extracts exactly the key-value entries whose
    value is not blank, each with its line number. *)
Theorem parseLocalContent_classifies (s : jsstring) (i : nat) (line : jsstring) :
  split_lines s !! i = Some line ->
  length (parseLocalContent s) = length (split_lines s)
  /\ (exists p, parseLocalContent s !! i = Some p
        /\ originalLine p = line /\ lineNumber p = i + 1
        /\ translatedValue p = None /\ line_kind line p)
  /\ (forall t, t ∈ Main.extract_local_texts (parseLocalContent s) <->
        exists p, p ∈ parseLocalContent s /\ type p = t_kv
          /\ value p = Some (Main.text t) /\ trim (Main.text t) <> []
          /\ lineNumber p = Main.originalLineNumber t).
Proof.
  intros Hline. split; [|split].
  - unfold parseLocalContent. apply length_imap.
  - exists (parse_line line i). split; [by apply parseLocalContent_lookup|].
    apply parse_line_kind.
  - intros t. apply elem_of_extract_local_texts.
Qed.

Lemma parseLocalContent_classifies_witness :
  exists p, parseLocalContent (js "greeting=Hello %s!") !! 0 = Some p
    /\ type p = t_kv /\ key p = Some (js "greeting")
    /\ value p = Some (js "Hello %s!") /\ lineNumber p = 1.
Proof.
  destruct (parseLocalContent_classifies (js "greeting=Hello %s!") 0
              (js "greeting=Hello %s!") eq_refl) as (_ & (p & Hp & _) & _).
  exists p. split; [exact Hp|].
  vm_compute in Hp. injection Hp as <-. repeat split; reflexivity.
Defined.

(** C7 as worded fails: the code cuts at the first [=] even after a
    backslash, where the first unescaped [=] comes later. *)
Lemma first_unescaped_equals_counterexample :
  key (parse_line (js "a\=b=c") 0) = Some (js "a\")
  /\ key (SpecReading.classify_line (js "a\=b=c") 0) = Some (js "a\=b")
  /\ parseLocalContent (js "a\=b=c")
     <> imap (fun i l => SpecReading.classify_line l i) (split_lines (js "a\=b=c")).
Proof. split; [reflexivity|]. split; [reflexivity|]. vm_compute. discriminate. Qed.

Lemma not_elem_of_trimEnd c (pre : jsstring) : c ∉ pre -> c ∉ trimEnd pre.
Proof.
  intros H Hin. apply H.
  destruct (trimEnd_prefix pre) as (ws & Hpre & _).
  rewrite Hpre. apply elem_of_app. by left.
Qed.

(** C1, as the code has it: reconstructing what was parsed, nothing
    translated, gives the input with its line ends normalized to LF,
    provided every key-value line has its key directly before the [=]
    (trailing white space of a key is dropped by the parser). *)
Theorem reconstruct_parse_roundtrip (s : jsstring) :
  (forall p k, p ∈ parseLocalContent s -> type p = t_kv -> key p = Some k ->
     exists post, originalLine p = k ++ EQUALS :: post) ->
  reconstructLocal (parseLocalContent s) = SpecReading.normalize_line_endings s.
Proof.
  intros Htidy. unfold reconstructLocal. rewrite <- join_split_lines. f_equal.
  apply list_eq. intros i. rewrite list_lookup_fmap.
  destruct (split_lines s !! i) as [line|] eqn:Hline.
  - rewrite (parseLocalContent_lookup _ _ _ Hline). simpl. f_equal.
    destruct (reconstruct_parse_line line i)
      as [H|(pre & post & Hl & Hn & Hty & Hkey & Hrec)]; [done|].
    rewrite Hrec.
    destruct (Htidy (parse_line line i) (trimEnd pre)) as [post' Ho]; [|done|done|].
    { apply list_elem_of_lookup. exists i. by apply parseLocalContent_lookup. }
    destruct (parse_line_kind line i) as (Horig & _). rewrite Horig in Ho.
    rewrite Hl in Ho.
    destruct (first_occurrence_unique _ _ _ _ _ Ho Hn) as [Hpre _].
    { by apply not_elem_of_trimEnd. }
    rewrite Hl. by rewrite <- Hpre.
  - unfold parseLocalContent. rewrite list_lookup_imap, Hline. done.
Qed.

Lemma reconstruct_parse_roundtrip_witness :
  reconstructLocal (parseLocalContent Samples.crlf_sample)
  = js "# note" ++ [LF] ++ [LF] ++ js "greeting=Hello %s!" ++ [LF] ++ js "=x".
Proof.
  rewrite (reconstruct_parse_roundtrip Samples.crlf_sample); [reflexivity|].
  intros p k Hp Hty Hk.
  apply elem_of_parseLocalContent in Hp as (i & line & Hline & ->).
  vm_compute in Hline.
  destruct i as [|[|[|[|i]]]]; try discriminate;
    injection Hline as <-; vm_compute in Hty; try discriminate.
  vm_compute in Hk. injection Hk as <-.
  exists (js "Hello %s!"). reflexivity.
Defined.

(** C1 as worded fails: white space between a key and its [=] does not
    come back. *)
Lemma roundtrip_counterexample :
  reconstructLocal (parseLocalContent (js "a =b")) = js "a=b"
  /\ reconstructLocal (parseLocalContent (js "a =b"))
     <> SpecReading.normalize_line_endings (js "a =b").
Proof. split; [reflexivity|]. vm_compute. discriminate. Qed.

End LocalClaims.

(** ** [execLOCAL] of the OpenAI translator *)

Section ExecLocal.

Import OpenAITranslator.

(** [#parseLocal] never gives a line a [value] property: it stores the
    parsed value under [v]. *)
Lemma parseLocal_line_value (l : jsstring) (i : nat) :
  value (parseLocal_line l i) = None.
Proof.
  unfold parseLocal_line.
  repeat match goal with |- context [if ?b then _ else _] => destruct b end;
    reflexivity.
Qed.

Lemma parseLocal_line_v (l : jsstring) (i : nat) :
  type (parseLocal_line l i) = t_kv -> is_Some (v (parseLocal_line l i)).
Proof.
  unfold parseLocal_line.
  repeat match goal with |- context [if ?b then _ else _] => destruct b end;
    simpl; try discriminate; eauto.
Qed.

Lemma wanted_parseLocal (localContent : jsstring) (p : nat * short_line) :
  p ∈ imap pair (parseLocal localContent) -> wanted p.2 = false.
Proof.
  intros H. apply list_elem_of_lookup in H as [i H].
  rewrite list_lookup_imap in H. unfold parseLocal in H.
  rewrite list_lookup_imap in H.
  destruct (split_lines localContent !! i) as [line|]; [|done].
  simpl in H. injection H as <-. simpl.
  unfold wanted. rewrite parseLocal_line_value. by destruct (type _).
Qed.

Lemma elem_of_parseLocal (localContent : jsstring) (item : short_line) :
  item ∈ parseLocal localContent ->
  exists i line, item = parseLocal_line line i.
Proof.
  intros H. apply list_elem_of_lookup in H as [i H].
  unfold parseLocal in H. rewrite list_lookup_imap in H.
  destruct (split_lines localContent !! i) as [line|]; [|done].
  injection H as <-. eauto.
Qed.

(** C6: [execLOCAL] returns its input and touches nothing (no request is
    sent, nothing is printed), for no parsed line has a [value] property:
    [#parseLocal] keeps the value of a key-value line under [v]. *)
Theorem execLOCAL_identity (remote : nat -> api_outcome)
  (toLowerCase : jsstring -> jsstring) (localContent : jsstring) (w : world) :
  execLOCAL remote toLowerCase localContent w = (Return localContent, w)
  /\ forall item, item ∈ parseLocal localContent ->
        value item = None /\ (type item = t_kv -> is_Some (v item)).
Proof.
  split.
  - unfold execLOCAL.
    assert (filter (fun p : nat * short_line => wanted p.2)
              (imap pair (parseLocal localContent)) = []) as ->; [|done].
    apply elem_of_nil_inv. intros p Hp.
    apply list_elem_of_filter in Hp as [Hw Hp].
    apply wanted_parseLocal in Hp. by rewrite Hp in Hw.
  - intros item (i & line & ->)%elem_of_parseLocal.
    split; [apply parseLocal_line_value|apply parseLocal_line_v].
Qed.

End ExecLocal.

Lemma execLOCAL_identity_witness :
  OpenAITranslator.execLOCAL (fun _ => Parsed Samples.book_reply) Samples.ascii_lower
    (js "greeting=Hello %s!") Samples.fresh_world
  = (Return (js "greeting=Hello %s!"), Samples.fresh_world)
  /\ OpenAITranslator.value (OpenAITranslator.parseLocal_line (js "greeting=Hello %s!") 0)
     = None
  /\ OpenAITranslator.v (OpenAITranslator.parseLocal_line (js "greeting=Hello %s!") 0)
     = Some (js "Hello %s!").
Proof.
  destruct (execLOCAL_identity (fun _ => Parsed Samples.book_reply)
              Samples.ascii_lower (js "greeting=Hello %s!") Samples.fresh_world)
    as [Hid Hval].
  split; [exact Hid|].
  destruct (Hval (OpenAITranslator.parseLocal_line (js "greeting=Hello %s!") 0))
    as [Hnone _].
  { vm_compute. by left. }
  split; [exact Hnone|reflexivity].
Defined.

(** ** The cache helpers *)

Section CacheFacts.

Import Cache.

Variable md5_hex : jsstring -> jsstring.
Variable CACHE_ENABLED : bool.
Variable CACHE_DIRECTORY : jsstring.
Variable readFile : jsstring -> fs_result jsstring.
Variable mkdir : jsstring -> fs_result unit.
Variable writeFile : jsstring -> jsstring -> fs_result unit.
Variable JSON_parse : jsstring -> result jsval.
Variable JSON_stringify : jsval -> result jsstring.

(** C10: the cache key depends on nothing but the archive, the entry path,
    the target language and the prompt version; a lookup that cannot read
    or cannot parse its file answers [null]; a store never throws: when
    making the directory, printing the data or writing the file fails, it
    prints one warning, with the key and the message of the error, and
    returns; when nothing fails, or the cache is off, it prints nothing. *)
Theorem cache_key_deterministic_and_io_non_fatal :
  (forall f1 f2 lang1 lang2 ver1 ver2,
     originalJar f1 = originalJar f2 ->
     originalPathInJar f1 = originalPathInJar f2 ->
     lang1 = lang2 -> ver1 = ver2 ->
     getCacheKey md5_hex f1 lang1 ver1 = getCacheKey md5_hex f2 lang2 ver2)
  /\ (forall cacheKey w,
        (exists e, readFile (cacheFilePath CACHE_DIRECTORY cacheKey) = Failed e)
        \/ (exists text e, readFile (cacheFilePath CACHE_DIRECTORY cacheKey) = Ok text
                           /\ JSON_parse text = Throw e) ->
        (readFromCache CACHE_ENABLED CACHE_DIRECTORY readFile JSON_parse cacheKey w).1
        = Return VNull)
  /\ (forall cacheKey dataToCache w,
        let r := writeToCache CACHE_ENABLED CACHE_DIRECTORY mkdir writeFile
                   JSON_stringify cacheKey dataToCache w in
        let warned errorMessage :=
          emit (cache_warning (js "writing") cacheKey errorMessage) w in
        r.1 = Return tt
        /\ r.2 = if CACHE_ENABLED then
                   match mkdir CACHE_DIRECTORY with
                   | Failed e => warned (fs_message e)
                   | Ok _ =>
                       match JSON_stringify dataToCache with
                       | Throw e => warned (message e)
                       | Return text =>
                           match writeFile (cacheFilePath CACHE_DIRECTORY cacheKey)
                                   text with
                           | Failed e => warned (fs_message e)
                           | Ok _ => w
                           end
                       end
                   end
                 else w).
Proof.
  split; [|split].
  - intros f1 f2 lang1 lang2 ver1 ver2 Hj Hp -> ->.
    unfold getCacheKey. by rewrite Hj, Hp.
  - intros cacheKey w H. unfold readFromCache.
    destruct CACHE_ENABLED; [|done]. simpl.
    destruct H as [[e ->]|(text & e & -> & ->)].
    + destruct (decide _); reflexivity.
    + reflexivity.
  - intros cacheKey dataToCache w. cbv zeta. unfold writeToCache.
    destruct CACHE_ENABLED; [|done]. simpl.
    unfold try_catch, bind, of_fs, ret, throw, say.
    destruct (mkdir CACHE_DIRECTORY); cbn; [|done].
    destruct (JSON_stringify dataToCache); cbn; [|done].
    destruct (writeFile _ _) as [[]|]; done.
Qed.

End CacheFacts.

Lemma cache_io_non_fatal_witness :
  (Cache.readFromCache true (js ".translation_cache_v3")
     (fun _ => Cache.Failed (Cache.mk_fs_error (Some (js "EACCES")) (js "permission denied")))
     (fun _ => Throw (Error (js "Unexpected end of JSON input")))
     (js "0123") Samples.fresh_world).1 = Return VNull
  /\ Cache.writeToCache true (js ".translation_cache_v3")
       (fun _ => Cache.Ok tt)
       (fun _ _ => Cache.Failed
                     (Cache.mk_fs_error (Some (js "ENOSPC")) (js "no space left on device")))
       (fun _ => Return []) (js "0123") VNull Samples.fresh_world
     = (Return tt,
        emit (EvLog (js "[Cache] Error writing cache for key 0123: no space left on device"))
          Samples.fresh_world).
Proof.
  destruct (cache_key_deterministic_and_io_non_fatal (fun s => s) true
              (js ".translation_cache_v3")
              (fun _ => Cache.Failed (Cache.mk_fs_error (Some (js "EACCES")) (js "permission denied")))
              (fun _ => Cache.Ok tt)
              (fun _ _ => Cache.Failed
                            (Cache.mk_fs_error (Some (js "ENOSPC")) (js "no space left on device")))
              (fun _ => Throw (Error (js "Unexpected end of JSON input")))
              (fun _ => Return [])) as (_ & Hread & Hwrite).
  split.
  - apply Hread. left. eexists. reflexivity.
  - destruct (Hwrite (js "0123") VNull Samples.fresh_world) as [H1 H2].
    apply injective_projections; [exact H1|exact H2].
Defined.

(** ** [Map]s *)

Section MapFacts.

Implicit Types (m : jsmap) (k : nat) (x : jsval) (es : list (nat * jsval)).

Lemma map_get_map_set k k' x m :
  map_get k (map_set k' x m) = if decide (k = k') then Some x else map_get k m.
Proof.
  induction m as [|[k0 v0] m IH]; simpl.
  - destruct (decide (k = k')); done.
  - destruct (decide (k' = k0)) as [->|Hne]; simpl.
    + destruct (decide (k = k0)); done.
    + destruct (decide (k = k0)) as [->|Hne'].
      * destruct (decide (k0 = k')); [congruence|done].
      * done.
Qed.

Lemma map_set_keys k x m :
  (map_set k x m).*1 = if decide (k ∈ m.*1) then m.*1 else m.*1 ++ [k].
Proof.
  induction m as [|[k0 v0] m IH]; [done|].
  cbn [map_set]. destruct (decide (k = k0)) as [->|Hne].
  - clear IH. rewrite !fmap_cons. cbn [fst].
    destruct (decide (k0 ∈ k0 :: m.*1)) as [_|H]; [done|].
    exfalso. apply H. by left.
  - rewrite !fmap_cons, IH. cbn [fst]. clear IH.
    destruct (decide (k ∈ m.*1)) as [Hin|Hin];
      destruct (decide (k ∈ k0 :: m.*1)) as [H|H]; try done.
    + exfalso. apply H. by right.
    + apply elem_of_cons in H as [?|?]; done.
Qed.

Lemma map_set_NoDup k x m : NoDup m.*1 -> NoDup (map_set k x m).*1.
Proof.
  intros H. rewrite map_set_keys. destruct (decide _); [done|].
  apply NoDup_app. split; [done|]. split; [|apply NoDup_singleton].
  intros y Hy Hy'. apply list_elem_of_singleton in Hy'. by subst.
Qed.

Lemma map_keys_map_set k x m : map_keys (map_set k x m) = {[k]} ∪ map_keys m.
Proof.
  unfold map_keys. rewrite map_set_keys. destruct (decide _) as [H|H].
  - apply set_eq. intros y. rewrite elem_of_union, elem_of_singleton, !elem_of_list_to_set.
    split; [by right|]. intros [->|?]; done.
  - rewrite list_to_set_app_L. simpl. set_solver.
Qed.

(** A run of [set]s, as [new Map(entries)] and the fallback loop do. *)
Lemma set_all_NoDup es m :
  NoDup m.*1 -> NoDup (foldl (fun m e => map_set e.1 e.2 m) m es).*1.
Proof.
  revert m. induction es as [|e es IH]; simpl; intros m H; [done|].
  apply IH. by apply map_set_NoDup.
Qed.

Lemma set_all_keys es m :
  map_keys (foldl (fun m e => map_set e.1 e.2 m) m es)
  = map_keys m ∪ list_to_set es.*1.
Proof.
  revert m. induction es as [|e es IH]; simpl; intros m.
  - set_solver.
  - rewrite IH, map_keys_map_set. set_solver.
Qed.

Lemma set_all_get_other es m k :
  k ∉ es.*1 ->
  map_get k (foldl (fun m e => map_set e.1 e.2 m) m es) = map_get k m.
Proof.
  revert m. induction es as [|e es IH]; simpl; intros m H; [done|].
  apply not_elem_of_cons in H as [Hne H].
  rewrite IH by done. rewrite map_get_map_set. by destruct (decide _).
Qed.

Lemma set_all_get es m k x :
  NoDup es.*1 -> (k, x) ∈ es ->
  map_get k (foldl (fun m e => map_set e.1 e.2 m) m es) = Some x.
Proof.
  revert m. induction es as [|e es IH]; simpl; intros m Hnd Hin.
  - by apply elem_of_nil in Hin.
  - apply NoDup_cons in Hnd as [Hfresh Hnd].
    apply elem_of_cons in Hin as [<-|Hin].
    + rewrite set_all_get_other by done. simpl.
      rewrite map_get_map_set. by destruct (decide _).
    + by apply IH.
Qed.

Lemma map_get_None_keys m k : map_get k m = None <-> k ∉ m.*1.
Proof.
  induction m as [|[k0 v0] m IH]; simpl.
  - split; [intros _; apply not_elem_of_nil|done].
  - destruct (decide (k = k0)) as [->|Hne].
    + split; [done|]. intros H. exfalso. apply H. by left.
    + rewrite IH. rewrite not_elem_of_cons. naive_solver.
Qed.

Lemma map_get_elem_of m k x : NoDup m.*1 -> (k, x) ∈ m <-> map_get k m = Some x.
Proof.
  induction m as [|[k0 v0] m IH]; simpl; intros Hnd.
  - split; [by intros ?%elem_of_nil|done].
  - apply NoDup_cons in Hnd as [Hfresh Hnd].
    destruct (decide (k = k0)) as [->|Hne].
    + split.
      * intros [H|H]%elem_of_cons; [by injection H as ->|].
        exfalso. apply Hfresh. apply list_elem_of_fmap. by exists (k0, x).
      * intros [= ->]. by left.
    + rewrite <- IH by done. rewrite elem_of_cons. naive_solver.
Qed.

(** [new Map([...first, ...second])]: the entries of [second], and those
    of [first] that [second] does not replace. *)
Lemma map_of_entries_app_get (first second : jsmap) k :
  NoDup first.*1 -> NoDup second.*1 ->
  map_get k (map_of_entries (first ++ second))
  = match map_get k second with
    | Some x => Some x
    | None => map_get k first
    end.
Proof.
  intros H1 H2. unfold map_of_entries. rewrite foldl_app.
  destruct (map_get k second) as [x|] eqn:E.
  - apply set_all_get; [done|]. by apply map_get_elem_of.
  - apply map_get_None_keys in E. rewrite set_all_get_other by done.
    destruct (map_get k first) as [x|] eqn:E1.
    + apply set_all_get; [done|]. by apply map_get_elem_of.
    + apply map_get_None_keys in E1. by rewrite set_all_get_other.
Qed.

Lemma map_of_entries_NoDup es : NoDup (map_of_entries es).*1.
Proof. apply set_all_NoDup. constructor. Qed.

Lemma map_of_entries_keys es : map_keys (map_of_entries es) = list_to_set es.*1.
Proof. unfold map_of_entries. rewrite set_all_keys. set_solver. Qed.

End MapFacts.

(** ** Batch translation *)

Section BatchFacts.

Import OpenAITranslator.

Variable remote : nat -> api_outcome.
Variable toLowerCase : jsstring -> jsstring.

#[local] Abbreviation translateBatchInternal := (translateBatchInternal remote toLowerCase).
#[local] Abbreviation can_split := (can_split toLowerCase).

(** The function, one call unfolded. *)
Lemma translateBatchInternal_step texts promptIndices depth w :
  texts <> [] ->
  translateBatchInternal texts promptIndices depth w =
  let w0 := request (EvRequest depth promptIndices texts) w in
  match remote (calls w) with
  | Rejected error => on_error texts promptIndices depth [] error w0
  | NoContent =>
      on_error texts promptIndices depth []
        (Error (js "OpenAI response content is empty.")) w0
  | Malformed msg =>
      if can_split texts depth msg then
        match translateBatchInternal (take (midPoint texts) texts)
                (take (midPoint texts) promptIndices) (depth + 1)
                (emit (EvWarnSplit (length texts) (depth + 1)) w0) with
        | (Throw e, w1) => on_error texts promptIndices depth [] e w1
        | (Return firstHalfResults, w1) =>
            match translateBatchInternal (drop (midPoint texts) texts)
                    (drop (midPoint texts) promptIndices) (depth + 1) w1 with
            | (Throw e, w2) => on_error texts promptIndices depth [] e w2
            | (Return secondHalfResults, w2) =>
                (Return (map_of_entries (firstHalfResults ++ secondHalfResults)), w2)
            end
        end
      else
        on_error texts promptIndices depth []
          (Error (parse_failure_message depth msg))
          (emit (EvErrorParse (length texts) depth) w0)
  | Parsed translatedJson =>
      match fill_results translatedJson (batch_entries promptIndices texts) [] [] with
      | (resultsMap, warnings, None) =>
          (Return resultsMap, fold_left (fun w e => emit e w) warnings w0)
      | (resultsMap, warnings, Some e) =>
          on_error texts promptIndices depth resultsMap e
            (fold_left (fun w e => emit e w) warnings w0)
      end
  end.
Proof.
  intros Hne. destruct texts as [|t texts]; [done|]. clear Hne.
  simp translateBatchInternal.
  destruct (remote (calls w)) as [error| |msg|v]; simp translateBatchInternal.
  - done.
  - done.
  - cbv zeta. destruct (inspect (can_split (t :: texts) depth msg)) as [b Hb].
    match goal with
    | |- _ = (if _ then ?a else ?a') =>
        transitivity (if b then a else a'); [|by rewrite Hb]
    end.
    destruct b; simp translateBatchInternal; [|done].
    destruct (translateBatchInternal (take _ _) _ _ _) as [[m1|e1] w1];
      simp translateBatchInternal; [|done].
    destruct (translateBatchInternal (drop _ _) _ _ _) as [[m2|e2] w2];
      simp translateBatchInternal; done.
  - cbv zeta.
    destruct (fill_results v _ [] []) as [[m warnings] [e|]];
      simp translateBatchInternal; done.
Qed.

Lemma batch_entries_keys promptIndices texts :
  (batch_entries promptIndices texts).*1 = promptIndices.
Proof.
  apply list_eq. intros i. unfold batch_entries.
  rewrite list_lookup_fmap, list_lookup_imap.
  by destruct (promptIndices !! i).
Qed.

Lemma batch_entries_lookup promptIndices texts i p t :
  promptIndices !! i = Some p -> texts !! i = Some t ->
  batch_entries promptIndices texts !! i = Some (p, VStr t).
Proof.
  intros Hp Ht. unfold batch_entries. rewrite list_lookup_imap, Hp, Ht. done.
Qed.

(** The fallback loop gives every unit its original text. *)
Lemma set_originals_get promptIndices texts m i p t :
  NoDup promptIndices ->
  promptIndices !! i = Some p -> texts !! i = Some t ->
  map_get p (set_originals (batch_entries promptIndices texts) m) = Some (VStr t).
Proof.
  intros Hnd Hp Ht. apply set_all_get.
  - by rewrite batch_entries_keys.
  - apply list_elem_of_lookup. exists i. by apply batch_entries_lookup.
Qed.

Lemma set_originals_keys promptIndices texts :
  map_keys (set_originals (batch_entries promptIndices texts) [])
  = list_to_set promptIndices.
Proof.
  unfold set_originals. rewrite set_all_keys, batch_entries_keys.
  unfold map_keys. simpl. set_solver.
Qed.

Lemma on_error_recoverable texts promptIndices depth m error w :
  has_status error 401 = false -> has_status error 429 = false ->
  on_error texts promptIndices depth m error w
  = (Return (set_originals (batch_entries promptIndices texts) m),
     emit (EvWarnFallback promptIndices texts)
       (emit (EvErrorApi (length texts) depth (message error)) w)).
Proof. intros H1 H2. unfold on_error. by rewrite H1, H2. Qed.

Lemma midPoint_bounds texts :
  1 < length texts -> 0 < midPoint texts < length texts.
Proof.
  unfold midPoint. intros H.
  pose proof (Nat.div_mod_eq (length texts + 1) 2) as E.
  pose proof (Nat.mod_upper_bound (length texts + 1) 2). lia.
Qed.

(** [midPoint] is the length halved, rounded up. *)
Lemma midPoint_ceil texts :
  2 * midPoint texts = length texts \/ 2 * midPoint texts = length texts + 1.
Proof.
  unfold midPoint.
  pose proof (Nat.div_mod_eq (length texts + 1) 2) as E.
  pose proof (Nat.mod_upper_bound (length texts + 1) 2). lia.
Qed.

Lemma can_split_iff texts depth msg :
  can_split texts depth msg = true <->
  1 < length texts /\ depth < MAX_SPLIT_DEPTH /\ looks_truncated toLowerCase msg = true.
Proof.
  unfold can_split. rewrite !andb_true_iff, !Nat.ltb_lt. tauto.
Qed.

Lemma request_depths_app evs1 evs2 :
  Observe.request_depths (evs1 ++ evs2)
  = Observe.request_depths evs1 ++ Observe.request_depths evs2.
Proof. unfold Observe.request_depths. apply omap_app. Qed.

Lemma fallback_texts_app evs1 evs2 :
  Observe.fallback_texts (evs1 ++ evs2)
  = Observe.fallback_texts evs1 ++ Observe.fallback_texts evs2.
Proof. unfold Observe.fallback_texts. by rewrite omap_app, join_app. Qed.

Lemma fallback_indices_app evs1 evs2 :
  Observe.fallback_indices (evs1 ++ evs2)
  = Observe.fallback_indices evs1 ++ Observe.fallback_indices evs2.
Proof. unfold Observe.fallback_indices. by rewrite omap_app, join_app. Qed.


(** Whatever the replies, a result map has one entry per key. *)
Lemma fill_results_NoDup v entries m warnings :
  NoDup m.*1 -> NoDup (fill_results v entries m warnings).1.1.*1.
Proof.
  revert m warnings. induction entries as [|[p orig] entries IH];
    intros m warnings Hnd; cbn [fill_results]; [done|].
  destruct (call_hasOwnProperty v (toString p)) as [present|e]; [|done].
  destruct (present && typeof_string (get v (toString p))).
  - apply IH. by apply map_set_NoDup.
  - destruct orig; try done. apply IH. by apply map_set_NoDup.
Qed.

Lemma on_error_NoDup texts promptIndices depth m error w M w' :
  NoDup m.*1 ->
  on_error texts promptIndices depth m error w = (Return M, w') -> NoDup M.*1.
Proof.
  intros Hnd. unfold on_error.
  destruct (has_status error 401); [done|].
  destruct (has_status error 429); [done|].
  intros [= <- _]. by apply set_all_NoDup.
Qed.

Lemma translateBatchInternal_NoDup texts promptIndices depth w M w' :
  translateBatchInternal texts promptIndices depth w = (Return M, w') ->
  NoDup M.*1.
Proof.
  destruct texts as [|t texts].
  { simp translateBatchInternal. intros [= <- _]. constructor. }
  rewrite translateBatchInternal_step by done. cbv zeta.
  destruct (remote (calls w)) as [error| |msg|v].
  - apply on_error_NoDup. constructor.
  - apply on_error_NoDup. constructor.
  - destruct (can_split _ _ _).
    + destruct (translateBatchInternal (take _ _) _ _ _) as [[m1|e1] w1].
      * destruct (translateBatchInternal (drop _ _) _ _ _) as [[m2|e2] w2].
        -- intros [= <- _]. apply map_of_entries_NoDup.
        -- apply on_error_NoDup. constructor.
      * apply on_error_NoDup. constructor.
    + apply on_error_NoDup. constructor.
  - pose proof (fill_results_NoDup v (batch_entries promptIndices (t :: texts))
                  [] [] (NoDup_nil_2 (A:=nat))) as Hnd.
    destruct (fill_results _ _ _ _) as [[m warnings] [e|]]; simpl in Hnd.
    + by apply on_error_NoDup.
    + by intros [= <- _].
Qed.

(** *** C2: a reply that does not parse *)

(** C2, as the code has it: when the reply does not parse, the batch is
    halved at [ceil(n/2)] and each half retried one level deeper exactly
    when it has more than one unit, the depth is below the maximum and the
    parse error reads like a truncation; when both halves return, the
    result is the merge of their maps.  In every other case the call sends
    nothing more, returns a map that gives every unit its original text,
    and prints the fallback warning. *)
Theorem malformed_reply_handling texts promptIndices depth w msg :
  texts <> [] ->
  remote (calls w) = Malformed msg ->
  let w0 := request (EvRequest depth promptIndices texts) w in
  (can_split texts depth msg = true <->
     1 < length texts /\ depth < MAX_SPLIT_DEPTH
     /\ looks_truncated toLowerCase msg = true)
  /\ (2 * midPoint texts = length texts \/ 2 * midPoint texts = length texts + 1)
  /\ (can_split texts depth msg = true ->
      forall m1 w1 m2 w2,
        translateBatchInternal (take (midPoint texts) texts)
          (take (midPoint texts) promptIndices) (depth + 1)
          (emit (EvWarnSplit (length texts) (depth + 1)) w0) = (Return m1, w1) ->
        translateBatchInternal (drop (midPoint texts) texts)
          (drop (midPoint texts) promptIndices) (depth + 1) w1 = (Return m2, w2) ->
        translateBatchInternal texts promptIndices depth w
        = (Return (map_of_entries (m1 ++ m2)), w2)
        /\ forall k, map_get k (map_of_entries (m1 ++ m2))
                     = match map_get k m2 with
                       | Some x => Some x
                       | None => map_get k m1
                       end)
  /\ (can_split texts depth msg = false ->
      exists M w',
        translateBatchInternal texts promptIndices depth w = (Return M, w')
        /\ calls w' = S (calls w)
        /\ EvWarnFallback promptIndices texts ∈ console w'
        /\ map_keys M = list_to_set promptIndices
        /\ (NoDup promptIndices ->
            forall i p t, promptIndices !! i = Some p -> texts !! i = Some t ->
                          map_get p M = Some (VStr t))).
Proof.
  intros Hne Hrem w0. split; [apply can_split_iff|]. split; [apply midPoint_ceil|].
  split.
  - intros Hsplit m1 w1 m2 w2 H1 H2. split.
    + rewrite translateBatchInternal_step by done. cbv zeta.
      rewrite Hrem, Hsplit. fold w0. by rewrite H1, H2.
    + intros k. apply map_of_entries_app_get.
      * by apply translateBatchInternal_NoDup in H1.
      * by apply translateBatchInternal_NoDup in H2.
  - intros Hsplit.
    rewrite translateBatchInternal_step by done. cbv zeta.
    rewrite Hrem, Hsplit. rewrite on_error_recoverable by done.
    eexists _, _. split; [reflexivity|]. split; [done|]. split.
    + simpl. apply elem_of_app. right. by apply list_elem_of_singleton.
    + split; [apply set_originals_keys|].
      intros Hnd i p t Hp Ht. by eapply set_originals_get.
Qed.


(** *** C4: bisection ends and loses nothing *)

Lemma bisection_invariant :
  (forall n, exists msg, remote n = Malformed msg) ->
  forall fuel depth texts promptIndices w,
    MAX_SPLIT_DEPTH - depth <= fuel ->
    length promptIndices = length texts ->
    exists M w' evs,
      translateBatchInternal texts promptIndices depth w = (Return M, w')
      /\ console w' = console w ++ evs
      /\ Forall (fun d => depth <= d <= Nat.max depth MAX_SPLIT_DEPTH)
               (Observe.request_depths evs)
      /\ Observe.fallback_texts evs = texts
      /\ Observe.fallback_indices evs = promptIndices
      /\ map_keys M = list_to_set promptIndices.
Proof.
  intros Hmal fuel. induction fuel as [|fuel IH];
    intros depth texts promptIndices w Hfuel Hlen.
  all: destruct texts as [|t texts];
    [ destruct promptIndices; [|done];
      exists [], w, []; simp translateBatchInternal;
      split; [done|]; split; [by rewrite app_nil_r|];
      split; [constructor|done] | ].
  all: rewrite translateBatchInternal_step by done; cbv zeta.
  all: destruct (Hmal (calls w)) as [msg ->].
  all: destruct (can_split (t :: texts) depth msg) eqn:Hsplit.
  - apply can_split_iff in Hsplit as (_ & Hd & _). lia.
  - rewrite on_error_recoverable by done.
    eexists _, _, _. split; [reflexivity|]. split.
    { simpl. rewrite <- !app_assoc. reflexivity. }
    split; [|split; [|split]].
    + simpl. constructor; [lia|constructor].
    + unfold Observe.fallback_texts. simpl. by rewrite app_nil_r.
    + unfold Observe.fallback_indices. simpl. by rewrite app_nil_r.
    + apply set_originals_keys.
  - apply can_split_iff in Hsplit as (Hlen1 & Hd & _).
    set (mid := midPoint (t :: texts)).
    destruct (IH (depth + 1) (take mid (t :: texts)) (take mid promptIndices)
                (emit (EvWarnSplit (length (t :: texts)) (depth + 1))
                   (request (EvRequest depth promptIndices (t :: texts)) w)))
      as (m1 & w1 & evs1 & -> & Hc1 & Hd1 & Ht1 & Hi1 & Hk1);
      [lia|by rewrite !length_take, Hlen|].
    destruct (IH (depth + 1) (drop mid (t :: texts)) (drop mid promptIndices) w1)
      as (m2 & w2 & evs2 & -> & Hc2 & Hd2 & Ht2 & Hi2 & Hk2);
      [lia|by rewrite !length_drop, Hlen|].
    eexists _, w2, _. split; [reflexivity|]. split.
    { rewrite Hc2, Hc1. simpl. rewrite <- !app_assoc. reflexivity. }
    split; [|split; [|split]].
    + simpl. constructor; [lia|].
      change (omap _ (evs1 ++ evs2)) with (Observe.request_depths (evs1 ++ evs2)).
      rewrite request_depths_app.
      apply Forall_app. split.
      * eapply Forall_impl; [exact Hd1|]. simpl. intros d ?. lia.
      * eapply Forall_impl; [exact Hd2|]. simpl. intros d ?. lia.
    + simpl.
      match goal with
      | |- Observe.fallback_texts (?a :: ?b :: ?l) = _ =>
          change (Observe.fallback_texts (a :: b :: l))
            with (Observe.fallback_texts l)
      end.
      rewrite fallback_texts_app, Ht1, Ht2. apply take_drop.
    + simpl.
      match goal with
      | |- Observe.fallback_indices (?a :: ?b :: ?l) = _ =>
          change (Observe.fallback_indices (a :: b :: l))
            with (Observe.fallback_indices l)
      end.
      rewrite fallback_indices_app, Hi1, Hi2. apply take_drop.
    + rewrite map_of_entries_keys, fmap_app, list_to_set_app_L.
      fold (map_keys m1). fold (map_keys m2). rewrite Hk1, Hk2.
      rewrite <- list_to_set_app_L. by rewrite take_drop.
  - rewrite on_error_recoverable by done.
    eexists _, _, _. split; [reflexivity|]. split.
    { simpl. rewrite <- !app_assoc. reflexivity. }
    split; [|split; [|split]].
    + simpl. constructor; [lia|constructor].
    + unfold Observe.fallback_texts. simpl. by rewrite app_nil_r.
    + unfold Observe.fallback_indices. simpl. by rewrite app_nil_r.
    + apply set_originals_keys.
Qed.

(** C4: when every reply is malformed, a call at depth 0 returns; every
    request it sends is at a depth of at most [MAX_SPLIT_DEPTH]; the
    batches that end in a fallback are, put end to end, the batch it was
    given, texts and prompt indices alike (so they hold as many units); and
    the keys of the map returned are the prompt indices of the batch. *)
Theorem bisection_terminates_and_conserves texts promptIndices w :
  (forall n, exists msg, remote n = Malformed msg) ->
  length promptIndices = length texts ->
  exists M w' evs,
    translateBatchInternal texts promptIndices 0 w = (Return M, w')
    /\ console w' = console w ++ evs
    /\ Forall (fun d => d <= MAX_SPLIT_DEPTH) (Observe.request_depths evs)
    /\ Observe.fallback_texts evs = texts
    /\ Observe.fallback_indices evs = promptIndices
    /\ length (Observe.fallback_texts evs) = length texts
    /\ map_keys M = list_to_set promptIndices.
Proof.
  intros Hmal Hlen.
  destruct (bisection_invariant Hmal MAX_SPLIT_DEPTH 0 texts promptIndices w)
    as (M & w' & evs & H & Hc & Hd & Ht & Hi & Hk); [lia|done|].
  exists M, w', evs. repeat split; try done.
  - eapply Forall_impl; [exact Hd|]. simpl. intros d ?. lia.
  - by rewrite Ht.
Qed.


(** *** The messages on which the coordinator stops *)

Lemma is_fatal_message_authorization :
  Main.is_fatal_message (js "OpenAI Authorization Failed. Check API Key.") = true.
Proof. reflexivity. Qed.

Lemma is_fatal_message_quota :
  Main.is_fatal_message (js "OpenAI Rate Limit or Quota Exceeded.") = true.
Proof. reflexivity. Qed.

(** *** C5: a reply that parses *)

Lemma fill_results_callable v entries m warnings :
  (forall key, call_hasOwnProperty v key = Return (has_own v key)) ->
  Forall (fun e => exists t, e.2 = VStr t) entries ->
  exists warnings',
    fill_results v entries m warnings
    = (foldl (fun m e => map_set e.1 e.2 m) m ((fun e => (e.1, Observe.chosen v e)) <$> entries),
       warnings ++ warnings', None)
    /\ forall p, EvWarnMissing p ∈ warnings' <->
                 exists x, (p, x) ∈ entries
                           /\ (has_own v (toString p)
                               && typeof_string (get v (toString p))) = false.
Proof.
  intros Hcall. revert m warnings.
  induction entries as [|[p orig] entries IH]; intros m warnings Hall.
  - exists []. split; [by rewrite app_nil_r|].
    intros p. split; [by intros ?%elem_of_nil|].
    by intros (x & ?%elem_of_nil & _).
  - apply Forall_cons in Hall as [[t Ht] Hall]. simpl in Ht. subst orig.
    cbn [fill_results]. rewrite Hcall.
    destruct (has_own v (toString p) && typeof_string (get v (toString p))) eqn:E.
    + destruct (IH (map_set p (get v (toString p)) m) warnings Hall)
        as (warnings' & -> & Hw).
      exists warnings'. split.
      * assert (Observe.chosen v (p, VStr t) = get v (toString p)) as Hc
          by (unfold Observe.chosen; cbn [fst snd]; by rewrite E).
        rewrite fmap_cons. cbn [foldl fst snd]. by rewrite Hc.
      * intros q. rewrite Hw. split.
        -- intros (x & Hx & Hq). exists x. split; [by right|done].
        -- intros (x & Hx & Hq). apply elem_of_cons in Hx as [[= -> ->]|Hx].
           ++ congruence.
           ++ eauto.
    + destruct (IH (map_set p (VStr t) m) (warnings ++ [EvWarnMissing p]) Hall)
        as (warnings' & -> & Hw).
      exists (EvWarnMissing p :: warnings'). split.
      * assert (Observe.chosen v (p, VStr t) = VStr t) as Hc
          by (unfold Observe.chosen; cbn [fst snd]; by rewrite E).
        rewrite fmap_cons. cbn [foldl fst snd]. rewrite Hc.
        by rewrite <- app_assoc.
      * intros q. rewrite elem_of_cons, Hw. split.
        -- intros [[= ->]|(x & Hx & Hq)].
           ++ exists (VStr t). split; [by left|done].
           ++ exists x. split; [by right|done].
        -- intros (x & Hx & Hq). apply elem_of_cons in Hx as [[= -> ->]|Hx].
           ++ by left.
           ++ right. eauto.
Qed.


Lemma emit_all_console warnings w :
  console (fold_left (fun w e => emit e w) warnings w) = console w ++ warnings.
Proof.
  revert w. induction warnings as [|e warnings IH]; intros w; simpl.
  - by rewrite app_nil_r.
  - rewrite IH. simpl. by rewrite <- app_assoc.
Qed.

Lemma batch_entries_strings promptIndices texts :
  length promptIndices = length texts ->
  Forall (fun e => exists t, e.2 = VStr t) (batch_entries promptIndices texts).
Proof.
  intros Hlen. apply Forall_lookup. intros i [p x] H.
  unfold batch_entries in H. rewrite list_lookup_imap in H.
  destruct (promptIndices !! i) as [q|] eqn:Hq; [|done].
  apply lookup_lt_Some in Hq. rewrite Hlen in Hq.
  apply lookup_lt_is_Some in Hq as [t Ht].
  simpl in H. rewrite Ht in H. injection H as <- <-. by exists t.
Qed.

(** The claim of C5 holds for every reply on which [hasOwnProperty] can be
    called: any value but [null] that has no property of that name. *)
Lemma parsed_reply_mapping texts promptIndices depth w v :
  texts <> [] ->
  remote (calls w) = Parsed v ->
  (forall key, call_hasOwnProperty v key = Return (has_own v key)) ->
  NoDup promptIndices -> length promptIndices = length texts ->
  exists M w' warnings,
    translateBatchInternal texts promptIndices depth w = (Return M, w')
    /\ console w' = console w ++ EvRequest depth promptIndices texts :: warnings
    /\ map_keys M = list_to_set promptIndices
    /\ forall i p t, promptIndices !! i = Some p -> texts !! i = Some t ->
         if has_own v (toString p) && typeof_string (get v (toString p))
         then map_get p M = Some (get v (toString p))
         else map_get p M = Some (VStr t) /\ EvWarnMissing p ∈ warnings.
Proof.
  intros Hne Hrem Hcall Hnd Hlen.
  rewrite translateBatchInternal_step by done. cbv zeta. rewrite Hrem.
  destruct (fill_results_callable v (batch_entries promptIndices texts) [] []
              Hcall (batch_entries_strings _ _ Hlen)) as (warnings & -> & Hw).
  eexists _, _, warnings. split; [reflexivity|]. split.
  { rewrite emit_all_console. simpl. by rewrite <- app_assoc. }
  assert (((fun e : nat * jsval => (e.1, Observe.chosen v e))
             <$> batch_entries promptIndices texts).*1 = promptIndices) as Hkeys.
  { rewrite <- list_fmap_compose. rewrite <- (batch_entries_keys promptIndices texts) at 2.
    by apply list_fmap_ext. }
  split.
  { rewrite set_all_keys, Hkeys. unfold map_keys. simpl. set_solver. }
  intros i p t Hp Ht.
  assert (map_get p (foldl (fun m e => map_set e.1 e.2 m) []
                       ((fun e : nat * jsval => (e.1, Observe.chosen v e))
                          <$> batch_entries promptIndices texts))
          = Some (Observe.chosen v (p, VStr t))) as Hget.
  { apply set_all_get; [by rewrite Hkeys|].
    apply list_elem_of_fmap. exists (p, VStr t). split; [done|].
    apply list_elem_of_lookup. exists i. by apply batch_entries_lookup. }
  rewrite Hget. unfold Observe.chosen. cbn [fst snd].
  destruct (has_own v (toString p) && typeof_string (get v (toString p))) eqn:E;
    [done|]. split; [done|].
  apply Hw. exists (VStr t). split; [|done].
  apply list_elem_of_lookup. exists i. by apply batch_entries_lookup.
Qed.

End BatchFacts.

(** C5 fails on this input: a reply that parses and has a property named
    [hasOwnProperty] loses its translations.  The index [0] is there with a
    string, and the unit gets its original text all the same. *)
Lemma shadowed_hasOwnProperty_reply :
  has_own Samples.shadowing_reply (js "0") = true
  /\ get Samples.shadowing_reply (js "0") = VStr (js "Bonjour")
  /\ (OpenAITranslator.translateBatchInternal
        (fun _ => Parsed Samples.shadowing_reply) Samples.ascii_lower
        [js "Hello"] [0] 0 Samples.fresh_world).1
     = Return [(0, VStr (js "Hello"))].
Proof. repeat split; reflexivity. Qed.

Lemma parsed_reply_mapping_example :
  exists M w' warnings,
    OpenAITranslator.translateBatchInternal
      (fun _ => Parsed Samples.partial_reply) Samples.ascii_lower
      [js "Hello"; js "World"] [0; 1] 0 Samples.fresh_world = (Return M, w')
    /\ map_get 0 M = Some (VStr (js "Bonjour"))
    /\ map_get 1 M = Some (VStr (js "World"))
    /\ EvWarnMissing 1 ∈ warnings
    /\ console w' = EvRequest 0 [0; 1] [js "Hello"; js "World"] :: warnings.
Proof.
  destruct (parsed_reply_mapping (fun _ => Parsed Samples.partial_reply)
              Samples.ascii_lower [js "Hello"; js "World"] [0; 1] 0
              Samples.fresh_world Samples.partial_reply)
    as (M & w' & warnings & H & Hc & _ & Hm); try done.
  { by repeat constructor; try (intros ?%list_elem_of_singleton)
       || (intros ?%elem_of_nil). }
  exists M, w', warnings. split; [done|].
  pose proof (Hm 0 0 (js "Hello") eq_refl eq_refl) as H0.
  pose proof (Hm 1 1 (js "World") eq_refl eq_refl) as H1.
  vm_compute in H0. vm_compute in H1. destruct H1 as [H1 H1']. done.
Defined.

(** *** Examples, witnesses and counterexamples for the batch claims *)

Lemma malformed_reply_handling_witness :
  exists M w',
    OpenAITranslator.translateBatchInternal Samples.truncated_once
      Samples.ascii_lower [js "Hello"; js "World"] [0; 1] 0 Samples.fresh_world
    = (Return M, w')
    /\ map_get 0 M = Some (VStr (js "A")) /\ map_get 1 M = Some (VStr (js "B"))
    /\ calls w' = 3.
Proof.
  destruct (malformed_reply_handling Samples.truncated_once Samples.ascii_lower
              [js "Hello"; js "World"] [0; 1] 0 Samples.fresh_world
              (js "Unexpected end of JSON input"))
    as (_ & _ & Hsplit & _); [done|reflexivity|].
  edestruct (Hsplit eq_refl) as [H Hget].
  - vm_compute. reflexivity.
  - vm_compute. reflexivity.
  - eexists _, _. split; [exact H|]. repeat split; reflexivity.
Defined.

(** C2 as worded fails: two units, depth 0, a reply that does not parse,
    and yet no split: one request, and the whole batch falls back. *)
Lemma no_split_counterexample :
  1 < length [js "Hello"; js "World"]
  /\ 0 < OpenAITranslator.MAX_SPLIT_DEPTH
  /\ (OpenAITranslator.translateBatchInternal Samples.garbled Samples.ascii_lower
        [js "Hello"; js "World"] [0; 1] 0 Samples.fresh_world).1
     = Return [(0, VStr (js "Hello")); (1, VStr (js "World"))]
  /\ Observe.request_depths
       (console (OpenAITranslator.translateBatchInternal Samples.garbled
                   Samples.ascii_lower [js "Hello"; js "World"] [0; 1] 0
                   Samples.fresh_world).2) = [0]
  /\ EvRequest 1 [0] [js "Hello"]
     ∉ console (OpenAITranslator.translateBatchInternal Samples.garbled
                  Samples.ascii_lower [js "Hello"; js "World"] [0; 1] 0
                  Samples.fresh_world).2.
Proof.
  split; [simpl; lia|]. split; [unfold OpenAITranslator.MAX_SPLIT_DEPTH; lia|].
  split; [reflexivity|]. split; [reflexivity|].
  vm_compute. intros H.
  repeat (apply elem_of_cons in H as [H|H]; [discriminate|]).
  by apply elem_of_nil in H.
Qed.


Lemma bisection_terminates_and_conserves_witness :
  exists M w' evs,
    OpenAITranslator.translateBatchInternal Samples.always_truncated
      Samples.ascii_lower [js "a"; js "b"; js "c"; js "d"; js "e"]
      [0; 1; 2; 3; 4] 0 Samples.fresh_world = (Return M, w')
    /\ console w' = evs
    /\ Forall (fun d => d <= OpenAITranslator.MAX_SPLIT_DEPTH)
             (Observe.request_depths evs)
    /\ Observe.fallback_texts evs = [js "a"; js "b"; js "c"; js "d"; js "e"]
    /\ map_keys M = list_to_set [0; 1; 2; 3; 4].
Proof.
  destruct (bisection_terminates_and_conserves Samples.always_truncated
              Samples.ascii_lower [js "a"; js "b"; js "c"; js "d"; js "e"]
              [0; 1; 2; 3; 4] Samples.fresh_world)
    as (M & w' & evs & H & Hc & Hd & Ht & _ & _ & Hk).
  - intros n. eexists. reflexivity.
  - reflexivity.
  - exists M, w', evs. repeat split; done.
Defined.

(** A fatal error met while a half is retried does not leave the call: the
    enclosing invocation catches it and falls back. *)
Lemma fatal_error_in_a_half_is_caught :
  (OpenAITranslator.translateBatchInternal Samples.truncated_then_unauthorized
     Samples.ascii_lower [js "Hello"; js "World"] [0; 1] 0 Samples.fresh_world).1
  = Return [(0, VStr (js "Hello")); (1, VStr (js "World"))].
Proof. reflexivity. Qed.

(** ** [execJSON] *)

Section ExecJsonFacts.

Import OpenAITranslator. Import Observe.

Implicit Types (props cur : list (jsstring * jsval)) (k : jsstring) (x : jsval).

Lemma kept_refl props : Forall2 kept props props.
Proof. apply Forall_Forall2_diag, Forall_forall. by intros p _. Qed.

Lemma kept_keys props cur : Forall2 kept props cur -> cur.*1 = props.*1.
Proof.
  induction 1 as [|p p' props cur [Hk _] _ IH]; [done|].
  rewrite !fmap_cons. by rewrite IH, Hk.
Qed.

Lemma assoc_is_Some k props : is_Some (assoc k props) <-> k ∈ props.*1.
Proof.
  induction props as [|[k' v] props IH]; simpl.
  - split; [by intros [? ?]|by intros ?%elem_of_nil].
  - destruct (decide (k = k')) as [->|Hne].
    + split; [intros _; by left|eauto].
    + rewrite IH, elem_of_cons. naive_solver.
Qed.

Lemma set_existing_kept props cur k x :
  NoDup props.*1 -> Forall2 kept props cur ->
  (exists v, (k, v) ∈ props /\ translatable v = true) ->
  Forall2 kept props (set_existing k x cur).
Proof.
  intros Hnd H. revert Hnd.
  induction H as [|[k1 v1] [k2 v2] props cur [Hk Hv] H IH]; intros Hnd Hin; [constructor|].
  simpl in Hk, Hv. subst k2. rewrite fmap_cons in Hnd.
  apply NoDup_cons in Hnd as [Hfresh Hnd]. simpl in Hfresh.
  cbn [set_existing]. destruct (decide (k = k1)) as [->|Hne].
  - constructor; [|done]. split; [done|]. simpl.
    destruct Hin as (v & Hv' & Ht).
    apply elem_of_cons in Hv' as [[= ->]|Hv']; [congruence|].
    exfalso. apply Hfresh. apply list_elem_of_fmap. by exists (k1, v).
  - constructor; [by split|]. apply IH; [done|].
    destruct Hin as (v & Hv' & Ht). exists v. split; [|done].
    apply elem_of_cons in Hv' as [[= -> ->]|Hv']; done.
Qed.

Lemma set_prop_kept props cur k x :
  NoDup props.*1 -> Forall2 kept props cur ->
  (exists v, (k, v) ∈ props /\ translatable v = true) ->
  Forall2 kept props (set_prop k x cur).
Proof.
  intros Hnd H Hin. unfold set_prop.
  rewrite bool_decide_eq_true_2; [by apply set_existing_kept|].
  apply assoc_is_Some. rewrite (kept_keys _ _ H).
  destruct Hin as (v & Hv & _). apply list_elem_of_fmap. by exists (k, v).
Qed.

Lemma assoc_Some_elem_of k x props : assoc k props = Some x -> (k, x) ∈ props.
Proof.
  induction props as [|[k' v] props IH]; simpl; [done|].
  destruct (decide (k = k')) as [->|Hne].
  - intros [= ->]. by left.
  - intros H. right. by apply IH.
Qed.

Lemma assign_all_kept_from props cur (steps : list (nat * jsval)) :
  NoDup props.*1 -> Forall2 kept props cur ->
  Forall2 kept props
    (foldl (fun acc e =>
              assign_translated
                (filter (fun key => translatable (get (VObj props) key))
                   (keys (VObj props)))
                acc e.1 e.2) cur steps).
Proof.
  intros Hnd. revert cur.
  induction steps as [|[i t] steps IH]; intros cur H; [done|].
  cbn [foldl]. apply IH. unfold assign_translated. cbn [fst snd].
  destruct (_ !! i) as [k|] eqn:Hk; [|done].
  apply set_prop_kept; [done|done|].
  apply list_elem_of_lookup_2 in Hk.
  apply list_elem_of_filter in Hk as [Ht Hk].
  apply Is_true_true in Ht. unfold get in Ht.
  change (own_props (VObj props)) with props in Ht.
  change (keys (VObj props)) with props.*1 in Hk.
  apply assoc_is_Some in Hk as [v Hv]. rewrite Hv in Ht.
  exists v. split; [by apply assoc_Some_elem_of|done].
Qed.

Lemma assign_all_kept props translatedTexts :
  NoDup props.*1 ->
  Forall2 kept props
    (foldl_i (assign_translated
                (filter (fun key => translatable (get (VObj props) key))
                   (keys (VObj props))))
       props translatedTexts).
Proof.
  intros Hnd. unfold foldl_i. apply assign_all_kept_from; [done|apply kept_refl].
Qed.

(** [execJSON] of the OpenAI translator keeps the keys and the values that
    are not strings to translate, whatever the service replies; what it
    throws, [translateTextsBatch] has thrown. *)
Lemma execJSON_keeps (remote : nat -> api_outcome) (toLowerCase : jsstring -> jsstring)
  props w :
  NoDup props.*1 ->
  match (execJSON remote toLowerCase (VObj props) w).1 with
  | Return out =>
      exists props', out = VObj props' /\ props'.*1 = props.*1
                     /\ Forall2 kept props props'
  | Throw e =>
      exists texts,
        (translateTextsBatch remote toLowerCase texts w).1 = Throw e
  end.
Proof.
  intros Hnd. unfold execJSON. cbn [typeof_object isNull negb orb own_props].
  destruct (get (VObj props) <$> _) as [|t texts] eqn:Hsel.
  { simpl. exists props. split; [done|]. split; [done|apply kept_refl]. }
  unfold bind.
  destruct (translateTextsBatch remote toLowerCase (t :: texts) w)
    as [[translatedTexts|e] w'] eqn:Hb.
  - simpl. eexists. split; [reflexivity|].
    pose proof (assign_all_kept props translatedTexts Hnd) as H.
    split; [by apply kept_keys|done].
  - simpl. exists (t :: texts). by rewrite Hb.
Qed.

End ExecJsonFacts.

(** C8 fails on this input: [execJSON] of the DeepL translator builds its
    result by assignment on an empty object, and an assignment to
    [__proto__] adds no property, so the key is lost.  The OpenAI
    translator, which copies the object first, keeps it. *)
Lemma proto_key_lost :
  keys Samples.proto_map = [js "__proto__"; js "a"]
  /\ (LangTranslate.execJSON (fun _ => LangTranslate.Translated (js "y"))
        Samples.proto_map Samples.fresh_world).1
     = Return (VObj [(js "a", VStr (js "y"))])
  /\ (OpenAITranslator.execJSON
        (fun _ => Parsed (VObj [(js "0", VStr (js "y")); (js "1", VStr (js "y"))]))
        Samples.ascii_lower Samples.proto_map Samples.fresh_world).1
     = Return (VObj [(js "__proto__", VStr (js "y")); (js "a", VStr (js "y"))]).
Proof. repeat split; reflexivity. Qed.

(** ** JSON trees *)

Section TreeFacts.

(** Induction on a value with the hypothesis for every element and every
    property value. *)
Lemma jsval_deep_ind (P : jsval -> Prop) :
  P VUndef -> P VNull -> (forall b, P (VBool b)) -> (forall n, P (VNum n)) ->
  (forall s, P (VStr s)) ->
  (forall items, Forall P items -> P (VArr items)) ->
  (forall props, Forall (fun p => P p.2) props -> P (VObj props)) ->
  forall v, P v.
Proof.
  intros Hu Hn Hb Hz Hs Ha Ho.
  fix IH 1. intros [| |b|n|s|items|props].
  - exact Hu.
  - exact Hn.
  - apply Hb.
  - apply Hz.
  - apply Hs.
  - apply Ha. induction items as [|x items IHl]; constructor.
    + apply IH.
    + exact IHl.
  - apply Ho. induction props as [|[k x] props IHl]; constructor.
    + apply IH.
    + exact IHl.
Qed.

Lemma uint_chars_inj u u' : uint_chars u = uint_chars u' -> u = u'.
Proof.
  revert u'. induction u as [|u IH|u IH|u IH|u IH|u IH|u IH|u IH|u IH|u IH|u IH];
    intros [|u'|u'|u'|u'|u'|u'|u'|u'|u'|u']; simpl; intros H;
    try discriminate; try reflexivity;
    injection H as H; f_equal; by apply IH.
Qed.

Lemma toString_inj i j : toString i = toString j -> i = j.
Proof.
  unfold toString. intros H%uint_chars_inj.
  rewrite <- (DecimalNat.Unsigned.of_to i), <- (DecimalNat.Unsigned.of_to j).
  by rewrite H.
Qed.

Lemma toString_head_digit i c :
  head (toString i) = Some c -> (48 <= c <= 57)%N.
Proof.
  unfold toString. destruct (Nat.to_uint i); simpl; intros [= <-]; lia.
Qed.

Lemma toString_not_translatable i : toString i ∉ OpenAITranslator.translatableKeys.
Proof.
  intros H. unfold OpenAITranslator.translatableKeys in H.
  repeat (apply elem_of_cons in H as [H|H];
          [apply (f_equal head) in H;
           destruct (head (toString i)) as [c|] eqn:E; [|discriminate];
           apply toString_head_digit in E; vm_compute in H;
           injection H as ->; lia|]).
  by apply elem_of_nil in H.
Qed.

(** The properties of an array are its elements under their indices. *)
Lemma assoc_imap_toString (items : list jsval) (n i : nat) :
  assoc (toString (n + i)) (imap (fun j x => (toString (n + j), x)) items)
  = items !! i.
Proof.
  revert n i. induction items as [|x items IH]; intros n i; [done|].
  cbn [imap assoc]. destruct (decide (toString (n + i) = toString (n + 0))) as [E|E].
  - apply toString_inj in E. assert (i = 0) as -> by lia. done.
  - destruct i as [|i]; [done|]. change ((x :: items) !! S i) with (items !! i).
    rewrite <- (IH (S n) i).
    replace (n + S i) with (S n + i) by lia. f_equal.
    apply imap_ext. intros j y _. simpl. f_equal. f_equal. lia.
Qed.

Lemma assoc_imap_toString_inv (items : list jsval) (n : nat) k x :
  assoc k (imap (fun j y => (toString (n + j), y)) items) = Some x ->
  exists i, k = toString (n + i) /\ items !! i = Some x.
Proof.
  revert n. induction items as [|y items IH]; intros n; [done|].
  cbn [imap assoc]. destruct (decide _) as [->|Hne].
  - intros [= ->]. by exists 0.
  - intros H. destruct (IH (S n)) as (i & -> & Hi).
    { erewrite imap_ext; [exact H|]. intros j z _. simpl. f_equal. f_equal. lia. }
    exists (S i). split; [f_equal; lia|done].
Qed.

Lemma assoc_array items k x :
  assoc k (own_props (VArr items)) = Some x <->
  exists i, k = toString i /\ items !! i = Some x.
Proof.
  simpl. split.
  - apply (assoc_imap_toString_inv items 0).
  - intros (i & -> & Hi). rewrite <- Hi. apply (assoc_imap_toString items 0 i).
Qed.

Lemma assoc_elem_of (props : list (jsstring * jsval)) k x :
  NoDup props.*1 -> assoc k props = Some x <-> (k, x) ∈ props.
Proof.
  induction props as [|[k' v] props IH]; simpl; intros Hnd.
  - split; [done|by intros ?%elem_of_nil].
  - apply NoDup_cons in Hnd as [Hfresh Hnd].
    destruct (decide (k = k')) as [->|Hne].
    + split; [intros [= ->]; by left|].
      intros [[= ->]|H]%elem_of_cons; [done|].
      exfalso. apply Hfresh. apply list_elem_of_fmap. by exists (k', x).
    + rewrite IH by done. rewrite elem_of_cons. naive_solver.
Qed.

End TreeFacts.

(** ** [translatePatchouliBookObject] *)

Section ExtractFacts.

Import OpenAITranslator Observe.

Implicit Types (v c : jsval) (p q r : list jsstring) (k : jsstring).

Lemma and_then_Return {A} (r1 r2 : result (list A)) items :
  and_then r1 r2 = Return items <->
  exists l1 l2, r1 = Return l1 /\ r2 = Return l2 /\ items = l1 ++ l2.
Proof.
  unfold and_then. destruct r1 as [l1|e1]; [destruct r2 as [l2|e2]|].
  - split; [intros [= <-]; eauto|]. by intros (? & ? & [= <-] & [= <-] & ->).
  - split; [done|]. by intros (? & ? & _ & ? & _).
  - split; [done|]. by intros (? & ? & ? & _).
Qed.

(** A loop that returns: every body returned, and the items are theirs. *)
Lemma for_each_Return {A} (body : nat -> A -> result (list extracted)) i
  (l : list A) items :
  for_each body i l = Return items ->
  (forall j y, l !! j = Some y -> exists its, body (i + j) y = Return its)
  /\ (forall x, x ∈ items <->
        exists j y its, l !! j = Some y /\ body (i + j) y = Return its /\ x ∈ its).
Proof.
  revert i items. induction l as [|y0 l IH]; intros i items; cbn [for_each].
  - intros [= <-]. split; [done|]. intros x. split; [by intros ?%elem_of_nil|].
    by intros (? & ? & ? & ? & _).
  - intros (l1 & l2 & H1 & H2 & ->)%and_then_Return.
    destruct (IH _ _ H2) as [Hall Hmem]. split.
    + intros [|j] y Hy.
      * injection Hy as <-. rewrite Nat.add_0_r. eauto.
      * replace (i + S j) with (S i + j) by lia. by apply Hall.
    + intros x. rewrite elem_of_app, Hmem. split.
      * intros [Hx|(j & y & its & Hy & Hb & Hx)].
        -- exists 0, y0, l1. rewrite Nat.add_0_r. done.
        -- exists (S j), y, its. replace (i + S j) with (S i + j) by lia. done.
      * intros ([|j] & y & its & Hy & Hb & Hx).
        -- injection Hy as <-. rewrite Nat.add_0_r in Hb.
           rewrite H1 in Hb. injection Hb as <-. by left.
        -- right. exists j, y, its.
           replace (i + S j) with (S i + j) in Hb by lia. done.
Qed.

Lemma for_each_ext {A} (body body' : nat -> A -> result (list extracted)) i
  (l : list A) :
  (forall j y, l !! j = Some y -> body (i + j) y = body' (i + j) y) ->
  for_each body i l = for_each body' i l.
Proof.
  revert i. induction l as [|y0 l IH]; intros i H; cbn [for_each]; [done|].
  f_equal.
  - specialize (H 0 y0 eq_refl). by rewrite Nat.add_0_r in H.
  - apply IH. intros j y Hy. specialize (H (S j) y Hy).
    by replace (i + S j) with (S i + j) in H by lia.
Qed.

Lemma extractStrings_array items p :
  extractStrings (VArr items) p
  = for_each (fun index value => visit extractStrings p (toString index) value)
      0 items.
Proof. reflexivity. Qed.

Lemma extractStrings_object props p :
  extractStrings (VObj props) p
  = if has_own (VObj props) (js "hasOwnProperty")
    then Throw (TypeError (js "obj.hasOwnProperty is not a function"))
    else for_each (fun _ '(key, value) => visit extractStrings p key value) 0 props.
Proof. reflexivity. Qed.

(** Walking the elements of an array value is walking the array. *)
Lemma each_item_array v :
  forall p,
    match v with
    | VArr items =>
        for_each (fun index item => extractStrings item (p ++ [toString index]))
          0 items
        = extractStrings (VArr items) p
    | _ => True
    end.
Proof.
  induction v as [| | | | |items IH|props _] using jsval_deep_ind; try done.
  intros p. rewrite extractStrings_array.
  apply for_each_ext. intros j y Hy. simpl.
  unfold visit.
  rewrite bool_decide_eq_false_2 by apply toString_not_translatable. simpl.
  rewrite Forall_lookup in IH. specialize (IH j y Hy).
  destruct y; try done; by rewrite IH.
Qed.

(** The loop body: an allow-listed, non-blank string is pushed; anything
    else is walked. *)
Lemma visit_eq p k v :
  visit extractStrings p k v
  = if bool_decide (k ∈ translatableKeys) && translatable v
    then Return [mk_extracted (p ++ [k]) (string_of v)]
    else extractStrings v (p ++ [k]).
Proof.
  unfold visit. destruct (_ && _); [done|].
  destruct v; try done. apply (each_item_array (VArr items)).
Qed.

Lemma text_at_nonempty v p s : text_at v p s -> p <> [].
Proof. by destruct 1. Qed.

Lemma text_at_object_like v p s :
  text_at v p s ->
  (exists props, v = VObj props) \/ (exists items, v = VArr items).
Proof.
  intros H.
  assert (typeof_object v = true /\ exists k x, assoc k (own_props v) = Some x)
    as [Ht (k & x & Hk)] by (destruct H; eauto).
  destruct v; try done; eauto.
Qed.

Lemma text_at_not_translatable v p s : text_at v p s -> translatable v = false.
Proof. intros [[props ->]|[items ->]]%text_at_object_like; done. Qed.

Lemma translatable_string v :
  translatable v = true <-> exists s, v = VStr s /\ s <> [] /\ trim s <> [].
Proof.
  destruct v; simpl; try (split; [done|by intros (? & ? & _)]).
  rewrite negb_true_iff, isEmpty_false. split.
  - intros H. exists s. split; [done|]. split; [|done]. by intros ->.
  - by intros (s' & [= <-] & _ & H).
Qed.


Lemma is_json_array items :
  is_json (VArr items) = true <-> Forall (fun y => is_json y = true) items.
Proof.
  cbn [is_json]. rewrite forallb_forall, Forall_forall.
  split; intros H y Hy; apply H; by apply list_elem_of_In.
Qed.

Lemma is_json_object props :
  is_json (VObj props) = true <->
  NoDup props.*1 /\ Forall (fun e => is_json e.2 = true) props.
Proof.
  cbn [is_json]. rewrite andb_true_iff, bool_decide_eq_true, forallb_forall, Forall_forall.
  split; intros [Hnd H]; (split; [done|]).
  - intros [k x] Hx. apply list_elem_of_In in Hx. by apply (H (k, x)).
  - intros [k x] Hx. apply list_elem_of_In in Hx. by apply (H (k, x)).
Qed.

Lemma text_at_array_inv items r s :
  text_at (VArr items) r s ->
  exists i y r', r = toString i :: r' /\ items !! i = Some y /\ text_at y r' s.
Proof.
  inversion 1; subst.
  - match goal with H : assoc _ _ = Some _ |- _ =>
      apply assoc_array in H as (i & -> & _) end.
    match goal with H : _ ∈ translatableKeys |- _ =>
      by apply toString_not_translatable in H end.
  - match goal with H : assoc _ _ = Some _ |- _ =>
      apply assoc_array in H as (i & -> & Hi) end.
    eauto 10.
Qed.

Lemma text_at_object_inv props r s :
  NoDup props.*1 ->
  text_at (VObj props) r s ->
  exists k x, (k, x) ∈ props
    /\ ((r = [k] /\ x = VStr s /\ k ∈ translatableKeys /\ s <> [] /\ trim s <> [])
        \/ (exists r', r = k :: r' /\ text_at x r' s)).
Proof.
  intros Hnd.
  inversion 1; subst.
  - match goal with H : assoc _ _ = Some _ |- _ =>
      apply assoc_elem_of in H; [|done] end.
    eexists _, _. split; [done|]. by left.
  - match goal with H : assoc _ _ = Some _ |- _ =>
      apply assoc_elem_of in H; [|done] end.
    eexists _, _. split; [done|]. right. eauto.
Qed.

(** What [extractStrings] returns: one item for each allow-listed,
    non-blank string at any depth, under the path that leads to it. *)
Lemma extractStrings_spec v :
  forall p items,
    is_json v = true -> extractStrings v p = Return items ->
    forall q s, mk_extracted q s ∈ items <-> exists r, q = p ++ r /\ text_at v r s.
Proof.
  induction v as [| |b0|n0|s0|elements IH|props IH] using jsval_deep_ind;
    intros p items Hjson Hex q s.
  1-5: simpl in Hex; injection Hex as <-;
    (split; [by intros ?%elem_of_nil|]);
    intros (r & _ & [[? [=]]|[? [=]]]%text_at_object_like).
  - (* arrays *)
    apply is_json_array in Hjson.
    rewrite extractStrings_array in Hex.
    rewrite (for_each_ext _
               (fun index value => extractStrings value (p ++ [toString index])))
      in Hex.
    2:{ intros j y _. rewrite visit_eq.
        rewrite bool_decide_eq_false_2 by apply toString_not_translatable.
        reflexivity. }
    apply for_each_Return in Hex as [Hall Hmem]. rewrite Hmem. split.
    + intros (j & y & its & Hy & Hb & Hx). simpl in Hb.
      rewrite Forall_lookup in IH, Hjson.
      apply (IH j y Hy _ _ (Hjson j y Hy) Hb) in Hx as (r & -> & Hr).
      exists (toString j :: r). split; [by rewrite <- app_assoc|].
      eapply text_below; [done| |exact Hr].
      apply assoc_array. eauto.
    + intros (r & -> & (j & y & r' & -> & Hy & Hr)%text_at_array_inv).
      destruct (Hall j y Hy) as [its Hb]. exists j, y, its.
      split; [done|]. split; [done|]. simpl in Hb.
      rewrite Forall_lookup in IH, Hjson.
      apply (IH j y Hy _ _ (Hjson j y Hy) Hb).
      exists r'. split; [by rewrite <- app_assoc|done].
  - (* objects *)
    apply is_json_object in Hjson as [Hnd Hjson].
    rewrite extractStrings_object in Hex.
    destruct (has_own _ _); [done|].
    rewrite (for_each_ext _
               (fun (_ : nat) (e : jsstring * jsval) =>
                  if bool_decide (e.1 ∈ translatableKeys) && translatable e.2
                  then Return [mk_extracted (p ++ [e.1]) (string_of e.2)]
                  else extractStrings e.2 (p ++ [e.1])))
      in Hex.
    2:{ intros j [k x] _. rewrite visit_eq. reflexivity. }
    apply for_each_Return in Hex as [Hall Hmem]. rewrite Hmem. split.
    + intros (j & [k x] & its & Hy & Hb & Hx). simpl in Hb.
      assert (assoc k props = Some x) as Hk.
      { apply assoc_elem_of; [done|]. by eapply list_elem_of_lookup_2. }
      destruct (bool_decide (k ∈ translatableKeys) && translatable x) eqn:E.
      * apply andb_true_iff in E as [Hin Ht]. apply bool_decide_eq_true in Hin.
        apply translatable_string in Ht as (s' & -> & Hs & Hts).
        injection Hb as <-. apply list_elem_of_singleton in Hx.
        injection Hx as -> ->. exists [k]. split; [done|].
        by apply text_here.
      * rewrite Forall_lookup in IH, Hjson.
        apply (IH j (k, x) Hy _ _ (Hjson j (k, x) Hy) Hb) in Hx as (r & -> & Hr).
        exists (k :: r). split; [by rewrite <- app_assoc|].
        by eapply text_below.
    + intros (r & -> & (k & x & Hx & Hr)%text_at_object_inv); [|done].
      apply list_elem_of_lookup in Hx as [j Hj].
      destruct (Hall j (k, x) Hj) as [its Hb]. exists j, (k, x), its.
      split; [done|]. split; [done|]. simpl in Hb.
      destruct Hr as [(-> & -> & Hin & Hs & Hts)|(r' & -> & Hr)].
      * rewrite bool_decide_eq_true_2 in Hb by done.
        assert (translatable (VStr s) = true) as Ht.
        { apply translatable_string. eauto. }
        rewrite Ht in Hb. simpl in Hb. injection Hb as <-.
        by apply list_elem_of_singleton.
      * rewrite (text_at_not_translatable _ _ _ Hr), andb_false_r in Hb.
        rewrite Forall_lookup in IH, Hjson.
        apply (IH j (k, x) Hj _ _ (Hjson j (k, x) Hj) Hb).
        exists r'. split; [by rewrite <- app_assoc|done].
Qed.


Lemma same_but_text_refl (e : jsstring * jsval) : same_but_text e e.
Proof. split; [done|]. left. constructor. Qed.

Lemma sbt_object_inv props c :
  same_but_texts (VObj props) c ->
  exists props', c = VObj props' /\ Forall2 same_but_text props props'.
Proof.
  inversion 1; subst.
  - exists props. split; [done|].
    apply Forall_Forall2_diag, Forall_forall. intros e _. apply same_but_text_refl.
  - eauto.
Qed.

Lemma sbt_array_inv items c :
  same_but_texts (VArr items) c ->
  exists items', c = VArr items' /\ Forall2 same_but_texts items items'.
Proof.
  inversion 1; subst.
  - exists items. split; [done|].
    apply Forall_Forall2_diag, Forall_forall. intros e _. constructor.
  - eauto.
Qed.

Lemma assoc_related props props' k v :
  Forall2 same_but_text props props' -> assoc k props = Some v ->
  exists v', assoc k props' = Some v' /\ same_but_text (k, v) (k, v').
Proof.
  induction 1 as [|[k1 v1] [k2 v2] props props' [Hk Hv] _ IH]; [done|].
  simpl in Hk. subst k2. cbn [assoc].
  destruct (decide (k = k1)) as [->|Hne]; [|done].
  intros [= ->]. exists v2. split; [done|]. by split.
Qed.

Lemma set_existing_related props props' k v x :
  Forall2 same_but_text props props' -> assoc k props = Some v ->
  same_but_text (k, v) (k, x) ->
  Forall2 same_but_text props (set_existing k x props').
Proof.
  intros H Hk Hx. revert Hk.
  induction H as [|[k1 v1] [k2 v2] props props' [Hk' Hv] H IH]; [done|].
  simpl in Hk'. subst k2. cbn [assoc set_existing].
  destruct (decide (k = k1)) as [->|Hne].
  - intros [= ->]. by constructor.
  - intros Hk. constructor; [by split|by apply IH].
Qed.

Lemma set_prop_related props props' k v x :
  Forall2 same_but_text props props' -> assoc k props = Some v ->
  same_but_text (k, v) (k, x) ->
  Forall2 same_but_text props (set_prop k x props').
Proof.
  intros H Hk Hx. unfold set_prop.
  destruct (assoc_related _ _ _ _ H Hk) as (v' & Hk' & _).
  rewrite bool_decide_eq_true_2 by (rewrite Hk'; eauto).
  by eapply set_existing_related.
Qed.

Lemma imap_replace (items : list jsval) i x :
  imap (fun j y => if decide (toString j = toString i) then x else y) items
  = <[i := x]> items.
Proof.
  apply list_eq. intros j. rewrite list_lookup_imap.
  destruct (decide (j = i)) as [->|Hne].
  - destruct (items !! i) as [y|] eqn:E.
    + rewrite list_lookup_insert_eq by (by eapply lookup_lt_Some).
      simpl. by destruct (decide _).
    + rewrite list_insert_ge by (by apply lookup_ge_None). by rewrite E.
  - rewrite list_lookup_insert_ne by done.
    destruct (items !! j); [|done]. simpl.
    destruct (decide _) as [E%toString_inj|]; done.
Qed.

Lemma setValueByPath_step c k k' p x :
  setValueByPath c (k :: k' :: p) x
  = if negb (typeof_object (get c k)) || isNull (get c k) then c
    else assign c k (setValueByPath (get c k) (k' :: p) x).
Proof. reflexivity. Qed.

Lemma sbt_object_like v c :
  same_but_texts v c ->
  (exists props, v = VObj props) \/ (exists items, v = VArr items) ->
  negb (typeof_object c) || isNull c = false.
Proof.
  intros H [[props ->]|[items ->]].
  - by apply sbt_object_inv in H as (? & -> & _).
  - by apply sbt_array_inv in H as (? & -> & _).
Qed.

(** Writing a value at the path of an extracted text changes nothing but
    that text. *)
Lemma setValueByPath_same_but_texts v p s :
  text_at v p s ->
  forall c x, same_but_texts v c -> same_but_texts v (setValueByPath c p x).
Proof.
  induction 1 as [v k s Hty Hk Hin Hs Hts|v k child p s Hty Hk Hchild IH];
    intros c x Hc.
  - (* the text itself *)
    destruct v as [| | | | |items|props]; try done.
    { apply assoc_array in Hk as (i & -> & _).
      by apply toString_not_translatable in Hin. }
    apply sbt_object_inv in Hc as (props' & -> & Hrel).
    cbn [setValueByPath assign]. apply sbt_obj.
    eapply set_prop_related; [done|exact Hk|].
    split; [done|]. right. split; [done|]. eauto.
  - (* a step towards it *)
    destruct p as [|k' p]; [by apply text_at_nonempty in Hchild|].
    rewrite setValueByPath_step.
    destruct v as [| | | | |items|props]; try done.
    + apply sbt_array_inv in Hc as (items' & -> & Hrel).
      apply assoc_array in Hk as (i & -> & Hi).
      destruct (Forall2_lookup_l _ _ _ _ _ Hrel Hi) as (child' & Hi' & Hcc).
      assert (get (VArr items') (toString i) = child') as Hget.
      { unfold get. by rewrite (proj2 (assoc_array items' (toString i) child')) by eauto. }
      rewrite Hget.
      rewrite (sbt_object_like _ _ Hcc (text_at_object_like _ _ _ Hchild)).
      cbn [assign]. rewrite imap_replace. apply sbt_arr.
      rewrite <- (list_insert_id items i child) by done.
      apply Forall2_insert; [done|]. by apply IH.
    + apply sbt_object_inv in Hc as (props' & -> & Hrel).
      destruct (assoc_related _ _ _ _ Hrel Hk) as (child' & Hk' & _ & Hcc).
      simpl in Hcc. destruct Hcc as [Hcc|(_ & s' & -> & _)];
        [|by apply text_at_object_like in Hchild as [[? [=]]|[? [=]]]].
      assert (get (VObj props') k = child') as Hget
        by (unfold get; simpl; by rewrite Hk').
      rewrite Hget.
      rewrite (sbt_object_like _ _ Hcc (text_at_object_like _ _ _ Hchild)).
      cbn [assign]. apply sbt_obj.
      eapply set_prop_related; [done|exact Hk|].
      split; [done|]. left. by apply IH.
Qed.

Lemma plain_numbers_array items :
  plain_numbers (VArr items) = true <-> Forall (fun y => plain_numbers y = true) items.
Proof.
  cbn [plain_numbers]. rewrite forallb_forall, Forall_forall.
  split; intros H y Hy; apply H; by apply list_elem_of_In.
Qed.

Lemma plain_numbers_object props :
  plain_numbers (VObj props) = true <->
  Forall (fun e => plain_numbers e.2 = true) props.
Proof.
  cbn [plain_numbers]. rewrite forallb_forall, Forall_forall.
  split; intros H.
  - intros [k x] Hx. apply list_elem_of_In in Hx. by apply (H (k, x)).
  - intros [k x] Hx. apply list_elem_of_In in Hx. by apply (H (k, x)).
Qed.

(** The copy of a tree that [JSON.parse] gave is the tree, as long as its
    numbers are finite and none is [-0]. *)
Lemma json_clone_id v :
  is_json v = true -> plain_numbers v = true -> json_clone v = v.
Proof.
  induction v as [| |b0|n0|s0|items IH|props IH] using jsval_deep_ind;
    try done; intros Hjson Hplain.
  - by destruct n0.
  - apply is_json_array in Hjson. apply plain_numbers_array in Hplain.
    cbn [json_clone]. f_equal.
    induction items as [|y items IHl]; [done|].
    apply Forall_cons in IH as [IHy IH]. apply Forall_cons in Hjson as [Hy Hjson].
    apply Forall_cons in Hplain as [Hpy Hplain].
    cbn [map]. rewrite IHl by done. f_equal.
    destruct y; try done; by apply IHy.
  - apply is_json_object in Hjson as [_ Hjson].
    apply plain_numbers_object in Hplain. cbn [json_clone]. f_equal.
    induction props as [|[k y] props IHl]; [done|].
    apply Forall_cons in IH as [IHy IH]. apply Forall_cons in Hjson as [Hy Hjson].
    apply Forall_cons in Hplain as [Hpy Hplain].
    simpl in IHy, Hy, Hpy. cbn [omap list_omap]. rewrite IHl by done.
    destruct y; try done; by rewrite (IHy Hy Hpy).
Qed.

(** The copy has, under the key of each child of the tree, the copy of
    that child. *)
Lemma assoc_json_clone v k child :
  is_json v = true ->
  (exists props, v = VObj props) \/ (exists items, v = VArr items) ->
  assoc k (own_props v) = Some child ->
  assoc k (own_props (json_clone v)) = Some (json_clone child)
  /\ is_json child = true.
Proof.
  intros Hjson [[props ->]|[items ->]] Hk.
  - apply is_json_object in Hjson as [_ Hjson]. cbn [json_clone own_props] in *.
    induction props as [|[k0 y] props IH]; [done|].
    apply Forall_cons in Hjson as [Hy Hjson]. simpl in Hy.
    cbn [assoc] in Hk. cbn [omap list_omap].
    assert ((match y with
             | VUndef => None
             | _ => Some (k0, json_clone y)
             end) = Some (k0, json_clone y)) as -> by (by destruct y).
    cbn [assoc]. destruct (decide (k = k0)) as [->|Hne].
    + injection Hk as <-. done.
    + by apply IH.
  - apply is_json_array in Hjson.
    apply assoc_array in Hk as (i & -> & Hi).
    rewrite Forall_lookup in Hjson. pose proof (Hjson i child Hi) as Hchild.
    split; [|done]. cbn [json_clone]. apply assoc_array. exists i. split; [done|].
    change (map ?f items) with (f <$> items).
    rewrite list_lookup_fmap, Hi. simpl. by destruct child.
Qed.

(** A text of the tree is a text of its copy, at the same path. *)
Lemma text_at_json_clone v p s :
  text_at v p s -> is_json v = true -> text_at (json_clone v) p s.
Proof.
  induction 1 as [v k s Hty Hk Hin Hs Hts|v k child p s Hty Hk Hchild IH];
    intros Hjson.
  all: assert ((exists props, v = VObj props) \/ (exists items, v = VArr items)) as Hv
      by (destruct v; try done; eauto).
  all: destruct (assoc_json_clone v k _ Hjson Hv Hk) as [Hk' Hj].
  all: assert (typeof_object (json_clone v) = true) as Hty'
      by (by destruct Hv as [[? ->]|[? ->]]).
  - by apply text_here.
  - eapply text_below; [done|exact Hk'|]. by apply IH.
Qed.

End ExtractFacts.

Section PatchouliFacts.

Import OpenAITranslator Observe.

Variable remote : nat -> api_outcome.
Variable toLowerCase : jsstring -> jsstring.

Lemma on_error_heap texts promptIndices depth m error w :
  heap (on_error texts promptIndices depth m error w).2 = heap w.
Proof.
  unfold on_error. destruct (has_status error 401); [done|].
  by destruct (has_status error 429).
Qed.

Lemma emit_all_heap warnings w :
  heap (fold_left (fun w e => emit e w) warnings w) = heap w.
Proof.
  revert w. induction warnings as [|e warnings IH]; intros w; [done|].
  simpl. by rewrite IH.
Qed.

(** The translator works on texts only: it leaves every object alone. *)
Lemma translateBatchInternal_heap texts promptIndices depth w :
  heap (translateBatchInternal remote toLowerCase texts promptIndices depth w).2
  = heap w.
Proof.
  remember (MAX_SPLIT_DEPTH - depth) as fuel eqn:Hfuel.
  revert texts promptIndices depth w Hfuel.
  induction (lt_wf fuel) as [fuel _ IH]. intros texts promptIndices depth w ->.
  destruct texts as [|t texts]; [by simp translateBatchInternal|].
  rewrite translateBatchInternal_step by done. cbv zeta.
  destruct (remote (calls w)) as [error| |msg|v].
  - by rewrite on_error_heap.
  - by rewrite on_error_heap.
  - destruct (can_split toLowerCase (t :: texts) depth msg) eqn:Hsplit.
    + apply (can_split_iff remote) in Hsplit as (_ & Hd & _).
      match goal with
      | |- context [translateBatchInternal _ _ (take ?n ?a) (take ?n ?b) ?d ?w0] =>
          pose proof (IH (MAX_SPLIT_DEPTH - d) ltac:(lia) (take n a) (take n b) d w0
                        eq_refl) as H1;
          destruct (translateBatchInternal remote toLowerCase (take n a) (take n b) d w0)
            as [[m1|e1] w1]
      end.
      * match goal with
        | |- context [translateBatchInternal _ _ (drop ?n ?a) (drop ?n ?b) ?d w1] =>
            pose proof (IH (MAX_SPLIT_DEPTH - d) ltac:(lia) (drop n a) (drop n b) d w1
                          eq_refl) as H2;
            destruct (translateBatchInternal remote toLowerCase (drop n a) (drop n b) d w1)
              as [[m2|e2] w2]
        end.
        -- simpl in *. by rewrite H2, H1.
        -- rewrite on_error_heap. simpl in *. by rewrite H2, H1.
      * rewrite on_error_heap. simpl in *. by rewrite H1.
    + by rewrite on_error_heap.
  - destruct (fill_results _ _ _ _) as [[m warnings] [e|]].
    + by rewrite on_error_heap, emit_all_heap.
    + simpl. by rewrite emit_all_heap.
Qed.

Lemma translateTextsBatch_heap texts w :
  heap (translateTextsBatch remote toLowerCase texts w).2 = heap w.
Proof.
  unfold translateTextsBatch. destruct texts as [|t texts]; [done|].
  destruct (string_of <$> _) as [|t' texts']; [done|].
  unfold bind.
  match goal with
  | |- context [translateBatchInternal _ _ ?a ?b ?d ?w0] =>
      pose proof (translateBatchInternal_heap a b d w0) as H;
      destruct (translateBatchInternal remote toLowerCase a b d w0) as [[m|e] w']
  end; done.
Qed.

#[local] Arguments translateTextsBatch : simpl never.

Lemma write_back_all input translated items cur :
  (forall it, it ∈ items -> text_at input (path it) (originalText it)) ->
  same_but_texts input cur ->
  same_but_texts input (foldl_i (write_back translated) cur items).
Proof.
  unfold foldl_i. intros Hitems.
  assert (forall e, e ∈ imap pair items ->
                    text_at input (path e.2) (originalText e.2)) as Hsteps.
  { intros [i it] H. apply list_elem_of_lookup in H as [j H].
    rewrite list_lookup_imap in H.
    destruct (items !! j) as [it'|] eqn:E; [|done].
    injection H as _ <-. apply Hitems. by eapply list_elem_of_lookup_2. }
  clear Hitems. revert cur Hsteps.
  induction (imap pair items) as [|[i it] steps IH]; intros cur Hsteps Hcur; [done|].
  cbn [foldl]. apply IH.
  - intros e He. apply Hsteps. by right.
  - unfold write_back. cbn [fst snd].
    eapply setValueByPath_same_but_texts; [|done].
    apply (Hsteps (i, it)). by left.
Qed.

Lemma fill_results_error v entries m warnings m' warnings' e n :
  fill_results v entries m warnings = (m', warnings', Some e) ->
  has_status e n = false.
Proof.
  revert m warnings. induction entries as [|[p orig] entries IH];
    intros m warnings; cbn [fill_results]; [done|].
  destruct (call_hasOwnProperty v (toString p)) as [present|e0] eqn:Hc.
  - destruct (present && typeof_string (get v (toString p))); [apply IH|].
    destruct orig; try (by intros [= _ _ <-]). apply IH.
  - intros [= _ _ <-]. unfold call_hasOwnProperty in Hc.
    destruct v; try destruct (has_own _ _); try discriminate;
      injection Hc as <-; reflexivity.
Qed.

Lemma on_error_throws texts promptIndices depth m error w e w' :
  on_error texts promptIndices depth m error w = (Throw e, w') ->
  exists msg, e = Error msg.
Proof.
  unfold on_error. destruct (has_status error 401); [intros [= <- _]; eauto|].
  destruct (has_status error 429); [intros [= <- _]; eauto|done].
Qed.

(** What leaves [translateBatchInternal] as an exception is one of its two
    own errors. *)
Lemma translateBatchInternal_throws texts promptIndices depth w e w' :
  translateBatchInternal remote toLowerCase texts promptIndices depth w
  = (Throw e, w') ->
  exists msg, e = Error msg.
Proof.
  destruct texts as [|t texts]; [by simp translateBatchInternal|].
  rewrite translateBatchInternal_step by done. cbv zeta.
  destruct (remote (calls w)) as [error| |msg|v];
    try apply on_error_throws.
  - destruct (can_split _ _ _ _); [|apply on_error_throws].
    destruct (translateBatchInternal _ _ (take _ _) _ _ _) as [[m1|e1] w1];
      [|apply on_error_throws].
    destruct (translateBatchInternal _ _ (drop _ _) _ _ _) as [[m2|e2] w2];
      [done|apply on_error_throws].
  - destruct (fill_results _ _ _ _) as [[m warnings] [e0|]];
      [apply on_error_throws|done].
Qed.

(** The call returns unless its own request is rejected with status 401
    or 429. *)
Lemma translateBatchInternal_returns texts promptIndices depth w :
  (forall error, remote (calls w) = Rejected error ->
                 has_status error 401 = false /\ has_status error 429 = false) ->
  exists M w',
    translateBatchInternal remote toLowerCase texts promptIndices depth w
    = (Return M, w').
Proof.
  intros Hok.
  destruct texts as [|t texts]; [simp translateBatchInternal; eauto|].
  rewrite translateBatchInternal_step by done. cbv zeta.
  destruct (remote (calls w)) as [error| |msg|v].
  - destruct (Hok error eq_refl) as [H1 H2].
    rewrite on_error_recoverable by done. eauto.
  - rewrite on_error_recoverable by done. eauto.
  - destruct (can_split _ _ _ _); [|rewrite on_error_recoverable by done; eauto].
    destruct (translateBatchInternal _ _ (take _ _) _ _ _) as [[m1|e1] w1] eqn:E1.
    + destruct (translateBatchInternal _ _ (drop _ _) _ _ _) as [[m2|e2] w2] eqn:E2;
        [eauto|].
      apply translateBatchInternal_throws in E2 as [? ->].
      rewrite on_error_recoverable by done. eauto.
    + apply translateBatchInternal_throws in E1 as [? ->].
      rewrite on_error_recoverable by done. eauto.
  - destruct (fill_results _ _ _ _) as [[m warnings] [e0|]] eqn:E; [|eauto].
    rewrite on_error_recoverable by (by eapply fill_results_error). eauto.
Qed.

Lemma translateTextsBatch_calls_first texts w :
  (forall error, remote (calls w) = Rejected error ->
                 has_status error 401 = false /\ has_status error 429 = false) ->
  exists out w', translateTextsBatch remote toLowerCase texts w = (Return out, w').
Proof.
  intros Hok. unfold translateTextsBatch. destruct texts as [|t texts]; [unfold ret; eauto|].
  destruct (string_of <$> _) as [|t' texts']; [unfold ret; eauto|].
  unfold bind.
  match goal with
  | |- context [translateBatchInternal _ _ ?a ?b ?d ?w0] =>
      destruct (translateBatchInternal_returns a b d w0 Hok) as (M & w' & ->)
  end.
  unfold ret. eauto.
Qed.

Lemma for_each_returns {A} (body : nat -> A -> result (list extracted)) i (l : list A) :
  (forall j y, l !! j = Some y -> exists its, body (i + j) y = Return its) ->
  exists items, for_each body i l = Return items.
Proof.
  revert i. induction l as [|y0 l IH]; intros i H; cbn [for_each]; [eauto|].
  destruct (H 0 y0 eq_refl) as [its Hb]. rewrite Nat.add_0_r in Hb. rewrite Hb.
  destruct (IH (S i)) as [items ->]; [|simpl; eauto].
  intros j y Hy. specialize (H (S j) y Hy).
  by replace (i + S j) with (S i + j) in H by lia.
Qed.

(** The walk ends without an exception on a tree in which no object has a
    property named [hasOwnProperty]. *)
Lemma extractStrings_returns v :
  forall p, unshadowed v = true -> exists items, extractStrings v p = Return items.
Proof.
  induction v as [| |b0|n0|s0|elements IH|props IH] using jsval_deep_ind;
    intros p Hun; try (simpl; eauto; fail).
  - rewrite extractStrings_array. apply for_each_returns. intros j y Hy. simpl.
    rewrite visit_eq. destruct (_ && _); [eauto|].
    rewrite Forall_lookup in IH. apply (IH j y Hy).
    cbn [unshadowed] in Hun. rewrite forallb_forall in Hun.
    apply Hun, list_elem_of_In. by eapply list_elem_of_lookup_2.
  - rewrite extractStrings_object. cbn [unshadowed] in Hun.
    apply andb_true_iff in Hun as [Hs Hun]. apply negb_true_iff in Hs. rewrite Hs.
    apply for_each_returns. intros j [k x] Hy. simpl.
    rewrite visit_eq. destruct (_ && _); [eauto|].
    rewrite Forall_lookup in IH. apply (IH j (k, x) Hy).
    rewrite forallb_forall in Hun.
    apply (Hun (k, x)), list_elem_of_In. by eapply list_elem_of_lookup_2.
Qed.

(** [execJSON] returns unless the request is rejected with status 401 or
    429. *)
Lemma execJSON_returns jsonData w :
  (forall error, remote (calls w) = Rejected error ->
                 has_status error 401 = false /\ has_status error 429 = false) ->
  exists out w', execJSON remote toLowerCase jsonData w = (Return out, w').
Proof.
  intros Hok. unfold execJSON.
  destruct (negb (typeof_object jsonData) || isNull jsonData); [unfold ret; eauto|].
  destruct (get jsonData <$> _) as [|t texts]; [unfold ret; eauto|].
  unfold bind.
  destruct (translateTextsBatch_calls_first (t :: texts) w Hok) as (out & w' & ->).
  unfold ret. eauto.
Qed.

(** C9, as the code has it: [translatePatchouliBookObject] changes no
    object that exists when it is called, its argument included.  An
    argument that is not an object is returned as it is.  Otherwise the
    object returned is a new one: it is the copy that
    [JSON.parse(JSON.stringify(_))] makes of the argument except, at most,
    at properties whose name is on the allow-list and whose value was a
    string, not empty nor blank; and that copy is the argument itself when
    every number of the argument is finite and none is [-0].  The walk
    reaches every such string, through arrays and nested objects, and
    nothing else; and the call returns when no object of the tree hides
    [hasOwnProperty] and the service does not reject the request with
    status 401 or 429. *)
Theorem translatePatchouliBookObject_frame (w : world) (bookJsonData : nat)
  (input : jsval) :
  heap w !! bookJsonData = Some input ->
  is_json input = true ->
  let r := translatePatchouliBookObject remote toLowerCase bookJsonData w in
  (forall a x, heap w !! a = Some x -> heap r.2 !! a = Some x)
  /\ (forall translatedBookJson, r.1 = Return translatedBookJson ->
        exists output,
          heap r.2 !! translatedBookJson = Some output
          /\ (if negb (typeof_object input) || isNull input
              then translatedBookJson = bookJsonData
              else heap w !! translatedBookJson = None
                   /\ same_but_texts (json_clone input) output)
          /\ (plain_numbers input = true -> same_but_texts input output))
  /\ (forall items, extractStrings input [] = Return items ->
        forall p s, text_at input p s <-> mk_extracted p s ∈ items)
  /\ (unshadowed input = true ->
      (forall error, remote (calls w) = Rejected error ->
                     has_status error 401 = false /\ has_status error 429 = false) ->
      exists translatedBookJson, r.1 = Return translatedBookJson).
Proof.
  intros Hin Hjson r. split; [|split; [|split]].
  3:{ intros items Hex p s.
      rewrite (extractStrings_spec input [] items Hjson Hex p s).
      split; [eauto|]. by intros (r' & -> & H). }
  3:{ intros Hun Hok. subst r.
      unfold translatePatchouliBookObject, bind, read, ret, throw, say, alloc, modify.
      rewrite Hin; change (default VUndef (Some input)) with input.
      destruct (negb (typeof_object input) || isNull input); [simpl; eauto|].
      destruct (extractStrings_returns input [] Hun) as [[|it items] ->];
        [simpl; eauto|].
      match goal with
      | |- context [translateTextsBatch _ _ ?texts ?w0] =>
          destruct (translateTextsBatch_calls_first texts w0 Hok) as (out & w' & ->)
      end.
      simpl. eauto. }
  all: subst r; unfold translatePatchouliBookObject, bind, read, ret, throw, say, alloc, modify.
  all: rewrite Hin; change (default VUndef (Some input)) with input.
  all: destruct (negb (typeof_object input) || isNull input) eqn:Hobj.
  - (* not an object: nothing is written *)
    done.
  - destruct (extractStrings input []) as [[|it items]|e] eqn:Hex; [| |done].
    + (* nothing to translate: a copy is made *)
      simpl. intros a x Ha. by apply lookup_app_l_Some.
    + (* texts are translated and written into a copy *)
      simpl.
      match goal with
      | |- context [translateTextsBatch _ _ ?texts ?w0] =>
          pose proof (translateTextsBatch_heap texts w0) as Hh;
          destruct (translateTextsBatch remote toLowerCase texts w0) as [[tr|e] w']
      end; simpl in *.
      * intros a x Ha. rewrite Hh.
        rewrite list_lookup_alter_ne by (apply lookup_lt_Some in Ha; lia).
        by apply lookup_app_l_Some.
      * intros a x Ha. by rewrite Hh.
  - (* not an object: the argument is returned *)
    simpl. intros ? [= <-]. exists input. split; [done|]. split; [done|].
    intros _. constructor.
  - destruct (extractStrings input []) as [[|it items]|e] eqn:Hex; [| |done].
    + simpl. intros ? [= <-]. exists (json_clone input). split; [|split].
      * rewrite lookup_app_r by done. by rewrite Nat.sub_diag.
      * split; [by apply lookup_ge_None|constructor].
      * intros Hplain. rewrite (json_clone_id _ Hjson Hplain). constructor.
    + simpl.
      match goal with
      | |- context [translateTextsBatch _ _ ?texts ?w0] =>
          pose proof (translateTextsBatch_heap texts w0) as Hh;
          destruct (translateTextsBatch remote toLowerCase texts w0) as [[tr|e] w']
      end; simpl in *; [|done].
      intros ? [= <-]. rewrite Hh.
      assert (same_but_texts (json_clone input)
                (foldl_i (write_back tr) (json_clone input) (it :: items)))
        as Hsbt.
      { apply write_back_all; [|constructor].
        intros it' Hit. destruct it' as [q s].
        apply (extractStrings_spec input [] _ Hjson Hex q s) in Hit
          as (r' & -> & H).
        by apply text_at_json_clone. }
      eexists. split; [|split].
      * rewrite list_lookup_alter_eq. rewrite lookup_app_r by done.
        rewrite Nat.sub_diag. reflexivity.
      * split; [by apply lookup_ge_None|exact Hsbt].
      * intros Hplain. rewrite <- (json_clone_id _ Hjson Hplain) at 1. exact Hsbt.
Qed.

End PatchouliFacts.

Lemma translatePatchouliBookObject_frame_witness :
  let r := OpenAITranslator.translatePatchouliBookObject
             (fun _ => Parsed Samples.book_reply) Samples.ascii_lower 0
             (mk_world 0 [] [Samples.book]) in
  heap r.2 !! 0 = Some Samples.book
  /\ exists output, heap r.2 !! 1 = Some output
                    /\ Observe.same_but_texts Samples.book output
                    /\ get output (js "name") = VStr (js "Livre").
Proof.
  destruct (translatePatchouliBookObject_frame (fun _ => Parsed Samples.book_reply)
              Samples.ascii_lower (mk_world 0 [] [Samples.book]) 0 Samples.book
              eq_refl eq_refl) as (Hkeep & Hout & _).
  split.
  - apply Hkeep. reflexivity.
  - destruct (Hout 1) as (output & Ho & _ & Hs); [reflexivity|].
    exists output. split; [exact Ho|]. split; [exact (Hs eq_refl)|].
    vm_compute in Ho. injection Ho as <-. reflexivity.
Defined.

(** C9 as worded fails: a number that is not finite, in a field outside
    the allow-list, comes back as [null], because the copy is made by
    [JSON.parse(JSON.stringify(_))]. *)
Lemma overflowing_number_counterexample :
  Observe.is_json Samples.overflowing_book = true
  /\ (js "sortnum" ∉ OpenAITranslator.translatableKeys)
  /\ get Samples.overflowing_book (js "sortnum") = VNum PositiveInfinity
  /\ OpenAITranslator.translatePatchouliBookObject
       (fun _ => Parsed Samples.book_reply) Samples.ascii_lower 0
       (mk_world 0 [] [Samples.overflowing_book])
     = (Return 1,
        mk_world 1
          [EvLog (js "[Translator] translatePatchouliBookObject: Translating strings...");
           EvRequest 0 [0] [js "Book"]]
          [Samples.overflowing_book;
           VObj [(js "name", VStr (js "Livre")); (js "sortnum", VNull)]])
  /\ ~ Observe.same_but_texts Samples.overflowing_book
         (VObj [(js "name", VStr (js "Livre")); (js "sortnum", VNull)]).
Proof.
  split; [reflexivity|]. split.
  { intros H. unfold OpenAITranslator.translatableKeys in H.
    repeat (apply elem_of_cons in H as [H|H]; [vm_compute in H; discriminate H|]).
    by apply elem_of_nil in H. }
  split; [reflexivity|]. split; [vm_compute; reflexivity|].
  intros H. apply sbt_object_inv in H as (props' & Heq & HF).
  injection Heq as <-.
  apply Forall2_cons in HF as [_ HF].
  apply Forall2_cons in HF as [[_ [H1|(_ & s & Hs & _)]] _]; [|discriminate Hs].
  simpl in H1. inversion H1.
Qed.


(** ** Positions among the texts *)

Section RankFacts.

Import LocalFormat.

Lemma rank_0 (texts : list jsval) : rank texts 0 = 0.
Proof. unfold rank. by rewrite take_0. Qed.

Lemma rank_S x0 (texts : list jsval) i :
  rank (x0 :: texts) (S i) = (if translatable x0 then 1 else 0) + rank texts i.
Proof.
  unfold rank. rewrite firstn_cons, filter_cons.
  destruct (decide _) as [H|H].
  - apply Is_true_true in H. by rewrite H.
  - apply Is_true_false in H. by rewrite H.
Qed.

Lemma count_translatable_cons x0 (texts : list jsval) :
  length (filter (fun x => translatable x) (x0 :: texts))
  = (if translatable x0 then 1 else 0)
    + length (filter (fun x => translatable x) texts).
Proof.
  rewrite filter_cons. destruct (decide _) as [H|H].
  - apply Is_true_true in H. by rewrite H.
  - apply Is_true_false in H. by rewrite H.
Qed.

Lemma line_rank_0 parsedData : line_rank parsedData 0 = 0.
Proof. unfold line_rank. by rewrite take_0. Qed.

Lemma line_rank_S item parsedData i :
  line_rank (item :: parsedData) (S i)
  = (if is_text_line item then 1 else 0) + line_rank parsedData i.
Proof.
  unfold line_rank. rewrite firstn_cons, filter_cons.
  destruct (decide _) as [H|H].
  - apply Is_true_true in H. by rewrite H.
  - apply Is_true_false in H. by rewrite H.
Qed.

Lemma count_text_lines_cons item (parsedData : list parsed_line) :
  length (filter (fun item => is_text_line item) (item :: parsedData))
  = (if is_text_line item then 1 else 0)
    + length (filter (fun item => is_text_line item) parsedData).
Proof.
  rewrite filter_cons. destruct (decide _) as [H|H].
  - apply Is_true_true in H. by rewrite H.
  - apply Is_true_false in H. by rewrite H.
Qed.

Lemma line_rank_lt (parsedData : list parsed_line) i item :
  parsedData !! i = Some item -> is_text_line item = true ->
  line_rank parsedData i
  < length (filter (fun item => is_text_line item) parsedData).
Proof.
  intros Hi Ht. unfold line_rank.
  rewrite <- (take_drop i parsedData) at 2. rewrite filter_app, length_app.
  rewrite (drop_S _ _ _ Hi), filter_cons.
  destruct (decide _) as [_|H]; [simpl; lia|].
  by rewrite Ht in H.
Qed.

Lemma is_text_line_value item :
  is_text_line item = true ->
  type item = t_kv /\ exists v, value item = Some v /\ translatable (VStr v) = true.
Proof.
  unfold is_text_line. destruct (type item); try done.
  destruct (value item) as [v|]; [|done]. intros H. split; [done|]. by exists v.
Qed.

Lemma parseLocalContent_untranslated s item :
  item ∈ parseLocalContent s -> translatedValue item = None.
Proof.
  intros (i & line & _ & ->)%elem_of_parseLocalContent.
  by destruct (parse_line_kind line i) as (_ & _ & H & _).
Qed.

Lemma parseLocalContent_numbered content :
  lineNumber <$> parseLocalContent content
  = seq 1 (length (parseLocalContent content)).
Proof.
  apply list_eq. intros i. rewrite list_lookup_fmap.
  destruct (parseLocalContent content !! i) as [p|] eqn:E.
  - pose proof (lookup_lt_Some _ _ _ E) as Hlt.
    rewrite (proj2 (lookup_seq 1 _ i (1 + i))) by (split; [done|lia]).
    unfold parseLocalContent in E. rewrite list_lookup_imap in E.
    destruct (split_lines content !! i) as [line|]; [|done].
    simpl in E. injection E as <-.
    destruct (parse_line_kind line i) as (_ & Hn & _). cbv zeta in Hn.
    cbn [fmap option_fmap option_map]. rewrite Hn. f_equal. lia.
  - apply lookup_ge_None in E. simpl. symmetry. apply lookup_ge_None.
    by rewrite length_seq.
Qed.

(** A loop with index over a list with one more element. *)
Lemma foldl_i_snoc {A B} (f : A -> nat -> B -> A) (a : A) (l : list B) (x : B) :
  OpenAITranslator.foldl_i f a (l ++ [x])
  = f (OpenAITranslator.foldl_i f a l) (length l) x.
Proof.
  unfold OpenAITranslator.foldl_i. rewrite imap_app, foldl_app. simpl.
  by rewrite Nat.add_0_r.
Qed.

End RankFacts.


Section BatchBounds.

Import OpenAITranslator.

Variable remote : nat -> api_outcome.
Variable toLowerCase : jsstring -> jsstring.

#[local] Abbreviation translateBatchInternal := (translateBatchInternal remote toLowerCase).

Lemma on_error_calls texts promptIndices depth m error w :
  calls (on_error texts promptIndices depth m error w).2 = calls w.
Proof.
  unfold on_error. destruct (has_status error 401); [done|].
  by destruct (has_status error 429).
Qed.

Lemma emit_all_calls warnings w :
  calls (fold_left (fun w e => emit e w) warnings w) = calls w.
Proof.
  revert w. induction warnings as [|e warnings IH]; intros w; [done|].
  simpl. by rewrite IH.
Qed.

(** A call at depth [depth] sends at least one request for a batch that is
    not empty, at most [2 ^ (MAX_SPLIT_DEPTH - depth + 1) - 1] requests, and
    at most [2 * n - 1] for [n] texts. *)
Lemma translateBatchInternal_calls texts promptIndices depth w :
  let w' := (translateBatchInternal texts promptIndices depth w).2 in
  (texts = [] -> calls w' = calls w)
  /\ (texts <> [] -> calls w < calls w')
  /\ calls w' - calls w <= 2 ^ (S (MAX_SPLIT_DEPTH - depth)) - 1
  /\ calls w' - calls w <= 2 * length texts - 1.
Proof.
  remember (MAX_SPLIT_DEPTH - depth) as fuel eqn:Hfuel.
  revert texts promptIndices depth w Hfuel.
  induction (lt_wf fuel) as [fuel _ IH]. intros texts promptIndices depth w ->.
  destruct texts as [|t texts].
  { simp translateBatchInternal. simpl. repeat split; try done; lia. }
  rewrite translateBatchInternal_step by done. cbv zeta.
  assert (1 <= 2 ^ S (MAX_SPLIT_DEPTH - depth) - 1) as Hpow.
  { pose proof (Nat.pow_nonzero 2 (MAX_SPLIT_DEPTH - depth)). simpl. lia. }
  assert (forall m error w0,
             calls w0 = S (calls w) ->
             let w' := (on_error (t :: texts) promptIndices depth m error w0).2 in
             (t :: texts = [] -> calls w' = calls w)
             /\ (t :: texts <> [] -> calls w < calls w')
             /\ calls w' - calls w <= 2 ^ S (MAX_SPLIT_DEPTH - depth) - 1
             /\ calls w' - calls w <= 2 * length (t :: texts) - 1) as Hfallback.
  { intros m error w0 Hw0. cbv zeta. rewrite on_error_calls, Hw0.
    simpl length. repeat split; try done; lia. }
  destruct (remote (calls w)) as [error| |msg|v].
  - by apply Hfallback.
  - by apply Hfallback.
  - destruct (can_split toLowerCase (t :: texts) depth msg) eqn:Hsplit;
      [|by apply Hfallback].
    apply (can_split_iff remote) in Hsplit as (Hlen & Hd & _).
    pose proof (midPoint_bounds (t :: texts) Hlen) as Hmid.
    set (mid := midPoint (t :: texts)) in *.
    assert (MAX_SPLIT_DEPTH - (depth + 1) < MAX_SPLIT_DEPTH - depth) as Hlt.
    { clear -Hd. lia. }
    assert (2 ^ S (MAX_SPLIT_DEPTH - depth)
            = 2 * 2 ^ S (MAX_SPLIT_DEPTH - (depth + 1))) as Hp.
    { replace (S (MAX_SPLIT_DEPTH - depth))
        with (S (S (MAX_SPLIT_DEPTH - (depth + 1)))) by lia.
      by rewrite (Nat.pow_succ_r' 2 (S _)). }
    assert (1 <= 2 ^ S (MAX_SPLIT_DEPTH - (depth + 1))) as Hp1.
    { pose proof (Nat.pow_nonzero 2 (S (MAX_SPLIT_DEPTH - (depth + 1)))). lia. }
    assert (length (take mid (t :: texts)) = mid) as Hl1.
    { rewrite length_take. lia. }
    assert (length (drop mid (t :: texts)) = length (t :: texts) - mid) as Hl2.
    { by rewrite length_drop. }
    assert (take mid (t :: texts) <> []) as Hne1.
    { intros E. rewrite E in Hl1. simpl in Hl1. lia. }
    assert (drop mid (t :: texts) <> []) as Hne2.
    { intros E. rewrite E in Hl2. change (length (@nil jsstring)) with 0 in Hl2. lia. }
    match goal with
    | |- context [translateBatchInternal (take mid ?a) (take mid ?b) ?d ?w0] =>
        pose proof (IH (MAX_SPLIT_DEPTH - d) Hlt (take mid a) (take mid b) d w0
                      eq_refl) as H1;
        destruct (translateBatchInternal (take mid a) (take mid b) d w0)
          as [r1 w1] eqn:E1
    end.
    match goal with
    | |- context [translateBatchInternal (drop mid ?a) (drop mid ?b) ?d w1] =>
        pose proof (IH (MAX_SPLIT_DEPTH - d) Hlt (drop mid a) (drop mid b) d w1
                      eq_refl) as H2;
        destruct (translateBatchInternal (drop mid a) (drop mid b) d w1)
          as [r2 w2] eqn:E2
    end.
    cbv zeta in H1, H2. cbn [snd] in H1, H2.
    destruct H1 as (_ & H1a & H1b & H1c). destruct H2 as (_ & H2a & H2b & H2c).
    specialize (H1a Hne1). specialize (H2a Hne2).
    rewrite Hl1 in H1c. rewrite Hl2 in H2c.
    change (calls (emit _ (request _ w))) with (S (calls w)) in H1a, H1b, H1c.
    assert (calls w2 - calls w <= 2 ^ S (MAX_SPLIT_DEPTH - depth) - 1
            /\ calls w2 - calls w <= 2 * length (t :: texts) - 1
            /\ calls w < calls w2) as (Hb1 & Hb2 & Hb3).
    { rewrite Hp. generalize dependent (2 ^ S (MAX_SPLIT_DEPTH - (depth + 1))).
      intros P. intros. split; [|split]; lia. }
    destruct r1 as [m1|e1]; [destruct r2 as [m2|e2]|].
    + simpl. repeat split; try done; lia.
    + cbv zeta. rewrite on_error_calls. repeat split; try done; lia.
    + cbv zeta. rewrite on_error_calls.
      assert (calls w1 - calls w <= 2 ^ S (MAX_SPLIT_DEPTH - depth) - 1) as Hb4.
      { rewrite Hp. generalize dependent (2 ^ S (MAX_SPLIT_DEPTH - (depth + 1))).
        intros P. intros. lia. }
      repeat split; try done; lia.
  - destruct (fill_results _ _ _ _) as [[m warnings] [e0|]].
    + apply Hfallback. by rewrite emit_all_calls.
    + cbn [snd]. rewrite emit_all_calls.
      change (calls (request _ w)) with (S (calls w)). cbn [length].
      repeat split; try done; lia.
Qed.

End BatchBounds.


Section BatchResult.

Import OpenAITranslator Provenance.

Variable remote : nat -> api_outcome.
Variable toLowerCase : jsstring -> jsstring.

#[local] Abbreviation translateBatchInternal := (translateBatchInternal remote toLowerCase).

Lemma call_hasOwnProperty_Return v key b :
  call_hasOwnProperty v key = Return b -> b = has_own v key.
Proof.
  unfold call_hasOwnProperty.
  destruct v; try done; destruct (has_own _ (js "hasOwnProperty")); try done;
    by intros [= <-].
Qed.

(** The loop over a reply, when it ends without an exception: every unit
    has the value the reply gives it. *)
Lemma fill_results_ok v entries m warnings m' warnings' :
  fill_results v entries m warnings = (m', warnings', None) ->
  Forall (fun e => exists t, e.2 = VStr t) entries ->
  m' = foldl (fun m e => map_set e.1 e.2 m) m
         ((fun e => (e.1, Observe.chosen v e)) <$> entries).
Proof.
  revert m warnings. induction entries as [|[p orig] entries IH];
    intros m warnings; cbn [fill_results].
  - by intros [= <- _].
  - intros H Hall. apply Forall_cons in Hall as [[t Ht] Hall]. simpl in Ht. subst orig.
    destruct (call_hasOwnProperty v (toString p)) as [present|e] eqn:Hc; [|done].
    apply call_hasOwnProperty_Return in Hc. subst present.
    rewrite fmap_cons. cbn [foldl fst snd]. unfold Observe.chosen at 1. cbn [fst snd].
    destruct (has_own v (toString p) && typeof_string (get v (toString p))).
    + by eapply IH.
    + by eapply IH.
Qed.

Lemma fill_results_keys v entries m warnings :
  map_keys (fill_results v entries m warnings).1.1
  ⊆ map_keys m ∪ list_to_set entries.*1.
Proof.
  revert m warnings. induction entries as [|[p orig] entries IH];
    intros m warnings; cbn [fill_results].
  - set_solver.
  - rewrite fmap_cons. cbn [fst].
    destruct (call_hasOwnProperty v (toString p)) as [present|e]; [|set_solver].
    destruct (present && typeof_string (get v (toString p))).
    + etrans; [apply IH|]. rewrite map_keys_map_set. set_solver.
    + destruct orig; try set_solver.
      etrans; [apply IH|]. rewrite map_keys_map_set. set_solver.
Qed.

Lemma on_error_result texts promptIndices depth m error w M w' :
  on_error texts promptIndices depth m error w = (Return M, w') ->
  M = set_originals (batch_entries promptIndices texts) m /\ calls w' = calls w.
Proof.
  unfold on_error. destruct (has_status error 401); [done|].
  destruct (has_status error 429); [done|]. by intros [= <- <-].
Qed.

Lemma replied_mono first last first' last' p s :
  first' <= first -> last <= last' ->
  replied remote first last p s -> replied remote first' last' p s.
Proof.
  intros H1 H2 (n & v & Hn & H). exists n, v. split; [lia|done].
Qed.

(** Whatever the service does, a call that returns gives every prompt index
    of the batch a string: the text of the unit, or the string that the
    service sent under that index in reply to one of the requests of this
    call. *)
Lemma translateBatchInternal_values texts promptIndices depth w M w' :
  NoDup promptIndices -> length promptIndices = length texts ->
  translateBatchInternal texts promptIndices depth w = (Return M, w') ->
  map_keys M = list_to_set promptIndices
  /\ forall i p t, promptIndices !! i = Some p -> texts !! i = Some t ->
       exists s, map_get p M = Some (VStr s)
                 /\ (s = t \/ replied remote (calls w) (calls w') p s).
Proof.
  remember (MAX_SPLIT_DEPTH - depth) as fuel eqn:Hfuel.
  revert texts promptIndices depth w M w' Hfuel.
  induction (lt_wf fuel) as [fuel _ IH].
  intros texts promptIndices depth w M w' -> Hnd Hlen.
  destruct texts as [|t0 texts].
  { destruct promptIndices; [|done]. simp translateBatchInternal.
    intros [= <- <-]. split; [done|]. by intros i p t ?. }
  rewrite translateBatchInternal_step by done. cbv zeta.
  assert (forall m error w0 M w',
             map_keys m ⊆ list_to_set promptIndices ->
             on_error (t0 :: texts) promptIndices depth m error w0 = (Return M, w') ->
             map_keys M = list_to_set promptIndices
             /\ forall i p t, promptIndices !! i = Some p -> (t0 :: texts) !! i = Some t ->
                  exists s, map_get p M = Some (VStr s)
                            /\ (s = t \/ replied remote (calls w) (calls w') p s))
    as Hfallback.
  { intros m error w0 M0 w0' Hm [-> _]%on_error_result. split.
    - unfold set_originals. rewrite set_all_keys, batch_entries_keys. set_solver.
    - intros i p t Hp Ht. exists t. split; [by eapply set_originals_get|by left]. }
  destruct (remote (calls w)) as [error| |msg|v] eqn:Hrem.
  - apply Hfallback. set_solver.
  - apply Hfallback. set_solver.
  - destruct (can_split toLowerCase (t0 :: texts) depth msg) eqn:Hsplit;
      [|apply Hfallback; set_solver].
    apply (can_split_iff remote) in Hsplit as (Hlen1 & Hd & _).
    pose proof (midPoint_bounds (t0 :: texts) Hlen1) as Hmid.
    set (mid := midPoint (t0 :: texts)) in *.
    assert (MAX_SPLIT_DEPTH - (depth + 1) < MAX_SPLIT_DEPTH - depth) as Hlt.
    { clear -Hd. lia. }
    match goal with
    | |- context [translateBatchInternal (take mid ?a) (take mid ?b) ?d ?w0] =>
        pose proof (fun M w' => IH (MAX_SPLIT_DEPTH - d) Hlt (take mid a) (take mid b)
                                  d w0 M w' eq_refl) as H1;
        pose proof (translateBatchInternal_calls remote toLowerCase
                      (take mid a) (take mid b) d w0) as Hc1;
        pose proof (fun M w' => translateBatchInternal_NoDup remote toLowerCase
                      (take mid a) (take mid b) d w0 M w') as Hn1;
        destruct (translateBatchInternal (take mid a) (take mid b) d w0)
          as [[m1|e1] w1] eqn:E1
    end; [|apply Hfallback; set_solver].
    match goal with
    | |- context [translateBatchInternal (drop mid ?a) (drop mid ?b) ?d w1] =>
        pose proof (fun M w' => IH (MAX_SPLIT_DEPTH - d) Hlt (drop mid a) (drop mid b)
                                  d w1 M w' eq_refl) as H2;
        pose proof (translateBatchInternal_calls remote toLowerCase
                      (drop mid a) (drop mid b) d w1) as Hc2;
        pose proof (fun M w' => translateBatchInternal_NoDup remote toLowerCase
                      (drop mid a) (drop mid b) d w1 M w') as Hn2;
        destruct (translateBatchInternal (drop mid a) (drop mid b) d w1)
          as [[m2|e2] w2] eqn:E2
    end; [|apply Hfallback; set_solver].
    intros [= <- <-].
    rewrite <- (take_drop mid promptIndices) in Hnd.
    apply NoDup_app in Hnd as (Hnd1 & Hdisj & Hnd2).
    destruct (H1 m1 w1) as [Hk1 Hv1]; [done|by rewrite !length_take, Hlen|done|].
    destruct (H2 m2 w2) as [Hk2 Hv2]; [done|by rewrite !length_drop, Hlen|done|].
    specialize (Hn1 m1 w1 eq_refl). specialize (Hn2 m2 w2 eq_refl).
    cbv zeta in Hc1, Hc2. cbn [snd] in Hc1, Hc2.
    destruct Hc1 as (_ & Hc1 & _). destruct Hc2 as (_ & Hc2 & _).
    assert (calls w < calls w1) as Hle1.
    { assert (take mid (t0 :: texts) <> []) as Hne.
      { intros E. apply (f_equal length) in E. rewrite length_take in E.
        simpl in E, Hmid. lia. }
      specialize (Hc1 Hne). simpl in Hc1. lia. }
    assert (calls w1 <= calls w2) as Hle2.
    { destruct (drop mid (t0 :: texts)) as [|? ?] eqn:E.
      - simp translateBatchInternal in E2. by injection E2 as _ <-.
      - apply Nat.lt_le_incl, Hc2. done. }
    split.
    + rewrite map_of_entries_keys, fmap_app, list_to_set_app_L.
      fold (map_keys m1). fold (map_keys m2). rewrite Hk1, Hk2.
      rewrite <- list_to_set_app_L. by rewrite take_drop.
    + intros i p t Hp Ht. rewrite map_of_entries_app_get by done.
      destruct (decide (i < mid)) as [Hi|Hi].
      * assert (map_get p m2 = None) as ->.
        { apply map_get_None_keys. intros Hin.
          assert (p ∈ map_keys m2) as Hin' by (by apply elem_of_list_to_set).
          rewrite Hk2 in Hin'. apply elem_of_list_to_set in Hin'.
          apply (Hdisj p); [|done]. apply list_elem_of_lookup. exists i.
          by rewrite lookup_take_lt. }
        destruct (Hv1 i p t) as (s & Hs & Hfrom);
          [by rewrite lookup_take_lt|by rewrite lookup_take_lt|].
        exists s. split; [done|]. destruct Hfrom as [->|Hfrom]; [by left|right].
        eapply replied_mono; [| |exact Hfrom]; simpl; lia.
      * destruct (Hv2 (i - mid) p t) as (s & Hs & Hfrom).
        { rewrite lookup_drop. rewrite <- Hp. f_equal. lia. }
        { rewrite lookup_drop. rewrite <- Ht. f_equal. lia. }
        rewrite Hs. exists s. split; [done|].
        destruct Hfrom as [->|Hfrom]; [by left|right].
        eapply replied_mono; [| |exact Hfrom]; simpl; lia.
  - pose proof (fill_results_keys v (batch_entries promptIndices (t0 :: texts)) [] [])
      as Hkeys.
    rewrite batch_entries_keys in Hkeys.
    destruct (fill_results _ _ _ _) as [[m warnings] [e0|]] eqn:Hfill; simpl in Hkeys.
    + apply Hfallback. set_solver.
    + intros [= <- <-].
      apply fill_results_ok in Hfill; [|by apply batch_entries_strings].
      assert (((fun e : nat * jsval => (e.1, Observe.chosen v e))
                 <$> batch_entries promptIndices (t0 :: texts)).*1 = promptIndices)
        as Hfst.
      { rewrite <- list_fmap_compose.
        rewrite <- (batch_entries_keys promptIndices (t0 :: texts)) at 2.
        by apply list_fmap_ext. }
      split.
      { rewrite Hfill, set_all_keys, Hfst. unfold map_keys. simpl. set_solver. }
      intros i p t Hp Ht.
      assert (map_get p m = Some (Observe.chosen v (p, VStr t))) as Hget.
      { rewrite Hfill. apply set_all_get; [by rewrite Hfst|].
        apply list_elem_of_fmap. exists (p, VStr t). split; [done|].
        apply list_elem_of_lookup. exists i. by apply batch_entries_lookup. }
      rewrite Hget. unfold Observe.chosen. cbn [fst snd].
      destruct (has_own v (toString p)) eqn:Hown; cbn [andb]; [|eauto].
      destruct (get v (toString p)) as [| | | |s| |] eqn:Hval; cbn [typeof_string]; eauto.
      exists s. split; [done|]. right. exists (calls w), v.
      rewrite emit_all_calls. simpl. split; [lia|done].
Qed.

End BatchResult.


Section TextsBatch.

Import OpenAITranslator Provenance.

Variable remote : nat -> api_outcome.
Variable toLowerCase : jsstring -> jsstring.

(** The elements kept by the filter of [translateTextsBatch], with their
    indices: the [j]-th one is the [j]-th string to translate. *)
Lemma selected_cons (x0 : jsval) texts n :
  filter (fun p : nat * jsval => translatable p.2)
    (imap (fun i x => (n + i, x)) (x0 :: texts))
  = (if translatable x0 then [(n, x0)] else [])
    ++ filter (fun p : nat * jsval => translatable p.2)
         (imap (fun i x => (S n + i, x)) texts).
Proof.
  rewrite imap_cons, filter_cons. cbn [snd].
  rewrite (imap_ext _ (fun i x => (S n + i, x)))
    by (intros k y _; simpl; f_equal; lia).
  rewrite Nat.add_0_r.
  destruct (decide _) as [H|H].
  - apply Is_true_true in H. by rewrite H.
  - apply Is_true_false in H. by rewrite H.
Qed.

Lemma selected_lookup (texts : list jsval) n j i x :
  filter (fun p : nat * jsval => translatable p.2)
    (imap (fun i x => (n + i, x)) texts) !! j = Some (i, x)
  <-> n <= i /\ texts !! (i - n) = Some x /\ translatable x = true
      /\ j = rank texts (i - n).
Proof.
  revert n j. induction texts as [|x0 texts IH]; intros n j.
  { simpl. split; [done|]. by intros (_ & ? & _). }
  rewrite selected_cons.
  destruct (decide (n <= i)) as [Hle|Hgt].
  2:{ split; [|lia]. intros H. exfalso.
      destruct (translatable x0).
      - destruct j as [|j]; cbn [app lookup list_lookup] in H; [injection H as ? _; lia|].
        apply IH in H. lia.
      - cbn [app] in H. apply IH in H. lia. }
  destruct (decide (n = i)) as [->|Hne].
  - rewrite Nat.sub_diag, rank_0. cbn [lookup list_lookup].
    destruct (translatable x0) eqn:Ht.
    + destruct j as [|j]; cbn [app lookup list_lookup].
      * split; [intros [= <-]; done|]. intros (_ & [= <-] & _). done.
      * rewrite IH. split; [lia|]. intros (_ & _ & _ & ?). done.
    + cbn [app]. rewrite IH. split; [lia|]. intros (_ & [= <-] & Hx & _). congruence.
  - replace (i - n) with (S (i - S n)) by lia. rewrite rank_S.
    cbn [lookup list_lookup].
    destruct (translatable x0) eqn:Ht.
    + destruct j as [|j]; cbn [app lookup list_lookup].
      * split; [intros [= ? _]; lia|]. intros (_ & _ & _ & ?). done.
      * rewrite IH. split.
        -- intros (? & ? & ? & ->). done.
        -- intros (? & ? & ? & [= ->]). split; [lia|done].
    + cbn [app]. rewrite IH. split.
      * intros (? & ? & ? & ->). done.
      * intros (? & ? & ? & ->). split; [lia|done].
Qed.

Lemma selected_lookup_0 (texts : list jsval) j i x :
  filter (fun p : nat * jsval => translatable p.2) (imap pair texts) !! j = Some (i, x)
  <-> texts !! i = Some x /\ translatable x = true /\ j = rank texts i.
Proof.
  rewrite (imap_ext pair (fun i x => (0 + i, x)) texts) by done.
  rewrite selected_lookup, Nat.sub_0_r. split; [tauto|]. intros H. split; [lia|tauto].
Qed.

(** The loop that puts the translations back, run over a map with one
    entry per key and an injective table of positions. *)
Lemma place_all originalIndices (M : jsmap) :
  NoDup originalIndices -> NoDup M.*1 ->
  forall finalResults,
    (forall i, i ∈ originalIndices -> i < length finalResults) ->
    let out := foldl (place_result originalIndices) finalResults M in
    length out = length finalResults
    /\ (forall j i v, originalIndices !! j = Some i -> map_get j M = Some v ->
          out !! i = Some v)
    /\ (forall i, (forall j, originalIndices !! j = Some i -> map_get j M = None) ->
          out !! i = finalResults !! i).
Proof.
  intros Hoi. induction M as [|[p v] M IH]; intros Hnd fr Hin.
  { simpl. split; [done|]. split; [done|]. done. }
  rewrite fmap_cons in Hnd. apply NoDup_cons in Hnd as [Hp Hnd]. simpl in Hp.
  cbn [foldl]. set (fr1 := place_result originalIndices fr (p, v)).
  assert (length fr1 = length fr) as Hlen1.
  { unfold fr1, place_result. cbn [fst snd].
    destruct (originalIndices !! p); [apply length_insert|done]. }
  destruct (IH Hnd fr1) as (Hlen & Hset & Hkeep).
  { intros i Hi. rewrite Hlen1. by apply Hin. }
  split; [by rewrite Hlen, Hlen1|]. split.
  - intros j i v0 Hj. cbn [map_get]. destruct (decide (j = p)) as [->|Hne].
    + intros [= <-]. rewrite Hkeep.
      * unfold fr1, place_result. cbn [fst snd]. rewrite Hj.
        apply list_lookup_insert_eq. apply Hin. by eapply list_elem_of_lookup_2.
      * intros j' Hj'. assert (j' = p) as -> by (eapply (NoDup_lookup originalIndices); eauto).
        by apply map_get_None_keys.
    + by apply Hset.
  - intros i Hi. rewrite Hkeep.
    + unfold fr1, place_result. cbn [fst snd].
      destruct (originalIndices !! p) as [i'|] eqn:Hp'; [|done].
      apply list_lookup_insert_ne. intros ->.
      specialize (Hi p Hp'). cbn [map_get] in Hi. by destruct (decide (p = p)).
    + intros j Hj. specialize (Hi j Hj). cbn [map_get] in Hi.
      by destruct (decide (j = p)).
Qed.

(** [translateTextsBatch] returns an array of the same length.  What is
    not a string to translate stays where it is; a string to translate
    becomes a string, its own text or the one the service sent under its
    prompt index; and when nothing is to be translated nothing is
    requested. *)
Lemma translateTextsBatch_spec texts w out w' :
  translateTextsBatch remote toLowerCase texts w = (Return out, w') ->
  length out = length texts
  /\ (forall i x, texts !! i = Some x -> translatable x = false -> out !! i = Some x)
  /\ (forall i t, texts !! i = Some (VStr t) -> translatable (VStr t) = true ->
        exists s, out !! i = Some (VStr s)
                  /\ (s = t \/ replied remote (calls w) (calls w') (rank texts i) s))
  /\ (Forall (fun x => translatable x = false) texts -> w' = w).
Proof.
  unfold translateTextsBatch.
  destruct texts as [|x0 texts0]; [by intros [= <- <-]|].
  set (texts := x0 :: texts0).
  set (selected := filter (fun p : nat * jsval => translatable p.2) (imap pair texts)).
  assert (forall j i x, selected !! j = Some (i, x) <->
            texts !! i = Some x /\ translatable x = true /\ j = rank texts i)
    as Hsel by apply selected_lookup_0.
  destruct (string_of <$> selected.*2) as [|t1 ts] eqn:Htt.
  { intros [= <- <-]. split; [done|]. split; [done|]. split; [|done].
    intros i t Hi Ht. exfalso.
    destruct (selected !! rank texts i) as [[i' x']|] eqn:E.
    - apply fmap_nil_inv in Htt. apply fmap_nil_inv in Htt. by rewrite Htt in E.
    - assert (selected !! rank texts i = Some (i, VStr t)) as E' by (by apply Hsel).
      by rewrite E in E'. }
  rewrite <- Htt. unfold bind.
  set (textsToTranslate := string_of <$> selected.*2).
  destruct (translateBatchInternal remote toLowerCase textsToTranslate
              (seq 0 (length textsToTranslate)) 0 w) as [[M|e] w1] eqn:HM; [|done].
  intros [= <- <-].
  destruct (translateBatchInternal_values remote toLowerCase _ _ _ _ _ _
              (NoDup_seq _ _) (length_seq _ _) HM) as [Hkeys Hvals].
  pose proof (translateBatchInternal_NoDup remote toLowerCase _ _ _ _ _ _ HM) as HndM.
  assert (NoDup selected.*1) as Hoi.
  { apply NoDup_alt. intros j j' i. rewrite !list_lookup_fmap.
    destruct (selected !! j) as [[i1 x1]|] eqn:E1; [|done].
    destruct (selected !! j') as [[i2 x2]|] eqn:E2; [|done].
    simpl. intros [= ->] [= ->].
    apply Hsel in E1 as (_ & _ & ->). apply Hsel in E2 as (_ & _ & ->). done. }
  destruct (place_all selected.*1 M Hoi HndM texts) as (Hlen & Hset & Hkeep).
  { intros i Hi. apply list_elem_of_fmap in Hi as ([i' x] & -> & Hin).
    apply list_elem_of_lookup in Hin as [j Hj]. apply Hsel in Hj as (Hi & _).
    by apply lookup_lt_Some in Hi. }
  split; [done|]. split; [|split].
  - intros i x Hi Hx. rewrite Hkeep; [done|].
    intros j Hj. rewrite list_lookup_fmap in Hj.
    destruct (selected !! j) as [[i' x']|] eqn:E; [|done].
    simpl in Hj. injection Hj as ->. apply Hsel in E as (Hi' & Hx' & _).
    congruence.
  - intros i t Hi Ht.
    assert (selected !! rank texts i = Some (i, VStr t)) as E by (by apply Hsel).
    destruct (Hvals (rank texts i) (rank texts i) t) as (s & Hs & Hfrom).
    + apply lookup_seq. split; [done|].
      unfold textsToTranslate. rewrite !length_fmap. by eapply lookup_lt_Some.
    + unfold textsToTranslate. by rewrite !list_lookup_fmap, E.
    + exists s. split; [|done]. eapply Hset; [|done].
      by rewrite list_lookup_fmap, E.
  - intros Hall. exfalso.
    assert (selected = []) as Hnil.
    { destruct selected as [|[i x] rest] eqn:E; [done|]. exfalso.
      destruct (Hsel 0 i x) as [(Hi & Hx & _) _]; [done|].
      rewrite Forall_lookup in Hall. specialize (Hall i x Hi). simpl in Hall.
      congruence. }
    unfold textsToTranslate in Htt. by rewrite Hnil in Htt.
Qed.

End TextsBatch.


Section BatchExtras.

Import OpenAITranslator Provenance.

Variable remote : nat -> api_outcome.
Variable toLowerCase : jsstring -> jsstring.

#[local] Abbreviation translateBatchInternal := (translateBatchInternal remote toLowerCase).

Lemma on_error_Throw texts promptIndices depth m error w e :
  (on_error texts promptIndices depth m error w).1 = Throw e <->
  (has_status error 401 = true
   /\ e = Error (js "OpenAI Authorization Failed. Check API Key."))
  \/ (has_status error 401 = false /\ has_status error 429 = true
      /\ e = Error (js "OpenAI Rate Limit or Quota Exceeded.")).
Proof.
  unfold on_error. destruct (has_status error 401); [|destruct (has_status error 429)];
    simpl; (split; [intros [= <-]|intros [(? & ->)|(? & ? & ->)]]); try done;
    try (by left); try (by right); try tauto.
Qed.

Lemma on_error_plain_returns texts promptIndices depth m msg w e :
  (on_error texts promptIndices depth m (Error msg) w).1 <> Throw e.
Proof. rewrite on_error_Throw. simpl. intros [[? _]|(_ & ? & _)]; done. Qed.

(** When [translateBatchInternal] throws, and what. *)
Lemma translateBatchInternal_thrown texts promptIndices depth w e :
  (translateBatchInternal texts promptIndices depth w).1 = Throw e <->
  texts <> []
  /\ exists error, remote (calls w) = Rejected error
       /\ ((has_status error 401 = true
            /\ e = Error (js "OpenAI Authorization Failed. Check API Key."))
           \/ (has_status error 401 = false /\ has_status error 429 = true
               /\ e = Error (js "OpenAI Rate Limit or Quota Exceeded."))).
Proof.
  destruct texts as [|t texts].
  { simp translateBatchInternal. simpl. split; [done|]. by intros [? _]. }
  rewrite translateBatchInternal_step by done. cbv zeta.
  destruct (remote (calls w)) as [error| |msg|v] eqn:Hrem.
  - rewrite on_error_Throw. split.
    + intros H. split; [done|]. by exists error.
    + by intros (_ & error' & [= <-] & H).
  - split; [by intros ?%on_error_plain_returns|]. by intros (_ & ? & ? & _).
  - split; [|by intros (_ & ? & ? & _)]. intros H. exfalso. revert H.
    destruct (can_split _ _ _ _); [|apply on_error_plain_returns].
    destruct (translateBatchInternal (take _ _) _ _ _) as [[m1|e1] w1] eqn:E1.
    + destruct (translateBatchInternal (drop _ _) _ _ _) as [[m2|e2] w2] eqn:E2;
        [done|].
      apply translateBatchInternal_throws in E2 as [? ->].
      apply on_error_plain_returns.
    + apply translateBatchInternal_throws in E1 as [? ->].
      apply on_error_plain_returns.
  - split; [|by intros (_ & ? & ? & _)]. intros H. exfalso. revert H.
    destruct (fill_results _ _ _ _) as [[m warnings] [e0|]] eqn:E; [|done].
    rewrite on_error_Throw.
    rewrite (fill_results_error _ _ _ _ _ _ _ 401 E).
    rewrite (fill_results_error _ _ _ _ _ _ _ 429 E).
    intros [[? _]|(_ & ? & _)]; done.
Qed.

(** X1: [translateBatchInternal] throws exactly when the batch is not empty
    and its own first request is rejected with status 401 or 429; what it
    throws is then its authorization error or its quota error.  An error
    met while a half is retried never leaves the call. *)
Theorem translateBatchInternal_throws_iff texts promptIndices depth w e :
  (translateBatchInternal texts promptIndices depth w).1 = Throw e <->
  texts <> []
  /\ exists error, remote (calls w) = Rejected error
       /\ ((has_status error 401 = true
            /\ e = Error (js "OpenAI Authorization Failed. Check API Key."))
           \/ (has_status error 401 = false /\ has_status error 429 = true
               /\ e = Error (js "OpenAI Rate Limit or Quota Exceeded."))).
Proof. apply translateBatchInternal_thrown. Qed.

End BatchExtras.


(** ** Summary of the batch translator *)

Section BatchSummary.

Import OpenAITranslator Provenance.

Variable remote : nat -> api_outcome.
Variable toLowerCase : jsstring -> jsstring.

(** X2: whatever the service replies, a call of [translateBatchInternal]
    that returns gives a map whose keys are the prompt indices of the batch
    and in which every prompt index has a string: the text of its unit, or
    the string that the service sent under that index in reply to one of
    the requests of this call. *)
Theorem translateBatchInternal_strings_from_service
  (texts : list jsstring) (promptIndices : list nat) (depth : nat)
  (w : world) (M : jsmap) (w' : world) :
  NoDup promptIndices -> length promptIndices = length texts ->
  translateBatchInternal remote toLowerCase texts promptIndices depth w
  = (Return M, w') ->
  map_keys M = list_to_set promptIndices
  /\ forall i p t, promptIndices !! i = Some p -> texts !! i = Some t ->
       exists s, map_get p M = Some (VStr s)
                 /\ (s = t \/ replied remote (calls w) (calls w') p s).
Proof.
  exact (translateBatchInternal_values remote toLowerCase texts promptIndices
           depth w M w').
Qed.

(** X3: a call of [translateBatchInternal] sends no request for an empty
    batch and at least one otherwise; it sends at most
    [2 ^ (MAX_SPLIT_DEPTH - depth + 1) - 1] requests, which is 7 for a
    call at depth 0, and at most [2 * n - 1] for [n] texts. *)
Theorem translateBatchInternal_request_budget
  (texts : list jsstring) (promptIndices : list nat) (depth : nat) (w : world) :
  let w' := (translateBatchInternal remote toLowerCase texts promptIndices depth w).2 in
  match texts with
  | [] => calls w' = calls w
  | _ => calls w < calls w'
  end
  /\ calls w' - calls w <= 2 ^ (S (MAX_SPLIT_DEPTH - depth)) - 1
  /\ calls w' - calls w <= 2 * length texts - 1
  /\ (depth = 0 -> calls w' - calls w <= 7).
Proof.
  destruct (translateBatchInternal_calls remote toLowerCase texts promptIndices
              depth w) as (H0 & H1 & H2 & H3).
  cbv zeta in *. split; [|split; [done|split; [done|]]].
  - destruct texts; [by apply H0|by apply H1].
  - intros ->. exact H2.
Qed.

(** X4: [translateTextsBatch], when it returns, gives an array as long as
    its argument; an entry that is not a string to translate is returned as
    it is; a string to translate becomes a string, itself or the one the
    service sent under the rank of the entry among the strings to
    translate; and no request is sent when there is nothing to
    translate. *)
Theorem translateTextsBatch_positions
  (texts : list jsval) (w : world) (out : list jsval) (w' : world) :
  translateTextsBatch remote toLowerCase texts w = (Return out, w') ->
  length out = length texts
  /\ (forall i x, texts !! i = Some x -> translatable x = false -> out !! i = Some x)
  /\ (forall i t, texts !! i = Some (VStr t) -> translatable (VStr t) = true ->
        exists s, out !! i = Some (VStr s)
                  /\ (s = t \/ replied remote (calls w) (calls w') (rank texts i) s))
  /\ (Forall (fun x => translatable x = false) texts -> w' = w).
Proof. exact (translateTextsBatch_spec remote toLowerCase texts w out w'). Qed.

End BatchSummary.

Lemma translateBatchInternal_strings_from_service_witness :
  let r := OpenAITranslator.translateBatchInternal
             (fun _ => Parsed Samples.partial_reply) Samples.ascii_lower
             [js "Hello"; js "World"] [0; 1] 0 Samples.fresh_world in
  exists M, r.1 = Return M
    /\ map_get 0 M = Some (VStr (js "Bonjour"))
    /\ exists s, map_get 1 M = Some (VStr s)
         /\ (s = js "World"
             \/ Provenance.replied (fun _ => Parsed Samples.partial_reply)
                  0 (calls r.2) 1 s).
Proof.
  intros r.
  exists [(0, VStr (js "Bonjour")); (1, VStr (js "World"))].
  split; [vm_compute; reflexivity|]. split; [reflexivity|].
  apply (proj2 (translateBatchInternal_strings_from_service
                  (fun _ => Parsed Samples.partial_reply) Samples.ascii_lower
                  [js "Hello"; js "World"] [0; 1] 0 Samples.fresh_world
                  [(0, VStr (js "Bonjour")); (1, VStr (js "World"))] r.2
                  ltac:(compute_done) eq_refl ltac:(vm_compute; reflexivity))
          1 1 (js "World") eq_refl eq_refl).
Defined.

Lemma translateTextsBatch_positions_witness :
  let r := OpenAITranslator.translateTextsBatch
             (fun _ => Parsed Samples.partial_reply) Samples.ascii_lower
             [VStr (js "Hello"); VNum (Finite 5); VStr (js "World")] Samples.fresh_world in
  exists out, r.1 = Return out /\ length out = 3 /\ out !! 1 = Some (VNum (Finite 5)).
Proof.
  intros r.
  exists [VStr (js "Bonjour"); VNum (Finite 5); VStr (js "World")].
  split; [vm_compute; reflexivity|].
  destruct (translateTextsBatch_positions
              (fun _ => Parsed Samples.partial_reply) Samples.ascii_lower
              [VStr (js "Hello"); VNum (Finite 5); VStr (js "World")] Samples.fresh_world
              [VStr (js "Bonjour"); VNum (Finite 5); VStr (js "World")] r.2
              ltac:(vm_compute; reflexivity)) as (Hlen & Hkeep & _).
  split; [exact Hlen|]. apply Hkeep; reflexivity.
Defined.


(** ** [translatePatchouliBookObject]: where the translations go *)

Section PathFacts.

Import OpenAITranslator Observe Provenance.

Implicit Types (v c : jsval) (p q : list jsstring) (k : jsstring).

Lemma assoc_set_existing k k' x (props : list (jsstring * jsval)) :
  assoc k (set_existing k' x props)
  = if decide (k = k')
    then match assoc k' props with Some _ => Some x | None => None end
    else assoc k props.
Proof.
  induction props as [|[k0 v0] props IH]; cbn [set_existing assoc].
  - by destruct (decide (k = k')).
  - destruct (decide (k' = k0)) as [->|Hne]; cbn [assoc].
    + by destruct (decide (k = k0)).
    + rewrite IH. destruct (decide (k = k0)) as [->|Hne'].
      * destruct (decide (k0 = k')); [congruence|done].
      * done.
Qed.

(** Reading a property after an assignment to a property that exists. *)
Lemma assoc_assign c k' x k y :
  assoc k' (own_props c) = Some y ->
  (exists props, c = VObj props) \/ (exists items, c = VArr items) ->
  assoc k (own_props (assign c k' x))
  = if decide (k = k') then Some x else assoc k (own_props c).
Proof.
  intros Hk' [[props ->]|[items ->]].
  - cbn [assign own_props] in *. unfold set_prop.
    rewrite bool_decide_eq_true_2 by (rewrite Hk'; eauto).
    rewrite assoc_set_existing, Hk'. done.
  - apply assoc_array in Hk' as (i & -> & Hi).
    cbn [assign]. rewrite imap_replace.
    destruct (decide (k = toString i)) as [->|Hne].
    + apply assoc_array. exists i. split; [done|].
      apply list_lookup_insert_eq. by eapply lookup_lt_Some.
    + destruct (assoc k (own_props (VArr items))) as [z|] eqn:E.
      * apply assoc_array in E as (j & -> & Hj). apply assoc_array. exists j.
        split; [done|]. rewrite list_lookup_insert_ne; [done|]. by intros ->.
      * destruct (assoc k (own_props (VArr (<[i:=x]> items)))) as [z|] eqn:E';
          [|done].
        apply assoc_array in E' as (j & -> & Hj).
        rewrite list_lookup_insert_ne in Hj by (by intros ->).
        assert (assoc (toString j) (own_props (VArr items)) = Some z) as E''
          by (apply assoc_array; eauto).
        congruence.
Qed.

Lemma sbt_shape v c :
  same_but_texts v c ->
  (exists props, v = VObj props) \/ (exists items, v = VArr items) ->
  (exists props, c = VObj props) \/ (exists items, c = VArr items).
Proof.
  intros H [[props ->]|[items ->]].
  - apply sbt_object_inv in H as (? & -> & _). eauto.
  - apply sbt_array_inv in H as (? & -> & _). eauto.
Qed.

(** A child of [v] and the child of a value related to [v] under the same
    key. *)
Lemma sbt_child v c k child :
  same_but_texts v c -> typeof_object v = true ->
  assoc k (own_props v) = Some child ->
  exists child', assoc k (own_props c) = Some child'
    /\ (same_but_texts child child'
        \/ (k ∈ translatableKeys /\ exists s, child = VStr s)).
Proof.
  intros Hc Hty Hk. destruct v as [| | | | |items|props]; try done.
  - apply sbt_array_inv in Hc as (items' & -> & Hrel).
    apply assoc_array in Hk as (i & -> & Hi).
    destruct (Forall2_lookup_l _ _ _ _ _ Hrel Hi) as (child' & Hi' & Hcc).
    exists child'. split; [apply assoc_array; eauto|by left].
  - apply sbt_object_inv in Hc as (props' & -> & Hrel).
    destruct (assoc_related _ _ _ _ Hrel Hk) as (child' & Hk' & _ & Hcc).
    exists child'. split; [done|]. simpl in Hcc.
    destruct Hcc as [?|(? & s & -> & _)]; [by left|right; eauto].
Qed.

Lemma text_at_shape v p s :
  text_at v p s ->
  typeof_object v = true
  /\ ((exists props, v = VObj props) \/ (exists items, v = VArr items)).
Proof.
  intros H. split; [by destruct H|]. by eapply text_at_object_like.
Qed.

Lemma not_text_at_string s0 p s : ~ text_at (VStr s0) p s.
Proof. intros [[? [=]]|[? [=]]]%text_at_object_like. Qed.

(** The value written at the path of a text is found there. *)
Lemma lookup_written v p s :
  text_at v p s ->
  forall c x, same_but_texts v c -> lookup_path (setValueByPath c p x) p = Some x.
Proof.
  induction 1 as [v k s Hty Hk Hin Hs Hts|v k child p s Hty Hk Hchild IH];
    intros c x Hc.
  - destruct (sbt_child v c k _ Hc Hty Hk) as (child' & Hk' & _).
    assert ((exists props, v = VObj props) \/ (exists items, v = VArr items)) as Hv.
    { destruct v; try done; eauto. }
    cbn [setValueByPath lookup_path].
    rewrite (assoc_assign c k x k child' Hk' (sbt_shape _ _ Hc Hv)).
    by destruct (decide (k = k)).
  - destruct p as [|k' p]; [by apply text_at_nonempty in Hchild|].
    rewrite setValueByPath_step.
    destruct (sbt_child v c k _ Hc Hty Hk) as (child' & Hk' & [Hcc|(_ & s0 & ->)]);
      [|by apply not_text_at_string in Hchild].
    assert ((exists props, v = VObj props) \/ (exists items, v = VArr items)) as Hv.
    { destruct v; try done; eauto. }
    assert (get c k = child') as -> by (unfold get; by rewrite Hk').
    rewrite (sbt_object_like _ _ Hcc (text_at_object_like _ _ _ Hchild)).
    cbn [lookup_path].
    rewrite (assoc_assign c k _ k child' Hk' (sbt_shape _ _ Hc Hv)).
    destruct (decide (k = k)); [|done]. by apply IH.
Qed.

(** Writing at the path of one text leaves what is at the path of another
    text alone. *)
Lemma lookup_written_elsewhere v p s :
  text_at v p s ->
  forall q s' c x, text_at v q s' -> p <> q -> same_but_texts v c ->
    lookup_path (setValueByPath c q x) p = lookup_path c p.
Proof.
  induction 1 as [v k s Hty Hk Hin Hs Hts|v k child p s Hty Hk Hchild IH];
    intros q s' c x Hq Hne Hc.
  all: assert ((exists props, v = VObj props) \/ (exists items, v = VArr items)) as Hv
      by (destruct v; try done; eauto).
  all: pose proof (sbt_shape _ _ Hc Hv) as Hcshape.
  - inversion Hq as [? k2 ? _ Hk2 _ _ _|? k2 child2 q2 ? _ Hk2 Hchild2]; subst.
    + destruct (sbt_child v c k2 _ Hc Hty Hk2) as (child2' & Hk2' & _).
      cbn [setValueByPath lookup_path].
      rewrite (assoc_assign c k2 x k child2' Hk2' Hcshape).
      destruct (decide (k = k2)) as [->|]; [done|done].
    + destruct q2 as [|k3 q3]; [by apply text_at_nonempty in Hchild2|].
      rewrite setValueByPath_step.
      destruct (sbt_child v c k2 _ Hc Hty Hk2)
        as (child2' & Hk2' & [Hcc|(_ & s0 & ->)]);
        [|by apply not_text_at_string in Hchild2].
      assert (get c k2 = child2') as -> by (unfold get; by rewrite Hk2').
      rewrite (sbt_object_like _ _ Hcc (text_at_object_like _ _ _ Hchild2)).
      cbn [lookup_path].
      rewrite (assoc_assign c k2 _ k child2' Hk2' Hcshape).
      destruct (decide (k = k2)) as [->|]; [|done].
      rewrite Hk in Hk2. injection Hk2 as <-.
      by apply not_text_at_string in Hchild2.
  - destruct p as [|k' p]; [by apply text_at_nonempty in Hchild|].
    inversion Hq as [? k2 ? _ Hk2 _ _ _|? k2 child2 q2 ? _ Hk2 Hchild2]; subst.
    + destruct (sbt_child v c k2 _ Hc Hty Hk2) as (child2' & Hk2' & _).
      cbn [setValueByPath]. cbn [lookup_path].
      rewrite (assoc_assign c k2 x k child2' Hk2' Hcshape).
      destruct (decide (k = k2)) as [->|]; [|done].
      rewrite Hk in Hk2. injection Hk2 as ->.
      by apply not_text_at_string in Hchild.
    + destruct q2 as [|k3 q3]; [by apply text_at_nonempty in Hchild2|].
      rewrite setValueByPath_step.
      destruct (sbt_child v c k2 _ Hc Hty Hk2)
        as (child2' & Hk2' & [Hcc|(_ & s0 & ->)]);
        [|by apply not_text_at_string in Hchild2].
      assert (get c k2 = child2') as -> by (unfold get; by rewrite Hk2').
      rewrite (sbt_object_like _ _ Hcc (text_at_object_like _ _ _ Hchild2)).
      cbn [lookup_path].
      rewrite (assoc_assign c k2 _ k child2' Hk2' Hcshape).
      destruct (decide (k = k2)) as [->|]; [|done].
      rewrite Hk in Hk2. injection Hk2 as <-.
      rewrite Hk2'. apply (IH _ s'); [done|congruence|done].
Qed.

End PathFacts.


Section PatchouliPlaces.

Import OpenAITranslator Observe Provenance.

Variable remote : nat -> api_outcome.
Variable toLowerCase : jsstring -> jsstring.

(** A path of the walk leads to one text. *)
Lemma text_at_functional v p s :
  text_at v p s -> forall s', text_at v p s' -> s' = s.
Proof.
  induction 1 as [v k s Hty Hk Hin Hs Hts|v k child p s Hty Hk Hchild IH];
    intros s' H'.
  - inversion H' as [? ? ? _ Hk' _ _ _|? ? child' ? ? _ Hk' Hchild']; subst.
    + congruence.
    + by apply text_at_nonempty in Hchild'.
  - inversion H' as [? ? ? _ Hk' _ _ _|? ? child' ? ? _ Hk' Hchild']; subst.
    + by apply text_at_nonempty in Hchild.
    + rewrite Hk in Hk'. injection Hk' as <-. by apply IH.
Qed.

Lemma text_at_translatable v p s : text_at v p s -> translatable (VStr s) = true.
Proof.
  induction 1 as [v k s Hty Hk Hin Hs Hts|]; [|done].
  unfold translatable. cbn. unfold isEmpty.
  destruct s as [|c s]; [done|]. destruct (trim (c :: s)); done.
Qed.

Lemma rank_all_translatable (texts : list jsval) i :
  Forall (fun x => translatable x = true) texts -> i <= length texts ->
  rank texts i = i.
Proof.
  intros Hall. revert i. induction Hall as [|x texts Hx _ IH]; intros i Hi.
  - simpl in Hi. replace i with 0 by lia. apply rank_0.
  - destruct i as [|i]; [apply rank_0|]. rewrite rank_S, Hx, IH; [done|].
    simpl in Hi. lia.
Qed.

(** After the write-back loop, the path of each item holds the translation
    of an item with that path; the paths of texts the loop was not given
    hold what they held. *)
Lemma write_back_lookup input translated items :
  (forall it, it ∈ items -> text_at input (path it) (originalText it)) ->
  forall cur p s, same_but_texts input cur -> text_at input p s ->
    (exists k it, items !! k = Some it /\ path it = p
        /\ lookup_path (foldl_i (write_back translated) cur items) p
           = Some (default VUndef (translated !! k)))
    \/ ((forall it, it ∈ items -> path it <> p)
        /\ lookup_path (foldl_i (write_back translated) cur items) p
           = lookup_path cur p).
Proof.
  induction items as [|it items IH] using rev_ind; intros Hitems cur p s Hcur Hp.
  { right. split; [|done]. intros it []%elem_of_nil. }
  rewrite foldl_i_snoc.
  assert (forall it0, it0 ∈ items -> text_at input (path it0) (originalText it0))
    as Hitems'.
  { intros it0 H0. apply Hitems, elem_of_app. by left. }
  assert (text_at input (path it) (originalText it)) as Hit.
  { apply Hitems, elem_of_app. right. by apply list_elem_of_singleton. }
  pose proof (write_back_all input translated items cur Hitems' Hcur) as Hmid.
  unfold write_back at 1 3.
  destruct (decide (path it = p)) as [Heq|Hne].
  - left. exists (length items), it. split; [by apply list_lookup_middle|].
    split; [done|]. rewrite Heq. by eapply lookup_written.
  - rewrite (lookup_written_elsewhere input p s Hp (path it) (originalText it));
      [|done|congruence|done].
    destruct (IH Hitems' cur p s Hcur Hp) as [(k & it0 & Hk & Hpath & Hl)|[Hnone Hl]].
    + left. exists k, it0. split; [by apply lookup_app_l_Some|]. done.
    + right. split; [|done]. intros it0 [H0|H0%list_elem_of_singleton]%elem_of_app.
      * by apply Hnone.
      * by subst.
Qed.

Lemma lookup_path_text v p s : text_at v p s -> lookup_path v p = Some (VStr s).
Proof.
  induction 1 as [v k s Hty Hk Hin Hs Hts|v k child p s Hty Hk Hchild IH];
    cbn [lookup_path]; by rewrite Hk.
Qed.

(** What [translatePatchouliBookObject] returns, read path by path. *)
Lemma translatePatchouliBookObject_run w bookJsonData input translatedBookJson w' :
  heap w !! bookJsonData = Some input ->
  is_json input = true ->
  translatePatchouliBookObject remote toLowerCase bookJsonData w
  = (Return translatedBookJson, w') ->
  exists output items,
    heap w' !! translatedBookJson = Some output
    /\ extractStrings input [] = Return items
    /\ forall p s, text_at input p s ->
         exists index translated,
           items !! index = Some (mk_extracted p s)
           /\ lookup_path output p = Some (VStr translated)
           /\ (translated = s
               \/ replied remote (calls w) (calls w') index translated).
Proof.
  intros Hin Hjson.
  unfold translatePatchouliBookObject, bind, read, ret, throw, say, alloc, modify.
  rewrite Hin; change (default VUndef (Some input)) with input.
  destruct (negb (typeof_object input) || isNull input) eqn:Hobj.
  { intros [= <- <-]. cbn [heap emit].
    destruct (extractStrings input []) as [items|e] eqn:Hex.
    - exists input, items. split; [done|]. split; [done|]. intros p s Hp. exfalso.
      apply text_at_shape in Hp as [Hty [[? ->]|[? ->]]]; done.
    - exfalso. destruct input; try done. }
  destruct (extractStrings input []) as [[|it items]|e] eqn:Hex; [| |done].
  { intros [= <- <-]. cbn [heap]. exists (json_clone input), [].
    split; [by rewrite lookup_app_r, Nat.sub_diag by done|]. split; [done|].
    intros p s Hp. exfalso.
    assert (mk_extracted p s ∈ []) as []%elem_of_nil.
    apply (extractStrings_spec input [] [] Hjson Hex p s). by exists p. }
  set (extractedItems := it :: items) in *.
  assert (forall it0, it0 ∈ extractedItems ->
            text_at input (path it0) (originalText it0)) as Hitems.
  { intros [q s] Hit.
    apply (extractStrings_spec input [] _ Hjson Hex q s) in Hit as (r' & -> & H).
    done. }
  match goal with
  | |- context [translateTextsBatch _ _ ?texts ?w0] =>
      set (originalTextsArray := texts);
      pose proof (translateTextsBatch_heap remote toLowerCase originalTextsArray w0) as Hh;
      pose proof (translateTextsBatch_spec remote toLowerCase originalTextsArray w0) as Hspec;
      destruct (translateTextsBatch remote toLowerCase originalTextsArray w0)
        as [[tr|e] w1]
  end; [|done].
  destruct (Hspec tr w1 eq_refl) as (Hlen & _ & Htr & _). clear Hspec.
  cbn [snd] in Hh. cbn [heap emit calls] in *.
  intros [= <- <-]. cbn [heap calls]. rewrite Hh.
  eexists _, extractedItems. split.
  { rewrite list_lookup_alter_eq, lookup_app_r by done.
    rewrite Nat.sub_diag. reflexivity. }
  split; [done|]. intros p s Hp. cbn [fmap option_fmap option_map].
  assert (forall it0, it0 ∈ extractedItems ->
            text_at (json_clone input) (path it0) (originalText it0)) as Hcopy.
  { intros it0 H0. apply text_at_json_clone; [by apply Hitems|done]. }
  destruct (write_back_lookup (json_clone input) tr extractedItems Hcopy
              (json_clone input) p s (sbt_same _)
              (text_at_json_clone input p s Hp Hjson))
    as [(index & [q s0] & Hk & Hpath & Hl)|[Hnone _]].
  - cbn [path] in Hpath. subst q.
    assert (s0 = s) as ->.
    { apply (text_at_functional input p s Hp).
      apply (Hitems (mk_extracted p s0)). by eapply list_elem_of_lookup_2. }
    assert (originalTextsArray !! index = Some (VStr s)) as Hidx.
    { unfold originalTextsArray. by rewrite list_lookup_fmap, Hk. }
    destruct (Htr index s Hidx (text_at_translatable _ _ _ Hp))
      as (translated & Ht & Hfrom).
    exists index, translated. split; [done|]. split.
    + rewrite Hl, Ht. done.
    + rewrite rank_all_translatable in Hfrom; [done| |].
      * apply Forall_fmap, Forall_forall. intros it0 H0. simpl.
        eapply text_at_translatable, Hitems, H0.
      * apply lookup_lt_Some in Hidx. lia.
  - exfalso. apply (Hnone (mk_extracted p s)); [|done].
    apply (extractStrings_spec input [] _ Hjson Hex p s). by exists p.
Qed.

(** X5: for each allow-listed text of the tree that [JSON.parse] gave,
    the object that [translatePatchouliBookObject] returns holds, at the
    path of that text, a string: the text itself, or a string that the
    service sent during this call under the position of the text in the
    order of the walk. *)
Theorem translatePatchouliBookObject_places_translations
  (w : world) (bookJsonData : nat) (input : jsval) (translatedBookJson : nat)
  (w' : world) :
  heap w !! bookJsonData = Some input ->
  is_json input = true ->
  translatePatchouliBookObject remote toLowerCase bookJsonData w
  = (Return translatedBookJson, w') ->
  exists output items,
    heap w' !! translatedBookJson = Some output
    /\ extractStrings input [] = Return items
    /\ forall p s, text_at input p s ->
         exists index translated,
           items !! index = Some (mk_extracted p s)
           /\ lookup_path output p = Some (VStr translated)
           /\ (translated = s
               \/ replied remote (calls w) (calls w') index translated).
Proof. exact (translatePatchouliBookObject_run w bookJsonData input translatedBookJson w'). Qed.

End PatchouliPlaces.

Lemma translatePatchouliBookObject_places_translations_witness :
  exists output,
    heap (OpenAITranslator.translatePatchouliBookObject
            (fun _ => Parsed Samples.book_reply) Samples.ascii_lower 0
            (mk_world 0 [] [Samples.book])).2 !! 1 = Some output
    /\ Provenance.lookup_path output [js "name"] = Some (VStr (js "Livre")).
Proof.
  destruct (translatePatchouliBookObject_places_translations
              (fun _ => Parsed Samples.book_reply) Samples.ascii_lower
              (mk_world 0 [] [Samples.book]) 0 Samples.book 1
              (OpenAITranslator.translatePatchouliBookObject
                 (fun _ => Parsed Samples.book_reply) Samples.ascii_lower 0
                 (mk_world 0 [] [Samples.book])).2
              eq_refl eq_refl ltac:(vm_compute; reflexivity))
    as (output & items & Hout & _ & _).
  exists output. split; [exact Hout|].
  vm_compute in Hout. injection Hout as <-. vm_compute. reflexivity.
Defined.


(** ** [execJSON] of the OpenAI translator: the values it writes *)

Section ExecJsonValues.

Import OpenAITranslator Observe Provenance.

Variable remote : nat -> api_outcome.
Variable toLowerCase : jsstring -> jsstring.

Implicit Types (props cur : list (jsstring * jsval)) (k : jsstring) (x : jsval).

Lemma set_existing_keys k x props : (set_existing k x props).*1 = props.*1.
Proof.
  induction props as [|[k' v] props IH]; [done|]. cbn [set_existing].
  destruct (decide (k = k')); [done|]. rewrite !fmap_cons. by rewrite IH.
Qed.

Lemma assoc_lookup props i k x :
  NoDup props.*1 -> props !! i = Some (k, x) -> assoc k props = Some x.
Proof.
  intros Hnd Hi. apply assoc_elem_of; [done|]. by eapply list_elem_of_lookup_2.
Qed.

(** The keys that [execJSON] selects are those of the properties to
    translate, in order, and the texts are their values. *)
Lemma selected_keys props l :
  NoDup props.*1 -> (forall p, p ∈ l -> p ∈ props) ->
  filter (fun key => translatable (get (VObj props) key)) l.*1
  = (filter (fun p : jsstring * jsval => translatable p.2) l).*1
  /\ get (VObj props) <$> (filter (fun p : jsstring * jsval => translatable p.2) l).*1
     = (filter (fun p : jsstring * jsval => translatable p.2) l).*2.
Proof.
  intros Hnd. induction l as [|[k v] l IH]; intros Hin; [done|].
  destruct IH as [IH1 IH2]; [intros p Hp; apply Hin; by right|].
  assert (get (VObj props) k = v) as Hget.
  { unfold get. cbn [own_props].
    rewrite (proj2 (assoc_elem_of props k v Hnd)); [done|]. apply Hin. by left. }
  rewrite fmap_cons. cbn [fst]. rewrite !filter_cons. cbn [snd]. rewrite Hget.
  destruct (decide (translatable v)) as [Ht|Ht].
  - rewrite !fmap_cons. cbn [fst snd]. by rewrite IH1, IH2, Hget.
  - done.
Qed.

(** The place of a selected element among the selected ones. *)
Lemma filter_lookup_rank {A} (P : A -> bool) (l : list A) i a :
  l !! i = Some a -> P a = true ->
  filter (fun a => P a) l !! length (filter (fun a => P a) (take i l)) = Some a.
Proof.
  revert i. induction l as [|a0 l IH]; intros i Hi Ha; [done|].
  destruct i as [|i].
  - injection Hi as ->. rewrite take_0, filter_cons.
    destruct (decide (P a)) as [_|Hn]; [done|]. by rewrite Ha in Hn.
  - rewrite firstn_cons, !filter_cons.
    destruct (decide (P a0)); cbn [length lookup list_lookup]; by apply IH.
Qed.

Lemma rank_values props i :
  rank props.*2 i
  = length (filter (fun p : jsstring * jsval => translatable p.2) (take i props)).
Proof.
  unfold rank. revert i. induction props as [|[k v] props IH]; intros i.
  - by destruct i.
  - destruct i as [|i]; [done|]. rewrite fmap_cons, !firstn_cons, !filter_cons.
    cbn [snd]. destruct (decide (translatable v)); cbn [length]; by rewrite IH.
Qed.

(** The loop that assigns the translations, read key by key. *)
Lemma assign_all_lookup (keysToTranslate : list jsstring) props
  (translatedTexts : list jsval) :
  NoDup keysToTranslate -> (forall k, k ∈ keysToTranslate -> k ∈ props.*1) ->
  let translatedData :=
    foldl_i (assign_translated keysToTranslate) props translatedTexts in
  translatedData.*1 = props.*1
  /\ (forall j k, keysToTranslate !! j = Some k ->
        assoc k translatedData
        = if decide (j < length translatedTexts) then translatedTexts !! j
          else assoc k props)
  /\ (forall k, k ∉ keysToTranslate -> assoc k translatedData = assoc k props).
Proof.
  intros Hnd Hsub. cbv zeta.
  induction translatedTexts as [|x translatedTexts IH] using rev_ind.
  { split; [done|]. split; [|done]. intros j k _. destruct (decide _) as [H|]; [|done].
    simpl in H. lia. }
  destruct IH as (Hkeys & Hsel & Hrest). rewrite foldl_i_snoc, length_app.
  cbn [length]. unfold assign_translated at 1 3 5.
  destruct (keysToTranslate !! length translatedTexts) as [k0|] eqn:Hk0.
  - assert (is_Some (assoc k0 (foldl_i (assign_translated keysToTranslate) props
                                 translatedTexts))) as Hhas.
    { apply assoc_is_Some. rewrite Hkeys. apply Hsub.
      by eapply list_elem_of_lookup_2. }
    unfold set_prop. rewrite bool_decide_eq_true_2 by done.
    split; [by rewrite set_existing_keys|]. split.
    + intros j k Hj. rewrite assoc_set_existing.
      destruct (decide (k = k0)) as [->|Hne].
      * assert (j = length translatedTexts) as ->
          by (eapply (NoDup_lookup keysToTranslate); eauto).
        destruct Hhas as [? ->].
        destruct (decide _) as [_|]; [|lia].
        by rewrite lookup_app_r, Nat.sub_diag by done.
      * rewrite (Hsel j k Hj).
        destruct (decide (j < length translatedTexts)) as [Hlt|Hge].
        -- destruct (decide _); [|lia]. by rewrite lookup_app_l.
        -- destruct (decide _) as [Hlt|]; [|done].
           assert (j = length translatedTexts) as -> by lia. congruence.
    + intros k Hk. rewrite assoc_set_existing.
      destruct (decide (k = k0)) as [->|Hne]; [|by apply Hrest].
      exfalso. apply Hk. by eapply list_elem_of_lookup_2.
  - split; [done|]. split; [|done].
    intros j k Hj. rewrite (Hsel j k Hj).
    assert (j < length translatedTexts).
    { apply lookup_lt_Some in Hj. apply lookup_ge_None in Hk0. lia. }
    repeat destruct (decide _); try lia. by rewrite lookup_app_l.
Qed.

(** What [execJSON] returns on an object, property by property. *)
Lemma execJSON_run props w out w' :
  NoDup props.*1 ->
  execJSON remote toLowerCase (VObj props) w = (Return out, w') ->
  exists props',
    out = VObj props' /\ length props' = length props
    /\ forall i key value, props !! i = Some (key, value) ->
         if translatable value
         then exists s, props' !! i = Some (key, VStr s)
                /\ (s = string_of value
                    \/ replied remote (calls w) (calls w') (rank props.*2 i) s)
         else props' !! i = Some (key, value).
Proof.
  intros Hnd. unfold execJSON. cbn [typeof_object isNull negb orb own_props].
  destruct (selected_keys props props Hnd (fun p Hp => Hp)) as [Hkeys Htexts].
  change (keys (VObj props)) with props.*1. rewrite Hkeys, Htexts.
  set (selected := filter (fun p : jsstring * jsval => translatable p.2) props).
  assert (forall i key value, props !! i = Some (key, value) ->
            translatable value = true ->
            selected !! rank props.*2 i = Some (key, value)) as Hsel.
  { intros i key value Hi Ht. rewrite rank_values.
    by apply (filter_lookup_rank (fun p : jsstring * jsval => translatable p.2)). }
  destruct (selected.*2) as [|t texts] eqn:Hsome.
  { intros [= <- <-]. exists props. split; [done|]. split; [done|].
    intros i key value Hi. destruct (translatable value) eqn:Ht; [|done].
    exfalso. apply fmap_nil_inv in Hsome. specialize (Hsel i key value Hi Ht).
    by rewrite Hsome in Hsel. }
  rewrite <- Hsome. unfold bind.
  destruct (translateTextsBatch remote toLowerCase selected.*2 w)
    as [[translatedTexts|e] w1] eqn:Hb; [|done].
  intros [= <- <-].
  destruct (translateTextsBatch_spec remote toLowerCase _ _ _ _ Hb)
    as (Hlen & _ & Htr & _).
  assert (Forall (fun x => translatable x = true) selected.*2) as Hall.
  { apply Forall_fmap, Forall_forall. intros p Hp. simpl.
    apply list_elem_of_filter in Hp as [Hp _]. by apply Is_true_true. }
  assert (NoDup selected.*1) as Hndsel.
  { apply (sublist_NoDup selected.*1 props.*1); [done|].
    apply fmap_sublist, sublist_filter. }
  destruct (assign_all_lookup selected.*1 props translatedTexts Hndsel)
    as (Hk & Hin & Hout).
  { intros k Hk. apply list_elem_of_fmap in Hk as (p & -> & Hp).
    apply list_elem_of_filter in Hp as [_ Hp]. apply list_elem_of_fmap. eauto. }
  cbv zeta in *.
  set (translatedData := foldl_i (assign_translated selected.*1) props translatedTexts) in *.
  exists translatedData. split; [done|].
  split; [by rewrite <- (length_fmap fst translatedData), Hk, length_fmap|].
  intros i key value Hi.
  assert (exists value', translatedData !! i = Some (key, value')) as [value' Hi'].
  { assert (translatedData.*1 !! i = Some key) as H
      by (by rewrite Hk, list_lookup_fmap, Hi).
    rewrite list_lookup_fmap in H.
    destruct (translatedData !! i) as [[key' value']|]; [|done].
    injection H as ->. eauto. }
  assert (assoc key translatedData = Some value') as Ha.
  { apply (assoc_lookup translatedData i); [by rewrite Hk|done]. }
  destruct (translatable value) eqn:Ht.
  - specialize (Hsel i key value Hi Ht).
    assert (selected.*1 !! rank props.*2 i = Some key) as Hkey
      by (by rewrite list_lookup_fmap, Hsel).
    assert (selected.*2 !! rank props.*2 i = Some value) as Hval
      by (by rewrite list_lookup_fmap, Hsel).
    rewrite (Hin _ _ Hkey) in Ha.
    destruct (decide _) as [_|Hge];
      [|exfalso; apply Hge; rewrite Hlen; by eapply lookup_lt_Some].
    apply translatable_string in Ht as Hstr. destruct Hstr as (t0 & -> & _).
    destruct (Htr _ t0 Hval Ht) as (s & Hs & Hfrom).
    rewrite Hs in Ha. injection Ha as <-. exists s. split; [done|].
    rewrite (rank_all_translatable selected.*2) in Hfrom; [done|done|].
    apply lookup_lt_Some in Hval. lia.
  - rewrite Hout in Ha.
    + rewrite (assoc_lookup props i key value Hnd Hi) in Ha. by injection Ha as <-.
    + intros Hkey. apply list_elem_of_fmap in Hkey as ([key' value0] & Heq & Hp).
      simpl in Heq. subst key'.
      apply list_elem_of_filter in Hp as [Hp Hin']. apply Is_true_true in Hp.
      simpl in Hp.
      assert (value0 = value) as ->; [|congruence].
      apply (assoc_elem_of props key value0 Hnd) in Hin'.
      rewrite (assoc_lookup props i key value Hnd Hi) in Hin'. congruence.
Qed.

(** X6: [execJSON] of the OpenAI translator, on an object as [JSON.parse]
    builds it, returns an object with the same properties in the same
    order, in which a value that is not a string to translate is kept and
    a string to translate is a string: itself, or the one that the service
    sent under the rank of the property among those to translate. *)
Theorem execJSON_translates_in_place
  (props : list (jsstring * jsval)) (w : world) (out : jsval) (w' : world) :
  NoDup props.*1 ->
  execJSON remote toLowerCase (VObj props) w = (Return out, w') ->
  exists props',
    out = VObj props' /\ length props' = length props
    /\ forall i key value, props !! i = Some (key, value) ->
         if translatable value
         then exists s, props' !! i = Some (key, VStr s)
                /\ (s = string_of value
                    \/ replied remote (calls w) (calls w') (rank props.*2 i) s)
         else props' !! i = Some (key, value).
Proof. exact (execJSON_run props w out w'). Qed.

End ExecJsonValues.

Lemma execJSON_translates_in_place_witness :
  let r := OpenAITranslator.execJSON (fun _ => Parsed Samples.partial_reply)
             Samples.ascii_lower
             (VObj [(js "a", VStr (js "Hello")); (js "n", VNum (Finite 5));
                    (js "b", VStr (js "World"))]) Samples.fresh_world in
  exists props',
    r.1 = Return (VObj props')
    /\ props' !! 1 = Some (js "n", VNum (Finite 5))
    /\ exists s, props' !! 2 = Some (js "b", VStr s)
         /\ (s = js "World"
             \/ Provenance.replied (fun _ => Parsed Samples.partial_reply)
                  0 (calls r.2) 1 s).
Proof.
  intros r.
  destruct (execJSON_translates_in_place (fun _ => Parsed Samples.partial_reply)
              Samples.ascii_lower
              [(js "a", VStr (js "Hello")); (js "n", VNum (Finite 5));
               (js "b", VStr (js "World"))] Samples.fresh_world
              (VObj [(js "a", VStr (js "Bonjour")); (js "n", VNum (Finite 5));
                     (js "b", VStr (js "World"))]) r.2
              ltac:(compute_done) ltac:(vm_compute; reflexivity))
    as (props' & Hout & _ & Hvals).
  exists props'. split; [by rewrite <- Hout; vm_compute|].
  split; [exact (Hvals 1 (js "n") (VNum (Finite 5)) eq_refl)|].
  exact (Hvals 2 (js "b") (VStr (js "World")) eq_refl).
Defined.


(** ** The coordinator: batches *)

Section BatchingFacts.

Import Pipeline.

(** What the loop has built after any number of texts: full batches, and
    a batch in progress that is not full; together they hold the texts
    seen so far, in order, each with its index. *)
Lemma push_text_invariant (l : list textInfo) :
  let st := OpenAITranslator.foldl_i push_text (mk_batching [] [] []) l in
  mjoin (Main.texts <$> langTextBatches st) ++ currentBatchTexts st = text <$> l
  /\ mjoin (Main.indices <$> langTextBatches st) ++ currentBatchIndices st
     = seq 0 (length l)
  /\ Forall (fun b => length (Main.texts b) = MAX_TEXTS_PER_BATCH
                      /\ length (Main.indices b) = MAX_TEXTS_PER_BATCH)
       (langTextBatches st)
  /\ length (currentBatchTexts st) < MAX_TEXTS_PER_BATCH
  /\ length (currentBatchIndices st) = length (currentBatchTexts st).
Proof.
  induction l as [|x l IH] using rev_ind.
  { cbv zeta. unfold OpenAITranslator.foldl_i, MAX_TEXTS_PER_BATCH. simpl.
    repeat split; try done; lia. }
  cbv zeta in *. rewrite foldl_i_snoc.
  destruct (OpenAITranslator.foldl_i push_text (mk_batching [] [] []) l)
    as [batches cur idx]. cbn [langTextBatches currentBatchTexts currentBatchIndices] in IH.
  destruct IH as (Ht & Hi & Hfull & Hlt & Hlen).
  unfold push_text. cbn [langTextBatches currentBatchTexts currentBatchIndices].
  rewrite (fmap_app text l [x]), (length_app l [x]), seq_app.
  cbn [fmap list_fmap length seq Nat.add].
  destruct (MAX_TEXTS_PER_BATCH <=? length (cur ++ [text x])) eqn:E;
    cbn [langTextBatches currentBatchTexts currentBatchIndices].
  - apply Nat.leb_le in E. rewrite length_app in E. simpl in E.
    rewrite !fmap_app, !join_app. cbn [fmap list_fmap Main.texts Main.indices mjoin].
    repeat match goal with
           | |- context [list_join ?A [?a]] =>
               change (list_join A [a]) with (a ++ @nil A)
           end.
    rewrite !app_nil_r. rewrite !app_assoc, Ht, Hi.
    repeat split; try done.
    + apply Forall_app. split; [done|]. constructor; [|done].
      cbn [Main.texts Main.indices]. rewrite !length_app. simpl. lia.
    + unfold MAX_TEXTS_PER_BATCH. simpl. lia.
  - apply Nat.leb_gt in E. rewrite length_app in E. simpl in E.
    rewrite !app_assoc, Ht, Hi. repeat split; try done.
    + rewrite length_app. simpl. lia.
    + rewrite !length_app. simpl. lia.
Qed.

(** The batches hold every text exactly once and in order: put end to
    end, their texts are the texts to translate and their indices are
    0, 1, 2, ... *)
Lemma make_batches_joined (l : list textInfo) :
  mjoin (Main.texts <$> make_batches l) = text <$> l
  /\ mjoin (Main.indices <$> make_batches l) = seq 0 (length l).
Proof.
  destruct (push_text_invariant l) as (Ht & Hi & _ & _ & Hlen). cbv zeta in *.
  unfold make_batches.
  destruct (OpenAITranslator.foldl_i push_text (mk_batching [] [] []) l)
    as [batches cur idx]. cbn [langTextBatches currentBatchTexts currentBatchIndices] in *.
  destruct (0 <? length cur) eqn:E.
  - rewrite !fmap_app, !join_app. cbn [fmap list_fmap Main.texts Main.indices mjoin].
    repeat match goal with
           | |- context [list_join ?A [?a]] =>
               change (list_join A [a]) with (a ++ @nil A)
           end.
    by rewrite !app_nil_r.
  - apply Nat.ltb_ge in E. destruct cur; [|simpl in E; lia].
    destruct idx; [|done]. by rewrite !app_nil_r in Ht, Hi.
Qed.

(** No batch is empty or has more than [MAX_TEXTS_PER_BATCH] texts;
    every batch but the last has exactly that many; a batch has as many
    indices as texts; and there are [ceil(n / MAX_TEXTS_PER_BATCH)] batches
    for [n] texts. *)
Lemma make_batches_lengths (l : list textInfo) :
  Forall (fun b => 0 < length (Main.texts b) <= MAX_TEXTS_PER_BATCH
                   /\ length (Main.indices b) = length (Main.texts b))
    (make_batches l)
  /\ (forall i b, make_batches l !! i = Some b -> S i < length (make_batches l) ->
        length (Main.texts b) = MAX_TEXTS_PER_BATCH)
  /\ length (make_batches l)
     = (length l + (MAX_TEXTS_PER_BATCH - 1)) / MAX_TEXTS_PER_BATCH.
Proof.
  destruct (push_text_invariant l) as (Ht & Hi & Hfull & Hlt & Hlen). cbv zeta in *.
  unfold make_batches.
  destruct (OpenAITranslator.foldl_i push_text (mk_batching [] [] []) l)
    as [batches cur idx]. cbn [langTextBatches currentBatchTexts currentBatchIndices] in *.
  assert (length l = MAX_TEXTS_PER_BATCH * length batches + length cur) as Hn.
  { apply (f_equal length) in Ht. rewrite length_app, length_fmap in Ht.
    rewrite <- Ht. f_equal. clear -Hfull.
    induction Hfull as [|b batches [Hb _] _ IH]; [simpl; lia|].
    rewrite fmap_cons.
    change (mjoin (Main.texts b :: (Main.texts <$> batches)))
      with (Main.texts b ++ mjoin (Main.texts <$> batches)).
    rewrite length_app, IH, Hb. simpl. lia. }
  assert (Forall (fun b => 0 < length (Main.texts b) <= MAX_TEXTS_PER_BATCH
                           /\ length (Main.indices b) = length (Main.texts b)) batches)
    as Hfull'.
  { eapply Forall_impl; [exact Hfull|]. simpl. intros b [-> ->].
    unfold MAX_TEXTS_PER_BATCH. lia. }
  destruct (0 <? length cur) eqn:E.
  - apply Nat.ltb_lt in E. split; [|split].
    + apply Forall_app. split; [done|]. constructor; [|done].
      cbn [Main.texts Main.indices]. split; [lia|done].
    + intros i b Hb Hi'. rewrite length_app in Hi'. simpl in Hi'.
      rewrite lookup_app_l in Hb by lia.
      rewrite Forall_lookup in Hfull. by destruct (Hfull i b Hb).
    + rewrite length_app, Hn. cbn [length].
      apply (Nat.div_unique _ _ _ (length cur - 1));
        unfold MAX_TEXTS_PER_BATCH in *; lia.
  - apply Nat.ltb_ge in E. assert (length cur = 0) as Hc by lia. split; [done|split].
    + intros i b Hb Hi'. rewrite Forall_lookup in Hfull. by destruct (Hfull i b Hb).
    + rewrite Hn, Hc.
      apply (Nat.div_unique _ _ _ (MAX_TEXTS_PER_BATCH - 1));
        unfold MAX_TEXTS_PER_BATCH in *; lia.
Qed.

End BatchingFacts.


(** ** The coordinator: one batch task *)

Section TaskFacts.

Import OpenAITranslator Provenance.

Variable remote : nat -> api_outcome.
Variable toLowerCase : jsstring -> jsstring.

(** The loop that stores the translations of a batch, run over a map with
    one entry per key and a table of indices without repetition. *)
Lemma record_all (batch : Main.lang_batch) (M : jsmap) :
  NoDup (Main.indices batch) -> NoDup M.*1 ->
  forall m,
    let m' := Main.record_results batch M m in
    (forall p i v, Main.indices batch !! p = Some i -> map_get p M = Some v ->
       map_get i m' = Some v)
    /\ (forall i, (forall p, Main.indices batch !! p = Some i -> map_get p M = None) ->
          map_get i m' = map_get i m).
Proof.
  intros Hidx. unfold Main.record_results.
  induction M as [|[p v] M IH]; intros Hnd m; [done|].
  rewrite fmap_cons in Hnd. apply NoDup_cons in Hnd as [Hp Hnd]. simpl in Hp.
  cbn [foldl fst snd].
  set (m1 := match Main.indices batch !! p with
             | Some i => map_set i v m
             | None => m
             end).
  destruct (IH Hnd m1) as [Hset Hkeep]. cbv zeta. split.
  - intros q i v0 Hq. cbn [map_get]. destruct (decide (q = p)) as [->|Hne].
    + intros [= <-]. rewrite Hkeep.
      * unfold m1. rewrite Hq, map_get_map_set. by destruct (decide (i = i)).
      * intros q' Hq'.
        assert (q' = p) as -> by (eapply (NoDup_lookup (Main.indices batch)); eauto).
        by apply map_get_None_keys.
    + by apply Hset.
  - intros i Hi. rewrite Hkeep.
    + unfold m1. destruct (Main.indices batch !! p) as [i'|] eqn:Hp'; [|done].
      rewrite map_get_map_set. destruct (decide (i = i')) as [->|]; [|done].
      specialize (Hi p Hp'). cbn [map_get] in Hi. by destruct (decide (p = p)).
    + intros q Hq. specialize (Hi q Hq). cbn [map_get] in Hi.
      by destruct (decide (q = p)).
Qed.

(** What one task of [langTranslationPromises] does when no fatal error
    has been met before. *)
Lemma lang_batch_task_run (batch : Main.lang_batch) (st : Main.shared) w :
  Main.fatalApiError st = false ->
  length (Main.indices batch) = length (Main.texts batch) ->
  NoDup (Main.indices batch) ->
  let r := Main.lang_batch_task remote toLowerCase batch st w in
  match r.1.1 with
  | Return _ =>
      Main.fatalApiError r.1.2 = false
      /\ (forall k t i,
            Main.texts batch !! k = Some t -> Main.indices batch !! k = Some i ->
            exists s, map_get i (Main.translatedLangTextMap r.1.2) = Some (VStr s)
                      /\ (s = t \/ replied remote (calls w) (calls r.2) k s))
      /\ (forall i, i ∉ Main.indices batch ->
            map_get i (Main.translatedLangTextMap r.1.2)
            = map_get i (Main.translatedLangTextMap st))
  | Throw e =>
      Main.is_fatal_message (message e) = true
      /\ Main.fatalApiError r.1.2 = true
      /\ Main.translatedLangTextMap r.1.2 = Main.translatedLangTextMap st
  end.
Proof.
  intros Hst Hlen Hnd. cbv zeta. unfold Main.lang_batch_task. rewrite Hst.
  destruct (translateBatchInternal remote toLowerCase (Main.texts batch)
              (seq 0 (length (Main.texts batch))) 0 w) as [[M|e] w'] eqn:HM.
  - cbn [fst snd Main.fatalApiError Main.translatedLangTextMap].
    destruct (translateBatchInternal_values remote toLowerCase _ _ _ _ _ _
                (NoDup_seq _ _) (length_seq _ _) HM) as [Hkeys Hvals].
    pose proof (translateBatchInternal_NoDup remote toLowerCase _ _ _ _ _ _ HM) as HndM.
    destruct (record_all batch M Hnd HndM (Main.translatedLangTextMap st))
      as [Hset Hkeep]. cbv zeta in Hset, Hkeep.
    split; [done|]. split.
    + intros k t i Ht Hi.
      destruct (Hvals k k t) as (s & Hs & Hfrom); [|done|].
      { apply lookup_seq. split; [done|]. by eapply lookup_lt_Some. }
      exists s. split; [|done]. by eapply Hset.
    + intros i Hi. apply Hkeep. intros p Hp. exfalso. apply Hi.
      by eapply list_elem_of_lookup_2.
  - assert ((translateBatchInternal remote toLowerCase (Main.texts batch)
               (seq 0 (length (Main.texts batch))) 0 w).1 = Throw e) as Hthrow
      by (by rewrite HM).
    apply translateBatchInternal_thrown in Hthrow
      as (_ & error & _ & [(_ & ->)|(_ & _ & ->)]).
    + done.
    + done.
Qed.

End TaskFacts.


(** ** The coordinator: from the batches to the map of translations *)

Section BatchTask.

Import OpenAITranslator Provenance Pipeline.

Variable remote : nat -> api_outcome.
Variable toLowerCase : jsstring -> jsstring.

Lemma NoDup_mjoin_elem {A} (ls : list (list A)) (l : list A) :
  NoDup (mjoin ls) -> l ∈ ls -> NoDup l.
Proof.
  induction ls as [|l0 ls IH]; [by intros _ ?%elem_of_nil|].
  change (mjoin (l0 :: ls)) with (l0 ++ mjoin ls).
  intros (H0 & _ & Hrest)%NoDup_app [->|Hin]%elem_of_cons; [done|by apply IH].
Qed.

(** Two lists cut at the same places: what the pieces hold at one position
    the lists hold at one position. *)
Lemma mjoin_aligned {A B C} (f : C -> list A) (g : C -> list B) (bs : list C)
  (b : C) k x y :
  Forall (fun b => length (g b) = length (f b)) bs -> b ∈ bs ->
  f b !! k = Some x -> g b !! k = Some y ->
  exists n, mjoin (f <$> bs) !! n = Some x /\ mjoin (g <$> bs) !! n = Some y.
Proof.
  intros Hall Hin Hx Hy. induction Hall as [|b0 bs Hb0 _ IH]; [by apply elem_of_nil in Hin|].
  rewrite !fmap_cons.
  change (mjoin (f b0 :: (f <$> bs))) with (f b0 ++ mjoin (f <$> bs)).
  change (mjoin (g b0 :: (g <$> bs))) with (g b0 ++ mjoin (g <$> bs)).
  apply elem_of_cons in Hin as [->|Hin].
  - exists k. split; by apply lookup_app_l_Some.
  - destruct (IH Hin) as (n & Hn1 & Hn2). exists (length (f b0) + n). split.
    + rewrite lookup_app_r by lia. by replace (length (f b0) + n - length (f b0)) with n by lia.
    + rewrite lookup_app_r by lia. by replace (length (f b0) + n - length (g b0)) with n by lia.
Qed.

(** A batch of the coordinator: as many indices as texts, no index twice,
    and at each position the index of a text and that text. *)
Lemma make_batches_elem (l : list textInfo) (batch : Main.lang_batch) :
  batch ∈ make_batches l ->
  length (Main.indices batch) = length (Main.texts batch)
  /\ NoDup (Main.indices batch)
  /\ forall k t i, Main.texts batch !! k = Some t -> Main.indices batch !! k = Some i ->
       exists info, l !! i = Some info /\ text info = t.
Proof.
  intros Hin.
  destruct (make_batches_joined l) as [Ht Hi].
  destruct (make_batches_lengths l) as (Hsizes & _ & _).
  assert (Forall (fun b => length (Main.indices b) = length (Main.texts b))
            (make_batches l)) as Hlens.
  { eapply Forall_impl; [exact Hsizes|]. by intros b [_ ?]. }
  split; [|split].
  - rewrite Forall_forall in Hlens. by apply Hlens.
  - apply (NoDup_mjoin_elem (Main.indices <$> make_batches l)).
    + rewrite Hi. apply NoDup_seq.
    + by apply list_elem_of_fmap_2.
  - intros k t i Hk Hi'.
    destruct (mjoin_aligned Main.texts Main.indices (make_batches l) batch k t i
                Hlens Hin Hk Hi') as (n & Hn1 & Hn2).
    rewrite Hi in Hn2. apply lookup_seq in Hn2 as [Heq _]. simpl in Heq. subst i.
    rewrite Ht, list_lookup_fmap in Hn1.
    destruct (l !! n) as [info|] eqn:E; [|done]. injection Hn1 as <-. eauto.
Qed.

(** X7: the batches hold every text exactly once and in order: put end to
    end, their texts are the texts to translate and their indices are
    0, 1, 2, ... *)
Theorem make_batches_partition (l : list textInfo) :
  mjoin (Main.texts <$> make_batches l) = text <$> l
  /\ mjoin (Main.indices <$> make_batches l) = seq 0 (length l).
Proof. exact (make_batches_joined l). Qed.

(** X8: no batch is empty or has more than [MAX_TEXTS_PER_BATCH] texts;
    every batch but the last has exactly that many; a batch has as many
    indices as texts; and there are [ceil(n / MAX_TEXTS_PER_BATCH)] batches
    for [n] texts. *)
Theorem make_batches_sizes (l : list textInfo) :
  Forall (fun b => 0 < length (Main.texts b) <= MAX_TEXTS_PER_BATCH
                   /\ length (Main.indices b) = length (Main.texts b))
    (make_batches l)
  /\ (forall i b, make_batches l !! i = Some b -> S i < length (make_batches l) ->
        length (Main.texts b) = MAX_TEXTS_PER_BATCH)
  /\ length (make_batches l)
     = (length l + (MAX_TEXTS_PER_BATCH - 1)) / MAX_TEXTS_PER_BATCH.
Proof. exact (make_batches_lengths l). Qed.

(** X9: a task of [langTranslationPromises] on a batch that the coordinator
    made, run when no fatal error has been met.  If it returns, no fatal
    error is flagged, every index of the batch has in
    [translatedLangTextMap] a string, the text at that index or the string
    that the service sent for its position in the batch, and no other entry
    of the map has changed.  If it throws, the message is one of the two
    fatal ones, the flag is set and the map is as it was. *)
Theorem lang_batch_task_stores_strings (l : list textInfo)
  (batch : Main.lang_batch) (st : Main.shared) (w : world) :
  batch ∈ make_batches l ->
  Main.fatalApiError st = false ->
  let r := Main.lang_batch_task remote toLowerCase batch st w in
  match r.1.1 with
  | Return _ =>
      Main.fatalApiError r.1.2 = false
      /\ (forall k i, Main.indices batch !! k = Some i ->
            exists info s,
              l !! i = Some info
              /\ map_get i (Main.translatedLangTextMap r.1.2) = Some (VStr s)
              /\ (s = text info \/ replied remote (calls w) (calls r.2) k s))
      /\ (forall i, i ∉ Main.indices batch ->
            map_get i (Main.translatedLangTextMap r.1.2)
            = map_get i (Main.translatedLangTextMap st))
  | Throw e =>
      Main.is_fatal_message (message e) = true
      /\ Main.fatalApiError r.1.2 = true
      /\ Main.translatedLangTextMap r.1.2 = Main.translatedLangTextMap st
  end.
Proof.
  intros Hin Hst. destruct (make_batches_elem l batch Hin) as (Hlen & Hnd & Hpos).
  pose proof (lang_batch_task_run remote toLowerCase batch st w Hst Hlen Hnd) as H.
  cbv zeta in *.
  destruct (Main.lang_batch_task remote toLowerCase batch st w).1.1; [|done].
  destruct H as (Hflag & Hvals & Hkeep). split; [done|]. split; [|done].
  intros k i Hi.
  destruct (lookup_lt_is_Some_2 (Main.texts batch) k) as [t Ht].
  { rewrite <- Hlen. by eapply lookup_lt_Some. }
  destruct (Hpos k t i Ht Hi) as (info & Hinfo & <-).
  destruct (Hvals k (text info) i Ht Hi) as (s & Hs & Hfrom). eauto.
Qed.

End BatchTask.

Lemma lang_batch_task_stores_strings_witness :
  let r := Main.lang_batch_task (fun _ => Parsed Samples.partial_reply)
             Samples.ascii_lower (Main.mk_batch [js "Hello"; js "World"] [0; 1])
             (Main.mk_shared false []) Samples.fresh_world in
  r.1.1 = Return tt
  /\ exists info s,
       [Pipeline.mk_textInfo (js "Hello") 0 (Some (js "greeting")) None;
        Pipeline.mk_textInfo (js "World") 0 (Some (js "planet")) None] !! 1
       = Some info
       /\ map_get 1 (Main.translatedLangTextMap r.1.2) = Some (VStr s)
       /\ (s = Pipeline.text info
           \/ Provenance.replied (fun _ => Parsed Samples.partial_reply)
                0 (calls r.2) 1 s).
Proof.
  intros r.
  pose proof (lang_batch_task_stores_strings (fun _ => Parsed Samples.partial_reply)
                Samples.ascii_lower
                [Pipeline.mk_textInfo (js "Hello") 0 (Some (js "greeting")) None;
                 Pipeline.mk_textInfo (js "World") 0 (Some (js "planet")) None]
                (Main.mk_batch [js "Hello"; js "World"] [0; 1])
                (Main.mk_shared false []) Samples.fresh_world
                ltac:(vm_compute; left) eq_refl) as H.
  cbv zeta in H. fold r in H.
  assert (r.1.1 = Return tt) as Hr by (vm_compute; reflexivity).
  rewrite Hr in H. split; [exact Hr|].
  destruct H as (_ & Hvals & _). exact (Hvals 1 1 eq_refl).
Defined.


(** ** The coordinator: putting the translations back *)

Section PutBackFacts.

Import Pipeline LocalFormat.

Variable translatedLangTextMap : gmap nat jsstring.

#[local] Abbreviation step :=
  (fun (recon : list reconData) (p : nat * textInfo) =>
     match put_back translatedLangTextMap p.1 p.2 (recon !! originalFileIndex p.2) with
     | Some entry => <[originalFileIndex p.2 := entry]> recon
     | None => recon
     end).

Lemma put_back_all_steps texts recon :
  put_back_all translatedLangTextMap texts recon = foldl step recon (imap pair texts).
Proof. reflexivity. Qed.

(** The texts of other files leave the entry of a file alone. *)
Lemma other_files_steps f (steps : list (nat * textInfo)) recon :
  Forall (fun p => originalFileIndex p.2 <> f) steps ->
  foldl step recon steps !! f = recon !! f.
Proof.
  revert recon. induction steps as [|[index info] steps IH]; intros recon Hall; [done|].
  apply Forall_cons in Hall as [Hne Hall]. simpl in Hne.
  cbn [foldl]. rewrite IH by done. cbn [fst snd].
  destruct (put_back _ _ _ _); [|done].
  by apply list_lookup_insert_ne.
Qed.

Lemma update_found_here test t (before rest : list parsed_line) line :
  Forall (fun l => test l = false) before -> test line = true ->
  update_found test t (before ++ line :: rest)
  = before ++ set_translatedValue t line :: rest.
Proof.
  intros Hdone Hline. induction Hdone as [|l before Hl _ IH]; cbn [app update_found].
  - by rewrite Hline.
  - by rewrite Hl, IH.
Qed.

Lemma translated_lines_cons base line data :
  translated_lines translatedLangTextMap base (line :: data)
  = (if is_text_line line
     then set_translatedValue
            (default (default [] (value line)) (translatedLangTextMap !! base)) line
     else line)
    :: translated_lines translatedLangTextMap
         (base + if is_text_line line then 1 else 0) data.
Proof.
  unfold translated_lines. rewrite imap_cons. rewrite line_rank_0, Nat.add_0_r.
  f_equal. apply imap_ext. intros i x _. simpl. rewrite line_rank_S.
  by rewrite Nat.add_assoc.
Qed.

Lemma local_texts_cons f line data :
  local_texts f (line :: data)
  = (if is_text_line line
     then [mk_textInfo (default [] (value line)) f None (Some (lineNumber line))]
     else [])
    ++ local_texts f data.
Proof. unfold local_texts. cbn [omap list_omap]. by destruct (is_text_line line). Qed.

Lemma local_texts_file f data :
  Forall (fun info => originalFileIndex info = f) (local_texts f data).
Proof.
  induction data as [|line data IH]; [constructor|].
  rewrite local_texts_cons. apply Forall_app. split; [|done].
  destruct (is_text_line line); repeat constructor.
Qed.

(** The texts of a [.local] file, put back one after the other. *)
Lemma local_steps f namespace originalPathInJar (rest : list parsed_line) :
  forall before base recon,
    recon !! f = Some (recon_local (before ++ rest) namespace originalPathInJar) ->
    (forall l l', l ∈ before -> l' ∈ rest -> lineNumber l <> lineNumber l') ->
    NoDup (lineNumber <$> rest) ->
    foldl step recon (imap (fun j info => (base + j, info)) (local_texts f rest)) !! f
    = Some (recon_local (before ++ translated_lines translatedLangTextMap base rest)
              namespace originalPathInJar).
Proof.
  induction rest as [|line rest IH]; intros before base recon Hf Hdiff Hnd; [done|].
  rewrite fmap_cons in Hnd. apply NoDup_cons in Hnd as [Hfresh Hnd].
  rewrite local_texts_cons, translated_lines_cons.
  assert (forall x : parsed_line,
             lineNumber x = lineNumber line ->
             forall l l', l ∈ before ++ [x] -> l' ∈ rest -> lineNumber l <> lineNumber l')
    as Hdiff'.
  { intros x Hx l l' [Hl|Hl%list_elem_of_singleton]%elem_of_app Hl'.
    - apply Hdiff; [done|by right].
    - subst l. rewrite Hx. intros E. apply Hfresh. rewrite E.
      apply list_elem_of_fmap. by exists l'. }
  destruct (is_text_line line) eqn:Hline.
  - rewrite imap_app. cbn [imap app foldl length]. rewrite Nat.add_0_r. cbn [fst snd].
    cbn [originalFileIndex]. rewrite Hf. unfold put_back at 2.
    cbn [originalLineNumber].
    rewrite update_found_here.
    + unfold translatedText. cbn [text].
      set (x := set_translatedValue _ line).
      rewrite (imap_ext _ (fun j info => (base + 1 + j, info)))
        by (intros j info _; simpl; f_equal; lia).
      rewrite (IH (before ++ [x]) (base + 1)).
      * by rewrite <- app_assoc.
      * rewrite list_lookup_insert_eq by (by eapply lookup_lt_Some).
        by rewrite <- app_assoc.
      * by apply Hdiff'.
      * done.
    + apply Forall_forall. intros l Hl. unfold is_line.
      rewrite bool_decide_eq_false_2; [done|]. intros [= E].
      apply (Hdiff l line Hl); [by left|done].
    + unfold is_line. rewrite bool_decide_eq_true_2 by done.
      unfold is_text_line in Hline. destruct (type line); try done.
  - cbn [app]. rewrite Nat.add_0_r.
    rewrite (IH (before ++ [line]) base recon).
    + by rewrite <- app_assoc.
    + by rewrite <- app_assoc.
    + by apply Hdiff'.
    + done.
Qed.

Lemma imap_steps_other f (g : nat -> textInfo -> nat * textInfo) (texts : list textInfo) :
  (forall j info, (g j info).2 = info) ->
  Forall (fun info => originalFileIndex info <> f) texts ->
  Forall (fun p : nat * textInfo => originalFileIndex p.2 <> f) (imap g texts).
Proof.
  intros Hg. rewrite !Forall_lookup. intros H j p. rewrite list_lookup_imap.
  destruct (texts !! j) as [info'|] eqn:E; [|done].
  simpl. intros [= <-]. rewrite Hg. by eapply H.
Qed.

(** The entry of a [.local] file once all translations are put back. *)
Lemma put_back_local_file f namespace originalPathInJar data pre post recon :
  Forall (fun info => originalFileIndex info <> f) pre ->
  Forall (fun info => originalFileIndex info <> f) post ->
  recon !! f = Some (recon_local data namespace originalPathInJar) ->
  NoDup (lineNumber <$> data) ->
  put_back_all translatedLangTextMap (pre ++ local_texts f data ++ post) recon !! f
  = Some (recon_local (translated_lines translatedLangTextMap (length pre) data)
            namespace originalPathInJar).
Proof.
  intros Hpre Hpost Hf Hnd. rewrite put_back_all_steps.
  rewrite !imap_app, !foldl_app.
  rewrite other_files_steps by (by apply imap_steps_other).
  rewrite (imap_ext _ (fun j info => (length pre + j, info)) (local_texts f data))
    by done.
  rewrite (local_steps f namespace originalPathInJar data []); try done.
  - rewrite other_files_steps; [done|]. by apply imap_steps_other.
  - by intros l l' ?%elem_of_nil.
Qed.

(** What [reconstructLocal] writes for the lines so translated. *)
Lemma reconstruct_translated_lines base data :
  reconstructLocal (translated_lines translatedLangTextMap base data)
  = join [LF]
      (imap (fun i line =>
               if is_text_line line
               then tmpl (key line) ++ js "="
                    ++ default (default [] (value line))
                         (translatedLangTextMap !! (base + line_rank data i))
               else reconstruct_item line) data).
Proof.
  unfold reconstructLocal. f_equal. apply list_eq. intros i.
  unfold translated_lines. rewrite list_lookup_fmap, !list_lookup_imap.
  destruct (data !! i) as [line|]; [|done]. simpl. f_equal.
  destruct (is_text_line line) eqn:Hline; [|done].
  unfold is_text_line in Hline. unfold reconstruct_item, set_translatedValue.
  destruct (type line) eqn:Hty; done.
Qed.

End PutBackFacts.


Section PutBackJson.

Import Pipeline.

Variable translatedLangTextMap : gmap nat jsstring.

#[local] Abbreviation step :=
  (fun (recon : list reconData) (p : nat * textInfo) =>
     match put_back translatedLangTextMap p.1 p.2 (recon !! originalFileIndex p.2) with
     | Some entry => <[originalFileIndex p.2 := entry]> recon
     | None => recon
     end).

Implicit Types (entries rest before : list (jsstring * jsval)).

Lemma json_texts_cons f (p : jsstring * jsval) entries :
  json_texts f (p :: entries)
  = (if translatable p.2
     then [mk_textInfo (string_of p.2) f (Some p.1) None]
     else [])
    ++ json_texts f entries.
Proof.
  unfold json_texts. destruct p as [key v]. cbn [omap list_omap fst snd].
  by destruct (translatable v).
Qed.

Lemma translated_entries_cons base (p : jsstring * jsval) entries :
  translated_entries translatedLangTextMap base (p :: entries)
  = (if translatable p.2 && negb (isEmpty p.1)
     then (p.1, VStr (default (string_of p.2) (translatedLangTextMap !! base)))
     else p)
    :: translated_entries translatedLangTextMap
         (base + if translatable p.2 then 1 else 0) entries.
Proof.
  unfold translated_entries. rewrite imap_cons. rewrite fmap_cons, rank_0, Nat.add_0_r.
  f_equal. apply imap_ext. intros i x _. simpl. rewrite rank_S.
  by rewrite Nat.add_assoc.
Qed.

Lemma set_existing_here key x v before rest :
  key ∉ before.*1 ->
  set_existing key x (before ++ (key, v) :: rest) = before ++ (key, x) :: rest.
Proof.
  induction before as [|[k0 v0] before IH]; intros Hnew; cbn [app set_existing].
  - by destruct (decide (key = key)).
  - rewrite fmap_cons in Hnew. apply not_elem_of_cons in Hnew as [Hne Hnew].
    simpl in Hne. destruct (decide (key = k0)); [done|]. by rewrite IH.
Qed.

(** The texts of a JSON file, put back one after the other. *)
Lemma json_steps f namespace originalPathInJar rest :
  forall before base recon,
    recon !! f = Some (recon_json (VObj (before ++ rest)) namespace originalPathInJar) ->
    NoDup (before ++ rest).*1 ->
    foldl step recon (imap (fun j info => (base + j, info)) (json_texts f rest)) !! f
    = Some (recon_json
              (VObj (before ++ translated_entries translatedLangTextMap base rest))
              namespace originalPathInJar).
Proof.
  induction rest as [|[key v] rest IH]; intros before base recon Hf Hnd; [done|].
  rewrite json_texts_cons, translated_entries_cons. cbn [fst snd].
  assert (key ∉ before.*1) as Hnew.
  { rewrite fmap_app, fmap_cons in Hnd. apply NoDup_app in Hnd as (_ & Hdisj & _).
    intros Hin. apply (Hdisj key Hin). by left. }
  assert (forall x, NoDup ((before ++ [(key, x)]) ++ rest).*1) as Hnd'.
  { intros x. rewrite <- app_assoc. cbn [app].
    by rewrite fmap_app, fmap_cons in Hnd |- *. }
  destruct (translatable v) eqn:Hv; cbn [andb].
  - rewrite imap_app. cbn [imap app foldl length]. rewrite Nat.add_0_r. cbn [fst snd].
    cbn [originalFileIndex]. rewrite Hf. unfold put_back at 2. cbn [originalKey].
    rewrite (imap_ext _ (fun j info => (base + 1 + j, info)))
      by (intros j info _; simpl; f_equal; lia).
    destruct (isEmpty key) eqn:Hkey; cbn [negb].
    + rewrite (IH (before ++ [(key, v)]) (base + 1)).
      * by rewrite <- app_assoc.
      * rewrite list_lookup_insert_eq by (by eapply lookup_lt_Some).
        by rewrite <- app_assoc.
      * apply Hnd'.
    + unfold translatedText. cbn [text OpenAITranslator.assign].
      unfold set_prop. rewrite bool_decide_eq_true_2.
      2:{ apply assoc_is_Some. rewrite fmap_app, fmap_cons.
          apply elem_of_app. right. by left. }
      rewrite set_existing_here by done.
      set (x := VStr _).
      rewrite (IH (before ++ [(key, x)]) (base + 1)).
      * by rewrite <- app_assoc.
      * rewrite list_lookup_insert_eq by (by eapply lookup_lt_Some).
        by rewrite <- app_assoc.
      * apply Hnd'.
  - cbn [app]. rewrite Nat.add_0_r.
    rewrite (IH (before ++ [(key, v)]) base recon).
    + by rewrite <- app_assoc.
    + by rewrite <- app_assoc.
    + apply Hnd'.
Qed.

(** The entry of a JSON file once all translations are put back. *)
Lemma put_back_json_file f namespace originalPathInJar entries pre post recon :
  Forall (fun info => originalFileIndex info <> f) pre ->
  Forall (fun info => originalFileIndex info <> f) post ->
  recon !! f = Some (recon_json (VObj entries) namespace originalPathInJar) ->
  NoDup entries.*1 ->
  put_back_all translatedLangTextMap (pre ++ json_texts f entries ++ post) recon !! f
  = Some (recon_json
            (VObj (translated_entries translatedLangTextMap (length pre) entries))
            namespace originalPathInJar).
Proof.
  intros Hpre Hpost Hf Hnd. rewrite put_back_all_steps.
  rewrite !imap_app, !foldl_app.
  rewrite other_files_steps by (by apply imap_steps_other).
  rewrite (imap_ext _ (fun j info => (length pre + j, info)) (json_texts f entries))
    by done.
  rewrite (json_steps f namespace originalPathInJar entries []); try done.
  rewrite other_files_steps; [done|]. by apply imap_steps_other.
Qed.

Lemma translated_entries_keys base entries :
  (translated_entries translatedLangTextMap base entries).*1 = entries.*1.
Proof.
  unfold translated_entries. apply list_eq. intros i.
  rewrite !list_lookup_fmap, list_lookup_imap.
  destruct (entries !! i) as [[key v]|]; [|done]. simpl.
  by destruct (translatable v && negb (isEmpty key)).
Qed.

End PutBackJson.


Section PutBackTheorems.

Import Pipeline LocalFormat.

Variable JSON_parse : jsstring -> result jsval.
Variable translatedLangTextMap : gmap nat jsstring.

(** X10: a [.local] file from its content to its translated content.  For a
    file that is read and not empty, once the loop that puts the
    translations back has run over all texts (those of the other files
    before and after the texts of this one), [reconstructLocal] writes, for
    every line of the file in order: [key=translation] when the line is a
    key-value line whose value is not blank, the translation being the
    string stored under the index of the text of that line, or the value
    itself when none is stored; and what it writes for the untranslated
    line otherwise. *)
Theorem put_back_local_translates_lines (fileInfo : Cache.fileInfo) (f : nat)
  (pre post : list textInfo) (recon : list reconData) :
  Cache.isJson fileInfo = false ->
  isEmpty (Cache.content fileInfo) = false ->
  recon !! f = Some (read_lang_file JSON_parse fileInfo f).1 ->
  Forall (fun info => originalFileIndex info <> f) pre ->
  Forall (fun info => originalFileIndex info <> f) post ->
  let parsedLines := parseLocalContent (Cache.content fileInfo) in
  (read_lang_file JSON_parse fileInfo f).2 = local_texts f parsedLines
  /\ exists data,
       put_back_all translatedLangTextMap
         (pre ++ (read_lang_file JSON_parse fileInfo f).2 ++ post) recon !! f
       = Some (recon_local data (Cache.namespace fileInfo)
                 (Cache.originalPathInJar fileInfo))
       /\ reconstructLocal data
          = join [LF]
              (imap (fun i line =>
                       if is_text_line line
                       then tmpl (key line) ++ js "="
                            ++ default (default [] (value line))
                                 (translatedLangTextMap
                                    !! (length pre + line_rank parsedLines i))
                       else reconstruct_item line) parsedLines).
Proof.
  intros Hjson Hcontent Hf Hpre Hpost. cbv zeta.
  unfold read_lang_file in *. rewrite Hcontent, Hjson in *. cbn [fst snd] in *.
  split; [done|]. eexists. split.
  - apply put_back_local_file; try done.
    rewrite parseLocalContent_numbered. apply NoDup_seq.
  - apply reconstruct_translated_lines.
Qed.

(** X11: a JSON lang file from its content to its translated object.  For a
    file whose content parses to an object, once the loop that puts the
    translations back has run over all texts, the object of the file has
    the same keys in the same order; every value that is a string and not
    blank, under a key that is not empty, is the string stored under the
    index of its text, or itself when none is stored; every other value is
    as parsed.  A text under the empty key is sent to the service and its
    translation is dropped. *)
Theorem put_back_json_translates_values (fileInfo : Cache.fileInfo) (f : nat)
  (entries : list (jsstring * jsval)) (pre post : list textInfo)
  (recon : list reconData) :
  Cache.isJson fileInfo = true ->
  isEmpty (Cache.content fileInfo) = false ->
  JSON_parse (Cache.content fileInfo) = Return (VObj entries) ->
  NoDup entries.*1 ->
  recon !! f = Some (read_lang_file JSON_parse fileInfo f).1 ->
  Forall (fun info => originalFileIndex info <> f) pre ->
  Forall (fun info => originalFileIndex info <> f) post ->
  (read_lang_file JSON_parse fileInfo f).2 = json_texts f entries
  /\ put_back_all translatedLangTextMap
       (pre ++ (read_lang_file JSON_parse fileInfo f).2 ++ post) recon !! f
     = Some (recon_json
               (VObj (translated_entries translatedLangTextMap (length pre) entries))
               (Cache.namespace fileInfo) (Cache.originalPathInJar fileInfo))
  /\ (translated_entries translatedLangTextMap (length pre) entries).*1 = entries.*1
  /\ forall i key v,
       entries !! i = Some (key, v) ->
       translated_entries translatedLangTextMap (length pre) entries !! i
       = Some (key,
               if translatable v && negb (isEmpty key)
               then VStr (default (string_of v)
                            (translatedLangTextMap
                               !! (length pre + rank entries.*2 i)))
               else v).
Proof.
  intros Hjson Hcontent Hparse Hnd Hf Hpre Hpost.
  unfold read_lang_file in *. rewrite Hcontent, Hjson, Hparse in *.
  cbn [Object_entries own_props fst snd] in *.
  split; [done|]. split; [by apply put_back_json_file|].
  split; [apply translated_entries_keys|].
  intros i key v Hi. unfold translated_entries. rewrite list_lookup_imap, Hi. simpl.
  by destruct (translatable v && negb (isEmpty key)).
Qed.

End PutBackTheorems.

Lemma put_back_local_translates_lines_witness :
  exists data,
    Pipeline.put_back_all {[0 := js "Bonjour"]}
      ([] ++ Pipeline.local_texts 0
               (LocalFormat.parseLocalContent
                  (js "greeting=Hello" ++ [LF] ++ js "# note" ++ [LF] ++ js "empty="))
          ++ [])
      [Pipeline.recon_local
         (LocalFormat.parseLocalContent
            (js "greeting=Hello" ++ [LF] ++ js "# note" ++ [LF] ++ js "empty="))
         (js "mod") (js "assets/mod/lang/en_us.local")] !! 0
    = Some (Pipeline.recon_local data (js "mod") (js "assets/mod/lang/en_us.local"))
    /\ LocalFormat.reconstructLocal data
       = js "greeting=Bonjour" ++ [LF] ++ js "# note" ++ [LF] ++ js "empty=".
Proof.
  destruct (put_back_local_translates_lines (fun _ => Throw (Error [])) {[0 := js "Bonjour"]}
              (Cache.mk_fileInfo (js "mod.jar") (js "assets/mod/lang/en_us.local")
                 (js "mod")
                 (js "greeting=Hello" ++ [LF] ++ js "# note" ++ [LF] ++ js "empty=")
                 false)
              0 [] []
              [Pipeline.recon_local
                 (LocalFormat.parseLocalContent
                    (js "greeting=Hello" ++ [LF] ++ js "# note" ++ [LF] ++ js "empty="))
                 (js "mod") (js "assets/mod/lang/en_us.local")]
              eq_refl eq_refl eq_refl (Forall_nil_2 _) (Forall_nil_2 _))
    as (_ & data & Hdata & Hout).
  exists data. split; [exact Hdata|]. rewrite Hout. vm_compute. reflexivity.
Defined.

Lemma put_back_json_translates_values_witness :
  Pipeline.put_back_all {[0 := js "Bonjour"; 1 := js "Adieu"]}
    ([] ++ Pipeline.json_texts 0
             [(js "greeting", VStr (js "Hello")); (js "", VStr (js "Bye"));
              (js "count", VNum (Finite 3))] ++ [])
    [Pipeline.recon_json
       (VObj [(js "greeting", VStr (js "Hello")); (js "", VStr (js "Bye"));
              (js "count", VNum (Finite 3))])
       (js "mod") (js "assets/mod/lang/en_us.json")] !! 0
  = Some (Pipeline.recon_json
            (VObj [(js "greeting", VStr (js "Bonjour")); (js "", VStr (js "Bye"));
                   (js "count", VNum (Finite 3))])
            (js "mod") (js "assets/mod/lang/en_us.json")).
Proof.
  destruct (put_back_json_translates_values
              (fun _ => Return (VObj [(js "greeting", VStr (js "Hello"));
                                      (js "", VStr (js "Bye")); (js "count", VNum (Finite 3))]))
              {[0 := js "Bonjour"; 1 := js "Adieu"]}
              (Cache.mk_fileInfo (js "mod.jar") (js "assets/mod/lang/en_us.json")
                 (js "mod") (js "{...}") true)
              0 [(js "greeting", VStr (js "Hello")); (js "", VStr (js "Bye"));
                 (js "count", VNum (Finite 3))] [] []
              [Pipeline.recon_json
                 (VObj [(js "greeting", VStr (js "Hello")); (js "", VStr (js "Bye"));
                        (js "count", VNum (Finite 3))])
                 (js "mod") (js "assets/mod/lang/en_us.json")]
              eq_refl eq_refl eq_refl ltac:(compute_done) eq_refl
              (Forall_nil_2 _) (Forall_nil_2 _))
    as (_ & H & _).
  etrans; [exact H|]. vm_compute. reflexivity.
Defined.


(** ** [LangTranslate]: [execLOCAL] and [execJSON] *)

Section DeepLFacts.

Import LangTranslate LocalFormat.

Variable remote : nat -> deepl_outcome.
Variable targetLang : jsstring.

Lemma instanceof_undefined_not_fatal :
  message instanceof_undefined <> quota_message
  /\ message instanceof_undefined <> authorization_message.
Proof. split; intros H; vm_compute in H; discriminate H. Qed.

Lemma _translateText_string v w :
  translatable (VStr v) = true ->
  (_translateText remote (VStr v) w).1
  = match remote (calls w) with
    | Translated t => Return (VStr t)
    | QuotaExceededError | AuthorizationError =>
        Throw (fatal_error (remote (calls w)))
    | _ => Throw instanceof_undefined
    end.
Proof.
  intros Ht. unfold _translateText. rewrite Ht. cbn [negb].
  by destruct (remote (calls w)).
Qed.

Lemma _translateText_calls v w :
  translatable (VStr v) = true ->
  calls (_translateText remote (VStr v) w).2 = S (calls w).
Proof.
  intros Ht. unfold _translateText. rewrite Ht. cbn [negb].
  by destruct (remote (calls w)).
Qed.

(** The [catch] of the two loops: what [_translateText] throws on a call
    that is not fatal is not thrown again. *)
Lemma rethrow_instanceof_undefined {A} (rethrow keep : M A) :
  (if decide (message instanceof_undefined = quota_message) then rethrow
   else if decide (message instanceof_undefined = authorization_message) then rethrow
   else keep) = keep.
Proof.
  destruct instanceof_undefined_not_fatal as [H1 H2].
  destruct (decide _) as [H|_]; [by destruct (H1 H)|].
  destruct (decide _) as [H|_]; [by destruct (H2 H)|]. done.
Qed.

(** One turn of the loop of [execLOCAL]. *)
Lemma translate_item_spec totalItems items processedItems item w :
  let r := translate_item remote totalItems (items, processedItems) item w in
  if is_text_line item then
    calls r.2 = S (calls w)
    /\ if fatal (remote (calls w))
       then r.1 = Throw (fatal_error (remote (calls w)))
       else exists n,
              r.1 = Return (items ++ [match remote (calls w) with
                                      | Translated t => set_translatedValue t item
                                      | _ => item
                                      end], n)
  else r = (Return (items ++ [item], processedItems), w).
Proof.
  cbv zeta. unfold translate_item.
  destruct (is_text_line item) eqn:Hitem; [|done].
  destruct (is_text_line_value item Hitem) as (_ & v & Hv & Ht). rewrite Hv.
  change (default [] (Some v)) with v.
  unfold try_catch, bind.
  pose proof (_translateText_calls v w Ht) as Hc.
  pose proof (_translateText_string v w Ht) as Hr.
  destruct (_translateText remote (VStr v) w) as [r0 w0]. cbn [fst snd] in *.
  subst r0.
  destruct (remote (calls w)) eqn:Hrem; cbn [fatal].
  - (* a text *)
    cbn [string_of].
    destruct (((processedItems + 1) mod 50 =? 0) || (processedItems + 1 =? totalItems));
      simpl; eauto.
  - simpl. done.
  - simpl. done.
  - rewrite rethrow_instanceof_undefined. simpl. eauto.
  - rewrite rethrow_instanceof_undefined. simpl. eauto.
  - rewrite rethrow_instanceof_undefined. simpl. eauto.
  - rewrite rethrow_instanceof_undefined. simpl. eauto.
Qed.

Lemma lines_after_loop_cons c item parsedData :
  lines_after_loop remote c (item :: parsedData)
  = (if is_text_line item
     then match remote c with
          | Translated t => set_translatedValue t item
          | _ => item
          end
     else item)
    :: lines_after_loop remote (c + if is_text_line item then 1 else 0) parsedData.
Proof.
  unfold lines_after_loop. rewrite imap_cons. rewrite line_rank_0, Nat.add_0_r.
  f_equal. apply imap_ext. intros i x _. simpl. rewrite line_rank_S.
  by rewrite Nat.add_assoc.
Qed.

Lemma translated_from_cons c item parsedData :
  translated_from remote c (item :: parsedData)
  = (if is_text_line item
     then set_translatedValue (text_of (remote c) (default [] (value item))) item
     else item)
    :: translated_from remote (c + if is_text_line item then 1 else 0) parsedData.
Proof.
  unfold translated_from. rewrite imap_cons. rewrite line_rank_0, Nat.add_0_r.
  f_equal. apply imap_ext. intros i x _. simpl. rewrite line_rank_S.
  by rewrite Nat.add_assoc.
Qed.

(** The whole loop. *)
Lemma translate_items_spec totalItems parsedData :
  forall items processedItems w,
    let r := for_of (translate_item remote totalItems) (items, processedItems)
               parsedData w in
    let k := length (filter (fun item => is_text_line item) parsedData) in
    match first_fatal remote (calls w) k with
    | None =>
        (exists n, r.1 = Return (items ++ lines_after_loop remote (calls w) parsedData, n))
        /\ calls r.2 = calls w + k
    | Some j =>
        r.1 = Throw (fatal_error (remote (calls w + j)))
        /\ calls r.2 = calls w + j + 1
    end.
Proof.
  induction parsedData as [|item parsedData IH]; intros items processedItems w.
  { simpl. rewrite app_nil_r, !Nat.add_0_r. eauto. }
  cbv zeta. rewrite count_text_lines_cons, lines_after_loop_cons. cbn [for_of]. unfold bind.
  pose proof (translate_item_spec totalItems items processedItems item w) as Hstep.
  cbv zeta in Hstep.
  destruct (is_text_line item) eqn:Hitem.
  - destruct Hstep as [Hc Hr]. cbn [Nat.add first_fatal].
    destruct (translate_item remote totalItems (items, processedItems) item w)
      as [r1 w1]. cbn [fst snd] in Hc, Hr.
    destruct (fatal (remote (calls w))) eqn:Hf.
    + subst r1. rewrite Nat.add_0_r. split; [done|]. simpl. lia.
    + destruct Hr as [n ->].
      specialize (IH (items ++ [match remote (calls w) with
                                | Translated t => set_translatedValue t item
                                | _ => item
                                end]) n w1).
      cbv zeta in IH. rewrite Hc in IH.
      replace (calls w + 1) with (S (calls w)) by lia.
      destruct (first_fatal remote (S (calls w)) _) as [j|]; cbn [fmap option_fmap option_map].
      * destruct IH as [-> ->]. split; [f_equal; f_equal; f_equal; lia|lia].
      * destruct IH as [[n' ->] ->]. split; [|lia].
        exists n'. rewrite <- app_assoc. cbn [app]. done.
  - rewrite Hstep. rewrite !Nat.add_0_l, Nat.add_0_r.
    specialize (IH (items ++ [item]) processedItems w). cbv zeta in IH.
    destruct (first_fatal remote (calls w) _) as [j|].
    + exact IH.
    + destruct IH as [[n ->] ->]. split; [|done]. exists n. by rewrite <- app_assoc.
Qed.

Lemma reconstruct_item_own_value item v :
  is_text_line item = true -> value item = Some v -> translatedValue item = None ->
  reconstruct_item (set_translatedValue v item) = reconstruct_item item.
Proof.
  unfold is_text_line, reconstruct_item, set_translatedValue.
  destruct item as [ty k val o n tv]. simpl.
  destruct ty; try done. intros _ -> ->. simpl.
  by destruct (decide (t_kv = t_kv)).
Qed.

(** A line that the loop left as parsed is written with its own value,
    and so is a line whose [translatedValue] is its own value: the lines
    that the loop leaves give the same file as the lines with the text of
    each. *)
Lemma reconstruct_lines_after_loop c (parsedData : list parsed_line) :
  Forall (fun item => translatedValue item = None) parsedData ->
  reconstructLocal (lines_after_loop remote c parsedData)
  = reconstructLocal (translated_from remote c parsedData).
Proof.
  intros Hnone. unfold reconstructLocal. f_equal.
  apply list_eq. intros i. rewrite !list_lookup_fmap.
  unfold lines_after_loop, translated_from. rewrite !list_lookup_imap.
  destruct (parsedData !! i) as [item|] eqn:Hi; [|done].
  simpl. f_equal. destruct (is_text_line item) eqn:Ht; [|done].
  destruct (is_text_line_value item Ht) as (Hkv & v & Hv & _). rewrite Hv.
  change (default [] (Some v)) with v.
  rewrite Forall_lookup in Hnone. specialize (Hnone i item Hi).
  destruct (remote (c + line_rank parsedData i)); cbn [text_of]; try done.
  all: symmetry; by apply reconstruct_item_own_value.
Qed.

Lemma _parseLocal_spec localContent w :
  (_parseLocal localContent w).1 = Return (parseLocalContent localContent)
  /\ calls (_parseLocal localContent w).2 = calls w.
Proof.
  unfold _parseLocal. split; [done|]. cbn [snd].
  generalize (parseLocalContent localContent). intros parsed. revert w.
  induction parsed as [|item parsed IH]; intros w; [done|].
  cbn [fold_left]. rewrite IH. by destruct (decide _).
Qed.

(** A run of [execLOCAL], request by request. *)
Lemma execLOCAL_run (localContent : jsstring) w :
  let parsedData := parseLocalContent localContent in
  let k := length (filter (fun item => is_text_line item) parsedData) in
  let r := execLOCAL remote targetLang (VStr localContent) w in
  match first_fatal remote (calls w) k with
  | None =>
      r.1 = Return (reconstructLocal (translated_from remote (calls w) parsedData))
      /\ calls r.2 = calls w + k
  | Some j =>
      r.1 = Throw (fatal_error (remote (calls w + j)))
      /\ calls r.2 = calls w + j + 1
  end.
Proof.
  cbv zeta. unfold execLOCAL, bind, say, ret.
  destruct (_parseLocal_spec localContent
              (emit (EvLog (js "Parsing .local content...")) w)) as [Hp Hc].
  destruct (_parseLocal localContent _) as [r0 w0]. cbn [fst snd] in Hp, Hc. subst r0.
  change (calls (emit _ w)) with (calls w) in Hc.
  set (parsedData := parseLocalContent localContent).
  set (k := length (filter (fun item => is_text_line item) parsedData)).
  match goal with
  | |- context [for_of ?f ?a parsedData ?w1] =>
      pose proof (translate_items_spec k parsedData [] 0 w1) as H;
      cbv zeta in H; change (calls w1) with (calls w0) in H;
      destruct (for_of f a parsedData w1) as [[done|e] w2]
  end; fold k in H; rewrite Hc in H;
    destruct (first_fatal remote (calls w) k) as [j|]; cbn [fst snd] in H;
    destruct H as [H1 H2]; try done; try (by destruct H1).
  - destruct H1 as [n [= ->]]. split; [|done]. cbn [fst]. f_equal.
    apply reconstruct_lines_after_loop, Forall_forall. intros item Hitem.
    by eapply parseLocalContent_untranslated.
  - injection H1 as ->. split; [done|]. done.
Qed.

End DeepLFacts.


Section DeepLFacts2.

Import LangTranslate LocalFormat.

Variable remote : nat -> deepl_outcome.
Variable targetLang : jsstring.

Lemma first_fatal_None c k :
  first_fatal remote c k = None <-> forall j, j < k -> fatal (remote (c + j)) = false.
Proof.
  revert c. induction k as [|k IH]; intros c; cbn [first_fatal].
  - split; [intros _ j; lia|done].
  - destruct (fatal (remote c)) eqn:Hf.
    + split; [done|]. intros H. specialize (H 0 ltac:(lia)).
      rewrite Nat.add_0_r in H. congruence.
    + rewrite fmap_None, IH. split.
      * intros H [|j] Hj; [by rewrite Nat.add_0_r|].
        replace (c + S j) with (S c + j) by lia. apply H. lia.
      * intros H j Hj. replace (S c + j) with (c + S j) by lia. apply H. lia.
Qed.

Lemma first_fatal_Some c k j :
  first_fatal remote c k = Some j <->
  j < k /\ fatal (remote (c + j)) = true
  /\ forall j', j' < j -> fatal (remote (c + j')) = false.
Proof.
  revert c j. induction k as [|k IH]; intros c j; cbn [first_fatal].
  - split; [done|]. intros [? _]. lia.
  - destruct (fatal (remote c)) eqn:Hf.
    + split.
      * intros [= <-]. rewrite Nat.add_0_r. split; [lia|]. split; [done|]. intros; lia.
      * intros (_ & _ & H). destruct j as [|j]; [done|].
        specialize (H 0 ltac:(lia)). rewrite Nat.add_0_r in H. congruence.
    + rewrite fmap_Some. split.
      * intros (j0 & Hj0 & ->). apply IH in Hj0 as (? & ? & H).
        split; [lia|]. split; [by replace (c + S j0) with (S c + j0) by lia|].
        intros [|j'] Hj'; [by rewrite Nat.add_0_r|].
        replace (c + S j') with (S c + j') by lia. apply H. lia.
      * intros (Hj & Hfj & H). destruct j as [|j].
        { rewrite Nat.add_0_r in Hfj. congruence. }
        exists j. split; [|done]. apply IH. split; [lia|].
        split; [by replace (S c + j) with (c + S j) by lia|].
        intros j' Hj'. replace (S c + j') with (c + S j') by lia. apply H. lia.
Qed.

(** X12: [execLOCAL] of the DeepL translator sends one request for each
    key-value line whose value is not blank, in the order of the lines, and
    stops at the first request that ends in a quota or an authorization
    error, which it throws.  When no request ends so, it returns the lines
    put together again, each translated line as [key=text], the text being
    what the service returned for it, or its own value when the request
    failed in another way; lines that are not to translate come out as
    [reconstructLocal] gives them. *)
Theorem execLOCAL_requests_and_result (localContent : jsstring) w :
  let parsedData := parseLocalContent localContent in
  let k := length (filter (fun item => is_text_line item) parsedData) in
  let r := execLOCAL remote targetLang (VStr localContent) w in
  match first_fatal remote (calls w) k with
  | None =>
      r.1 = Return (reconstructLocal (translated_from remote (calls w) parsedData))
      /\ calls r.2 = calls w + k
  | Some j =>
      r.1 = Throw (fatal_error (remote (calls w + j)))
      /\ calls r.2 = calls w + j + 1
  end.
Proof. exact (execLOCAL_run remote targetLang localContent w). Qed.

(** X13: when every request of a run of [execLOCAL] fails in a way that is
    not fatal (a rate limit, a connection error, any other error of the
    client), the call returns the file as [reconstructLocal] writes the
    parsed lines: nothing is lost and nothing is translated. *)
Theorem execLOCAL_degrades_to_round_trip (localContent : jsstring) w :
  (forall j,
     j < length (filter (fun item => is_text_line item)
                   (parseLocalContent localContent)) ->
     fatal (remote (calls w + j)) = false
     /\ forall v, text_of (remote (calls w + j)) v = v) ->
  (execLOCAL remote targetLang (VStr localContent) w).1
  = Return (reconstructLocal (parseLocalContent localContent)).
Proof.
  intros Hall.
  pose proof (execLOCAL_run remote targetLang localContent w) as H.
  cbv zeta in H.
  rewrite (proj2 (first_fatal_None _ _)) in H by (intros j Hj; by apply Hall).
  destruct H as [-> _]. f_equal. unfold reconstructLocal. f_equal.
  apply list_eq. intros i. rewrite !list_lookup_fmap.
  unfold translated_from. rewrite list_lookup_imap.
  destruct (parseLocalContent localContent !! i) as [item|] eqn:Hi; [|done].
  simpl. f_equal. destruct (is_text_line item) eqn:Ht; [|done].
  destruct (is_text_line_value item Ht) as (_ & v & Hv & _). rewrite Hv.
  change (default [] (Some v)) with v.
  destruct (Hall (line_rank (parseLocalContent localContent) i)) as [_ ->].
  { by eapply line_rank_lt. }
  apply reconstruct_item_own_value; [done|done|].
  eapply parseLocalContent_untranslated. by eapply list_elem_of_lookup_2.
Qed.

End DeepLFacts2.

Lemma execLOCAL_degrades_to_round_trip_witness :
  (LangTranslate.execLOCAL (fun _ => LangTranslate.TooManyRequestsError) (js "ja")
     (VStr (js "# note" ++ [LF] ++ js "greeting=Hello" ++ [LF] ++ js "bye=Bye"))
     Samples.fresh_world).1
  = Return (js "# note" ++ [LF] ++ js "greeting=Hello" ++ [LF] ++ js "bye=Bye").
Proof.
  etrans.
  - apply (execLOCAL_degrades_to_round_trip
             (fun _ => LangTranslate.TooManyRequestsError) (js "ja")).
    intros j _. split; [reflexivity|]. intros v. reflexivity.
  - vm_compute. reflexivity.
Defined.


Section DeepLJson.

Import LangTranslate.

Variable remote : nat -> deepl_outcome.

Implicit Types (props acc : list (jsstring * jsval)).

Lemma count_values_cons (p : jsstring * jsval) props :
  length (filter (fun p : jsstring * jsval => translatable p.2) (p :: props))
  = (if translatable p.2 then 1 else 0)
    + length (filter (fun p : jsstring * jsval => translatable p.2) props).
Proof.
  rewrite filter_cons. destruct (decide _) as [H|H].
  - apply Is_true_true in H. by rewrite H.
  - apply Is_true_false in H. by rewrite H.
Qed.

Lemma translated_props_cons c p props :
  translated_props remote c (p :: props)
  = (if translatable p.2
     then (p.1, VStr (text_of (remote c) (string_of p.2)))
     else p)
    :: translated_props remote (c + if translatable p.2 then 1 else 0) props.
Proof.
  unfold translated_props. rewrite imap_cons. rewrite rank_0, Nat.add_0_r.
  f_equal. apply imap_ext. intros i x _. simpl. rewrite rank_S.
  by rewrite Nat.add_assoc.
Qed.

(** One turn of the loop of [execJSON], on a key that the result does not
    have yet. *)
Lemma translate_key_spec jsonData acc key w :
  key ∉ acc.*1 -> key <> js "__proto__" ->
  let originalValue := get jsonData key in
  let r := translate_key remote jsonData acc key w in
  if translatable originalValue then
    calls r.2 = S (calls w)
    /\ r.1 = if fatal (remote (calls w))
             then Throw (fatal_error (remote (calls w)))
             else Return (acc ++ [(key, VStr (text_of (remote (calls w))
                                                (string_of originalValue)))])
  else r = (Return (acc ++ [(key, originalValue)]), w).
Proof.
  intros Hnew Hproto. cbv zeta.
  assert (forall x, set_prop key x acc = acc ++ [(key, x)]) as Hset.
  { intros x. unfold set_prop. rewrite bool_decide_eq_false_2.
    - by destruct (decide (key = js "__proto__")).
    - by rewrite assoc_is_Some. }
  unfold translate_key. rewrite !Hset.
  destruct (translatable (get jsonData key)) eqn:Ht; [|done].
  destruct (get jsonData key) as [| | | |v| |]; try done.
  unfold try_catch, bind.
  pose proof (_translateText_calls remote v w Ht) as Hc.
  pose proof (_translateText_string remote v w Ht) as Hr.
  destruct (_translateText remote (VStr v) w) as [r0 w0]. cbn [fst snd] in *.
  subst r0.
  destruct (remote (calls w)); cbn [fatal text_of string_of]; try done.
  unfold ret. cbn [fst snd]. by rewrite Hset.
Qed.

(** The loop of [execJSON] from any point on. *)
Lemma translate_keys_spec props :
  NoDup props.*1 -> js "__proto__" ∉ props.*1 ->
  forall rest done acc w,
    props = done ++ rest -> acc.*1 = done.*1 ->
    let r := for_of (translate_key remote (VObj props)) acc rest.*1 w in
    let k := length (filter (fun p : jsstring * jsval => translatable p.2) rest) in
    match first_fatal remote (calls w) k with
    | None =>
        r.1 = Return (acc ++ translated_props remote (calls w) rest)
        /\ calls r.2 = calls w + k
    | Some j =>
        r.1 = Throw (fatal_error (remote (calls w + j)))
        /\ calls r.2 = calls w + j + 1
    end.
Proof.
  intros Hnd Hproto rest. induction rest as [|[key v] rest IH]; intros done acc w Hp Hacc.
  { simpl. rewrite app_nil_r, Nat.add_0_r. done. }
  cbv zeta. rewrite count_values_cons, translated_props_cons. cbn [fst snd].
  rewrite fmap_cons. cbn [for_of fst]. unfold bind.
  assert (get (VObj props) key = v) as Hget.
  { unfold get. cbn [own_props].
    rewrite (proj2 (assoc_elem_of props key v Hnd)); [done|].
    rewrite Hp. apply elem_of_app. right. by left. }
  assert (key ∉ acc.*1) as Hnew.
  { rewrite Hacc. rewrite Hp, fmap_app, fmap_cons in Hnd.
    apply NoDup_app in Hnd as (_ & Hdisj & _). intros Hin.
    apply (Hdisj key Hin). by left. }
  assert (key <> js "__proto__") as Hkey.
  { intros ->. apply Hproto. rewrite Hp, fmap_app, fmap_cons.
    apply elem_of_app. right. by left. }
  pose proof (translate_key_spec (VObj props) acc key w Hnew Hkey) as Hstep.
  cbv zeta in Hstep. rewrite Hget in Hstep.
  assert (forall x, props = (done ++ [(key, v)]) ++ rest
                    /\ (acc ++ [(key, x)]).*1 = (done ++ [(key, v)]).*1) as Hnext.
  { intros x. split; [by rewrite <- app_assoc|]. by rewrite !fmap_app, Hacc. }
  destruct (translatable v) eqn:Hv.
  - destruct Hstep as [Hc Hr]. cbn [Nat.add first_fatal].
    destruct (translate_key remote (VObj props) acc key w) as [r1 w1].
    cbn [fst snd] in Hc, Hr. subst r1.
    destruct (fatal (remote (calls w))) eqn:Hf.
    + rewrite Nat.add_0_r. split; [done|]. simpl. lia.
    + destruct (Hnext (VStr (text_of (remote (calls w)) (string_of v)))) as [Hp' Hacc'].
      specialize (IH _ _ w1 Hp' Hacc'). cbv zeta in IH. rewrite Hc in IH.
      replace (calls w + 1) with (S (calls w)) by lia.
      destruct (first_fatal remote (S (calls w)) _) as [j|];
        cbn [fmap option_fmap option_map].
      * destruct IH as [-> ->]. split; [f_equal; f_equal; f_equal; lia|lia].
      * destruct IH as [-> ->]. split; [|lia]. by rewrite <- app_assoc.
  - rewrite Hstep. rewrite !Nat.add_0_l, Nat.add_0_r.
    destruct (Hnext v) as [Hp' Hacc'].
    specialize (IH _ _ w Hp' Hacc'). cbv zeta in IH.
    destruct (first_fatal remote (calls w) _) as [j|].
    + exact IH.
    + destruct IH as [-> ->]. split; [|done]. by rewrite <- app_assoc.
Qed.

(** X14: [execJSON] of the DeepL translator, on an object that has no
    property named [__proto__]: it sends one request for each value that
    is a string and not blank, in the order of the keys, and stops at the
    first request that ends in a quota or an authorization error, which it
    throws.  When no request ends so, the object it returns has the same
    keys in the same order; every such string is replaced by what the
    service returned for it, or kept when the request failed in another
    way; every other value is kept. *)
Theorem execJSON_requests_and_result props w :
  NoDup props.*1 -> js "__proto__" ∉ props.*1 ->
  let k := length (filter (fun p : jsstring * jsval => translatable p.2) props) in
  let r := execJSON remote (VObj props) w in
  match first_fatal remote (calls w) k with
  | None =>
      r.1 = Return (VObj (translated_props remote (calls w) props))
      /\ (translated_props remote (calls w) props).*1 = props.*1
      /\ calls r.2 = calls w + k
  | Some j =>
      r.1 = Throw (fatal_error (remote (calls w + j)))
      /\ calls r.2 = calls w + j + 1
  end.
Proof.
  intros Hnd Hproto. cbv zeta. unfold execJSON, bind. cbn [typeof_object isNull negb orb].
  pose proof (translate_keys_spec props Hnd Hproto props [] [] w eq_refl eq_refl) as H.
  cbv zeta in H. change (keys (VObj props)) with props.*1.
  destruct (for_of _ _ _ _) as [[out|e] w1];
    destruct (first_fatal remote (calls w) _) as [j|]; cbn [fst snd] in H;
    destruct H as [H1 H2]; try done.
  all: try (injection H1 as ->; split; [done|done]).
  injection H1 as ->. split; [done|]. split; [|done].
  unfold translated_props. apply list_eq. intros i.
  rewrite !list_lookup_fmap, list_lookup_imap.
  destruct (props !! i) as [[key v]|]; [|done]. simpl.
  by destruct (translatable v).
Qed.

End DeepLJson.

Lemma execJSON_requests_and_result_witness :
  (LangTranslate.execJSON
     (fun n => match n with
               | 0 => LangTranslate.Translated (js "Bonjour")
               | _ => LangTranslate.TooManyRequestsError
               end)
     (VObj [(js "greeting", VStr (js "Hello")); (js "count", VNum (Finite 3));
            (js "farewell", VStr (js "Bye"))]) Samples.fresh_world).1
  = Return (VObj [(js "greeting", VStr (js "Bonjour")); (js "count", VNum (Finite 3));
                  (js "farewell", VStr (js "Bye"))]).
Proof.
  destruct (execJSON_requests_and_result
              (fun n => match n with
                        | 0 => LangTranslate.Translated (js "Bonjour")
                        | _ => LangTranslate.TooManyRequestsError
                        end)
              [(js "greeting", VStr (js "Hello")); (js "count", VNum (Finite 3));
               (js "farewell", VStr (js "Bye"))] Samples.fresh_world
              ltac:(compute_done) ltac:(compute_done)) as (H & _).
  exact H.
Defined.


(** ** Failures of the remote call *)

Section FailureTaxonomy.

Import OpenAITranslator.

Variable remote : nat -> api_outcome.
Variable toLowerCase : jsstring -> jsstring.

#[local] Abbreviation translateBatchInternal := (translateBatchInternal remote toLowerCase).


End FailureTaxonomy.



(** ** [FileSearcher.search] *)

Section SearchFacts.

Import FileSearcher.

Context {S : Type}.
Variable path_join : jsstring -> jsstring -> jsstring.

Lemma fs_node_deep_ind (P : fs_node -> Prop) :
  P RegularFile -> P OtherEntry ->
  (forall entries, Forall (fun e => P e.2) entries -> P (Directory entries)) ->
  (forall message, P (Unreadable message)) ->
  forall node, P node.
Proof.
  intros Hf Ho Hd Hu. fix IH 1. intros [| |entries|message].
  - exact Hf.
  - exact Ho.
  - apply Hd. induction entries as [|[name child] entries IHl]; constructor.
    + apply IH.
    + exact IHl.
  - apply Hu.
Qed.

Lemma found_files_app (lines1 lines2 : list line) :
  found_files (lines1 ++ lines2) = found_files lines1 ++ found_files lines2.
Proof. unfold found_files. apply omap_app. Qed.

Section Names.

Variable jsonFileName localFileName : jsstring.
Variable jsonCallback localCallback : jsstring -> S -> result unit * S.

#[local] Abbreviation visit :=
  (visit_entry path_join jsonFileName localFileName jsonCallback localCallback
     (_recursiveSearch path_join jsonFileName localFileName jsonCallback localCallback)).
#[local] Abbreviation files_at :=
  (matching_entry path_join jsonFileName localFileName
     (matching path_join jsonFileName localFileName)).
#[local] Abbreviation on_file := (run_callback jsonCallback localCallback).

Lemma print_nothing (st : state S) : st = mk_state (user_state st) (printed st ++ []).
Proof. destruct st. simpl. by rewrite app_nil_r. Qed.

(** What a search of [node] does: it returns; it has run the callbacks on
    the matching files, in order; and it has reported each of them, and no
    other file, as found. *)
Lemma _recursiveSearch_spec node :
  forall currentPath (st : state S),
  exists lines,
    _recursiveSearch path_join jsonFileName localFileName jsonCallback localCallback
      node currentPath st
    = (Return tt,
       mk_state
         (foldl on_file (user_state st)
            (matching path_join jsonFileName localFileName node currentPath))
         (printed st ++ lines))
    /\ found_files lines
       = matching path_join jsonFileName localFileName node currentPath.
Proof.
  induction node as [| |entries IH|message] using fs_node_deep_ind;
    intros currentPath st.
  - exists [LogSearching currentPath; WarnNotDirectory currentPath].
    split; [|done]. cbn [_recursiveSearch matching foldl]. unfold print. cbn [user_state printed].
    by rewrite <- app_assoc.
  - exists [LogSearching currentPath; WarnNotDirectory currentPath].
    split; [|done]. cbn [_recursiveSearch matching foldl]. unfold print. cbn [user_state printed].
    by rewrite <- app_assoc.
  - cbn [_recursiveSearch matching].
    assert (forall st0 : state S,
              exists lines,
                for_entries (visit currentPath) entries st0
                = (Return tt,
                   mk_state
                     (foldl on_file (user_state st0)
                        (mjoin (map (fun '(name, dirent) =>
                                       files_at currentPath name dirent) entries)))
                     (printed st0 ++ lines))
                /\ found_files lines
                   = mjoin (map (fun '(name, dirent) =>
                                   files_at currentPath name dirent) entries))
      as Hloop.
    { induction entries as [|[name child] entries IHl]; intros st0.
      - exists []. split; [apply f_equal, print_nothing|done].
      - apply Forall_cons in IH as [IHchild IH]. specialize (IHl IH).
        cbn [for_entries map].
        change (mjoin (files_at currentPath name child :: ?l))
          with (files_at currentPath name child ++ mjoin l).
        rewrite foldl_app.
        assert (exists lines1,
                  visit currentPath name child st0
                  = (Return tt,
                     mk_state (foldl on_file (user_state st0) (files_at currentPath name child))
                       (printed st0 ++ lines1))
                  /\ found_files lines1 = files_at currentPath name child)
          as (lines1 & -> & Hfound1).
        { unfold visit_entry, matching_entry.
          destruct child as [| |sub|message]; cbn [isFile isDirectory].
          - destruct (decide (name = jsonFileName)) as [Hj|Hj].
            + unfold call_guarded, run_callback.
              unfold print. cbn [foldl fst snd user_state printed].
              destruct (jsonCallback _ _) as [[[]|e] s]; eexists;
                (split; [simpl; rewrite <- app_assoc; reflexivity|done]).
            + destruct (decide (name = localFileName)) as [Hl|Hl].
              * unfold call_guarded, run_callback.
                unfold print. cbn [foldl fst snd user_state printed].
                destruct (localCallback _ _) as [[[]|e] s]; eexists;
                  (split; [simpl; rewrite <- app_assoc; reflexivity|done]).
              * exists []. split; [apply f_equal, print_nothing|done].
          - exists []. split; [apply f_equal, print_nothing|done].
          - apply (IHchild (path_join currentPath name) st0).
          - apply (IHchild (path_join currentPath name) st0). }
        destruct (IHl (mk_state (foldl on_file (user_state st0) (files_at currentPath name child))
                         (printed st0 ++ lines1))) as (lines2 & -> & Hfound2).
        exists (lines1 ++ lines2). split.
        + cbn [user_state printed]. by rewrite <- app_assoc.
        + by rewrite found_files_app, Hfound1, Hfound2. }
    destruct (Hloop (print (LogSearching currentPath) st)) as (lines & -> & Hfound).
    exists (LogSearching currentPath :: lines). split.
    + unfold print. cbn [user_state printed]. by rewrite <- app_assoc.
    + done.
  - exists [LogSearching currentPath; ErrorUnreadable currentPath message].
    split; [|done]. cbn [_recursiveSearch matching foldl]. unfold print. cbn [user_state printed].
    by rewrite <- app_assoc.
Qed.

End Names.

End SearchFacts.


Section SearchTheorems.

Import FileSearcher.

Context {S : Type}.
Variable path_join : jsstring -> jsstring -> jsstring.

(** X15: [FileSearcher.search] rejects exactly when an argument is not what
    it must be (a folder path that is a string and not empty, two names
    that are strings, two callbacks that are functions), and then before
    it has printed or run anything.  With good arguments it resolves
    whatever the tree holds and whatever the callbacks throw: an error that
    a callback re-throws as fatal does not stop the search. *)
Theorem search_rejects_bad_arguments_only root folderPath jsonFileName localFileName
  (jsonCallback localCallback : callback_arg S) (st : state S) :
  let r := search path_join root folderPath jsonFileName localFileName
             jsonCallback localCallback st in
  ((exists p j l f g,
      folderPath = VStr p /\ isEmpty p = false /\ jsonFileName = VStr j
      /\ localFileName = VStr l /\ jsonCallback = Function f
      /\ localCallback = Function g)
   /\ r.1 = Return tt)
  \/ ((typeof_string folderPath && negb (isEmpty (string_of folderPath))
       && typeof_string jsonFileName && typeof_string localFileName
       && match jsonCallback with Function _ => true | _ => false end
       && match localCallback with Function _ => true | _ => false end) = false
      /\ exists message, r = (Throw (Error message), st)).
Proof.
  cbv zeta. unfold search.
  destruct folderPath as [| | | |p| |]; try (right; split; [done|eauto]).
  destruct (isEmpty p) eqn:Hp; [right; split; [cbn; by rewrite Hp|eauto]|].
  destruct jsonFileName as [| | | |j| |];
    try (right; split; [cbn; by rewrite ?andb_false_r|eauto]).
  destruct localFileName as [| | | |l| |];
    try (right; split; [cbn; by rewrite ?andb_false_r|eauto]).
  destruct jsonCallback as [f|v];
    [|right; split; [cbn; by rewrite ?andb_false_r|eauto]].
  destruct localCallback as [g|v];
    [|right; split; [cbn; by rewrite ?andb_false_r|eauto]].
  left. split; [by exists p, j, l, f, g|].
  destruct (_recursiveSearch_spec path_join j l f g root p
              (print (LogStart p) st)) as (lines & -> & _).
  done.
Qed.

(** X16: with good arguments, a search runs the callbacks on the files named
    [jsonFileName] or [localFileName] that it finds in the directories it
    can read, one after the other in the order in which a depth-first
    walk meets them, every callback starting from the state that the one
    before left, thrown or not; and it prints each of these files, and no
    other, as found. *)
Theorem search_runs_callbacks_in_order root (folderPath jsonFileName localFileName : jsstring)
  (jsonCallback localCallback : jsstring -> S -> result unit * S) (st : state S) :
  isEmpty folderPath = false ->
  exists lines,
    search path_join root (VStr folderPath) (VStr jsonFileName) (VStr localFileName)
      (Function jsonCallback) (Function localCallback) st
    = (Return tt,
       mk_state
         (foldl (run_callback jsonCallback localCallback) (user_state st)
            (matching path_join jsonFileName localFileName root folderPath))
         (printed st ++ lines))
    /\ found_files lines
       = matching path_join jsonFileName localFileName root folderPath.
Proof.
  intros Hp. unfold search. rewrite Hp.
  destruct (_recursiveSearch_spec path_join jsonFileName localFileName
              jsonCallback localCallback root folderPath
              (print (LogStart folderPath) st)) as (lines & -> & Hfound).
  exists (LogStart folderPath :: lines ++ [LogFinished folderPath]). split.
  - unfold print. cbn [user_state printed]. by rewrite <- !app_assoc.
  - change (LogStart folderPath :: lines ++ [LogFinished folderPath])
      with ([LogStart folderPath] ++ lines ++ [LogFinished folderPath]).
    rewrite !found_files_app, Hfound. simpl. by rewrite app_nil_r.
Qed.

End SearchTheorems.

Lemma search_runs_callbacks_in_order_witness :
  exists lines,
    FileSearcher.search Examples.join_paths Examples.mods_tree
      (VStr (js "/mods")) (VStr (js "en_us.json")) (VStr (js "en_us.local"))
      (FileSearcher.Function (Examples.recording (js "json:")))
      (FileSearcher.Function (Examples.recording (js "local:")))
      (FileSearcher.mk_state [] [])
    = (Return tt,
       FileSearcher.mk_state
         [js "json:/mods/a/en_us.json"; js "local:/mods/en_us.local";
          js "json:/mods/b/c/en_us.json"] lines)
    /\ FileSearcher.found_files lines
       = [(true, js "/mods/a/en_us.json"); (false, js "/mods/en_us.local");
          (true, js "/mods/b/c/en_us.json")].
Proof.
  destruct (search_runs_callbacks_in_order Examples.join_paths Examples.mods_tree
              (js "/mods") (js "en_us.json") (js "en_us.local")
              (Examples.recording (js "json:")) (Examples.recording (js "local:"))
              (FileSearcher.mk_state [] []) eq_refl) as (lines & H & Hfound).
  exists lines. split; [exact H|exact Hfound].
Defined.
